(** * dex-pair-visualizer: the physics, the event handlers and the renderer's geometry

    A shallow embedding of [src/lib/physics.ts] (with the constants of
    [src/lib/constants.ts] and the records of [src/lib/types.ts]), followed
    by the chain table and [normalizeChainName] of [constants.ts], the
    handlers of the component [Visualizer] that own the cells and the organs
    ([initOrgans], [handleEvent], [animate], the pointer handlers), and the
    geometry of the renderer ([drawBlob], the culling test, [hexToRgb]).

    A JavaScript [number] is kept abstract behind the interface [Number], and
    the physics is written once over it.  Three instances are given:

    - [F64]: binary64 floating point (Rocq's primitive floats), which is what
      the program computes with; it evaluates, so concrete runs are replayed
      bit for bit;
    - [Real]: exact real arithmetic, the idealisation in which the laws of the
      specification ("within floating tolerance") are stated and proved;
    - [Checked]: exact real arithmetic with an undefined value, in which a
      division by zero shows in whatever is computed from it.

    What calls [Math.cos], [Math.sin] or [Math.log10] is given over the reals
    only.

    Objects that the source mutates through references (the cells reachable
    both from the [cells] array and from the grid buckets, the organs
    reachable both from the map and from [organList]) live in one store each,
    a list, and are named by their index in it. *)

From Stdlib Require Import Reals Lra Psatz Lia ZArith QArith Ascii String List.
From Stdlib Require Import PrimFloat.
From Stdlib Require Uint63.
From stdpp Require Import base list sorting.

Set Warnings "-inexact-float".

(** ** Numbers *)

Declare Scope num_scope.
Delimit Scope num_scope with num.

Class Number (num : Type) : Type := {
  of_Z : Z → num;             (* an integer literal, [array.length] *)
  nopp : num → num;           (* unary [-] *)
  nadd : num → num → num;
  nsub : num → num → num;
  nmul : num → num → num;
  ndiv : num → num → num;
  nsqrt : num → num;          (* [Math.sqrt] *)
  nfloor : num → num;         (* [Math.floor] *)
  nmin : num → num → num;     (* [Math.min] *)
  nmax : num → num → num;     (* [Math.max] *)
  nlt : num → num → bool;     (* [<] *)
  nsame : num → num → bool;   (* [String(a) === String(b)] *)
}.

Notation "a + b" := (nadd a b) : num_scope.
Notation "a - b" := (nsub a b) : num_scope.
Notation "a * b" := (nmul a b) : num_scope.
Notation "a / b" := (ndiv a b) : num_scope.
Notation "- a" := (nopp a) : num_scope.
Notation "a <? b" := (nlt a b) : num_scope.
Notation "a >? b" := (nlt b a) : num_scope.

(** A decimal literal [n/10^k] written in the source, e.g. [lit 0.033]: the
    quotient of two integers is the real it denotes and, rounded once, the
    binary64 value the literal reads as. *)
Definition lit {num} `{Number num} (q : Q) : num :=
  (of_Z (Qnum q) / of_Z (Zpos (Qden q)))%num.
Arguments lit {num _} q%_Q.

(** *** Binary64 *)

Module Float64.

Definition of_Z (z : Z) : float :=
  match z with
  | Z0 => PrimFloat.zero
  | Zpos _ => PrimFloat.of_uint63 (Uint63.of_Z z)
  | Zneg p => PrimFloat.opp (PrimFloat.of_uint63 (Uint63.of_Z (Zpos p)))
  end.

Definition two52 : float := 0x1p+52%float.

(** [Math.floor]: below 2^52 in magnitude, adding and subtracting 2^52
    rounds to an integer, which is then adjusted downwards; from 2^52 on
    every value is an integer, and NaN and the infinities are returned as
    they are.  (The sign of a zero result is not tracked: both zeros print
    as the same key.) *)
Definition floor (x : float) : float :=
  let a := PrimFloat.abs x in
  if PrimFloat.ltb a two52 then
    let t := PrimFloat.sub (PrimFloat.add a two52) two52 in
    if PrimFloat.leb PrimFloat.zero x then
      if PrimFloat.ltb x t then PrimFloat.sub t PrimFloat.one else t
    else
      PrimFloat.opp (if PrimFloat.ltb t a then PrimFloat.add t PrimFloat.one else t)
  else x.

Definition is_neg_zero (x : float) : bool :=
  match PrimFloat.classify x with FloatClass.NZero => true | _ => false end.

(** [Math.min] and [Math.max]: NaN if either argument is, and -0 below +0. *)
Definition min (a b : float) : float :=
  if PrimFloat.is_nan a || PrimFloat.is_nan b then PrimFloat.nan
  else if PrimFloat.ltb a b then a
  else if PrimFloat.ltb b a then b
  else if is_neg_zero a then a else b.

Definition max (a b : float) : float :=
  if PrimFloat.is_nan a || PrimFloat.is_nan b then PrimFloat.nan
  else if PrimFloat.ltb a b then b
  else if PrimFloat.ltb b a then a
  else if is_neg_zero a then b else a.

(** Two numbers print as the same string when they are equal (the two zeros
    both print as "0") or both NaN. *)
Definition same (a b : float) : bool :=
  PrimFloat.eqb a b || (PrimFloat.is_nan a && PrimFloat.is_nan b).

Definition is_finite (x : float) : bool :=
  PrimFloat.eqb (PrimFloat.sub x x) PrimFloat.zero.

End Float64.

#[export] Instance F64 : Number float := {|
  of_Z := Float64.of_Z;
  nopp := PrimFloat.opp;
  nadd := PrimFloat.add;
  nsub := PrimFloat.sub;
  nmul := PrimFloat.mul;
  ndiv := PrimFloat.div;
  nsqrt := PrimFloat.sqrt;
  nfloor := Float64.floor;
  nmin := Float64.min;
  nmax := Float64.max;
  nlt := PrimFloat.ltb;
  nsame := Float64.same;
|}.

(** *** Exact reals *)

Module RealOps.

Definition ltb (a b : R) : bool := if Rlt_dec a b then true else false.
Definition eqb (a b : R) : bool := if Req_dec_T a b then true else false.
Definition floor (x : R) : R := IZR (Zfloor x).

End RealOps.

#[export] Instance Real : Number R := {|
  of_Z := IZR;
  nopp := Ropp;
  nadd := Rplus;
  nsub := Rminus;
  nmul := Rmult;
  ndiv := Rdiv;
  nsqrt := R_sqrt.sqrt;
  nfloor := RealOps.floor;
  nmin := Rmin;
  nmax := Rmax;
  nlt := RealOps.ltb;
  nsame := RealOps.eqb;
|}.

(** ** The records of [types.ts] *)

Module Cell.

Record t {num : Type} : Type := mk {
  id : string;
  chain : string;
  pairAddress : string;
  label : string;
  x : num;
  y : num;
  vx : num;
  vy : num;
  radius : num;
  targetRadius : num;
  color : string;
  wobblePhase : num;
  wobbleSpeed : num;
  born : num;
  lastUpdate : num;
  liquidity : num;
}.
Arguments t : clear implicits.
Arguments mk {num}.

Section Setters.
Context {num : Type}.
Implicit Type c : t num.

Definition set_x (v : num) c : t num :=
  mk (id c) (chain c) (pairAddress c) (label c) v (y c) (vx c) (vy c)
     (radius c) (targetRadius c) (color c) (wobblePhase c) (wobbleSpeed c)
     (born c) (lastUpdate c) (liquidity c).
Definition set_y (v : num) c : t num :=
  mk (id c) (chain c) (pairAddress c) (label c) (x c) v (vx c) (vy c)
     (radius c) (targetRadius c) (color c) (wobblePhase c) (wobbleSpeed c)
     (born c) (lastUpdate c) (liquidity c).
Definition set_vx (v : num) c : t num :=
  mk (id c) (chain c) (pairAddress c) (label c) (x c) (y c) v (vy c)
     (radius c) (targetRadius c) (color c) (wobblePhase c) (wobbleSpeed c)
     (born c) (lastUpdate c) (liquidity c).
Definition set_vy (v : num) c : t num :=
  mk (id c) (chain c) (pairAddress c) (label c) (x c) (y c) (vx c) v
     (radius c) (targetRadius c) (color c) (wobblePhase c) (wobbleSpeed c)
     (born c) (lastUpdate c) (liquidity c).
Definition set_radius (v : num) c : t num :=
  mk (id c) (chain c) (pairAddress c) (label c) (x c) (y c) (vx c) (vy c)
     v (targetRadius c) (color c) (wobblePhase c) (wobbleSpeed c)
     (born c) (lastUpdate c) (liquidity c).
Definition set_wobblePhase (v : num) c : t num :=
  mk (id c) (chain c) (pairAddress c) (label c) (x c) (y c) (vx c) (vy c)
     (radius c) (targetRadius c) (color c) v (wobbleSpeed c)
     (born c) (lastUpdate c) (liquidity c).

(** The fields no assignment of [stepPhysics] names. *)
Definition frame c : string * string * string * string * num * string
                     * num * num * num * num :=
  (id c, chain c, pairAddress c, label c, targetRadius c, color c,
   wobbleSpeed c, born c, lastUpdate c, liquidity c).
End Setters.

End Cell.

Module Organ.

Record t {num : Type} : Type := mk {
  chain : string;
  displayName : string;
  color : string;
  x : num;
  y : num;
  radius : num;
  wobblePhase : num;
  cellCount : num;
}.
Arguments t : clear implicits.
Arguments mk {num}.

Section Setters.
Context {num : Type}.
Implicit Type o : t num.

Definition set_x (v : num) o : t num :=
  mk (chain o) (displayName o) (color o) v (y o) (radius o)
     (wobblePhase o) (cellCount o).
Definition set_y (v : num) o : t num :=
  mk (chain o) (displayName o) (color o) (x o) v (radius o)
     (wobblePhase o) (cellCount o).
Definition set_radius (v : num) o : t num :=
  mk (chain o) (displayName o) (color o) (x o) (y o) v
     (wobblePhase o) (cellCount o).
Definition set_cellCount (v : num) o : t num :=
  mk (chain o) (displayName o) (color o) (x o) (y o) (radius o)
     (wobblePhase o) v.

(** The fields no assignment of [stepPhysics] names. *)
Definition frame o : string * string * string * num :=
  (chain o, displayName o, color o, wobblePhase o).
End Setters.

End Organ.

(** ** The constants of [constants.ts] that the physics reads *)

Module PHYSICS.
Section Constants.
Context {num : Type} `{Number num}.

Definition DAMPING : num := lit 0.88.
Definition BROWNIAN_STRENGTH : num := lit 0.03.
Definition MIN_CELL_RADIUS : num := of_Z 4.
Definition MAX_CELL_RADIUS : num := of_Z 20.
Definition DEFAULT_CELL_RADIUS : num := of_Z 7.
Definition ORGAN_BASE_RADIUS : num := of_Z 40.
Definition ORGAN_GROWTH_PER_CELL : num := of_Z 18.
Definition SPATIAL_CELL_SIZE : num := of_Z 100.
Definition MAX_CELLS_PER_CHAIN : num := of_Z 80.
End Constants.
End PHYSICS.

(** The two constants of [RENDER] that shape a cell. *)

Module RENDER.
Definition WOBBLE_HARMONICS : nat := 4.
Definition WOBBLE_AMPLITUDE : R := 0.08.
End RENDER.

(** ** [Map<string, V>]: an association list in insertion order, which is the
    order [values()] iterates in.  A map holds a key once. *)

Module StrMap.

Abbreviation t V := (list (string * V)).

Section Ops.
Context {V : Type}.
Implicit Type m : t V.

Fixpoint get m (k : string) : option V :=
  match m with
  | [] => None
  | (k', v) :: m' => if String.eqb k' k then Some v else get m' k
  end.

(** [const v = m.get(k); if (v) mutate(v)] *)
Fixpoint update (f : V → V) (k : string) m : t V :=
  match m with
  | [] => []
  | (k', v) :: m' =>
      if String.eqb k' k then (k', f v) :: m' else (k', v) :: update f k m'
  end.

(** [m.set(k, v)]: a key that is there keeps its place. *)
Fixpoint set m (k : string) (v : V) : t V :=
  match m with
  | [] => [(k, v)]
  | (k', v') :: m' =>
      if String.eqb k' k then (k', v) :: m' else (k', v') :: set m' k v
  end.

(** [for (const v of m.values()) mutate(v)] *)
Definition for_values (f : V → V) m : t V :=
  (λ kv, (kv.1, f kv.2)) <$> m.

(** The map seen through [f]: same keys, same order. *)
Definition view {A : Type} (f : V → A) m : list (string * A) :=
  (λ kv, (kv.1, f kv.2)) <$> m.

Definition keys m : list string := m.*1.
Definition values m : list V := m.*2.

Definition wf m : Prop := NoDup (keys m).
End Ops.
End StrMap.

(** ** [class SpatialGrid]

    [cells] is the [Map<string, Cell[]>] of buckets.  A bucket key is the
    string [`${gx},${gy}`]; it is kept as the pair [(gx, gy)] and two keys are
    the same when both components print the same.  A bucket holds references
    to cell objects, that is, indices into the array of cells: the position
    read through a reference is the cell's current one, not the one it had
    when it was inserted. *)

Module SpatialGrid.
Section Grid.
Context {num : Type} `{Number num}.
Local Open Scope num_scope.

Definition key_t : Type := num * num.

Record t : Type := mk {
  cells : list (key_t * list nat);
  cellSize : num;
}.

Definition new (cellSize : num) : t := mk [] cellSize.

Definition clear (g : t) : t := mk [] (cellSize g).

Definition key (g : t) (x y : num) : key_t :=
  let gx := nfloor (x / cellSize g) in
  let gy := nfloor (y / cellSize g) in
  (gx, gy).

Definition key_eqb (k1 k2 : key_t) : bool :=
  nsame k1.1 k2.1 && nsame k1.2 k2.2.

(** [this.cells.get(k)] *)
Fixpoint get (m : list (key_t * list nat)) (k : key_t) : option (list nat) :=
  match m with
  | [] => None
  | (k', bucket) :: m' => if key_eqb k' k then Some bucket else get m' k
  end.

(** The bucket under a key, empty when the map has none. *)
Definition bucketOf (m : list (key_t * list nat)) (k : key_t) : list nat :=
  default [] (get m k).

(** [if (bucket) bucket.push(cell); else this.cells.set(k, [cell])] *)
Fixpoint push (m : list (key_t * list nat)) (k : key_t) (i : nat)
  : list (key_t * list nat) :=
  match m with
  | [] => [(k, [i])]
  | (k', bucket) :: m' =>
      if key_eqb k' k then (k', bucket ++ [i]) :: m'
      else (k', bucket) :: push m' k i
  end.

(** [insert(cell)], for the cell object at index [i], whose fields are
    [cell] at the time of the call. *)
Definition insert (g : t) (i : nat) (cell : Cell.t num) : t :=
  let k := key g (Cell.x cell) (Cell.y cell) in
  mk (push (cells g) k i) (cellSize g).

(** [getNeighbors(cell)]: [store] is the array of cells the references
    point into; an identifier is read through them. *)
Definition getNeighbors (g : t) (store : list (Cell.t num)) (cell : Cell.t num)
  : list nat :=
  let gx := nfloor (Cell.x cell / cellSize g) in
  let gy := nfloor (Cell.y cell / cellSize g) in
  flat_map (λ dx : Z,
    flat_map (λ dy : Z,
      match get (cells g) (gx + of_Z dx, gy + of_Z dy) with
      | Some bucket =>
          List.filter (λ j,
            match store !! j with
            | Some other => negb (String.eqb (Cell.id other) (Cell.id cell))
            | None => false
            end) bucket
      | None => []
      end) [-1; 0; 1]%Z) [-1; 0; 1]%Z.

(** [grid.clear(); for (const cell of cells) grid.insert(cell)] *)
Definition rebuild (g : t) (store : list (Cell.t num)) : t :=
  fold_left (λ g ic, insert g ic.1 ic.2) (imap (λ i c, (i, c)) store) (clear g).
End Grid.
Arguments t : clear implicits.
Arguments key_t : clear implicits.
End SpatialGrid.

(** ** [stepPhysics] *)

Section Physics.
Context {num : Type} `{Number num}.
Local Open Scope num_scope.

Abbreviation cell := (Cell.t num).
Abbreviation organ := (Organ.t num).

(** [const grid = new SpatialGrid(PHYSICS.SPATIAL_CELL_SIZE)] *)
Definition grid : SpatialGrid.t num := SpatialGrid.new PHYSICS.SPATIAL_CELL_SIZE.

Definition CELL_WOBBLE_FACTOR : num := lit 1.25.
Definition ORGAN_OUTER_FACTOR : num := lit 1.15.
Definition ORGAN_INNER_FACTOR : num := lit 0.85.

(** *** Organs: recount, radius, gravity, repulsion (lines 64-114) *)

Definition recount (cells : list cell) (organs : StrMap.t organ) : StrMap.t organ :=
  let organs := StrMap.for_values (Organ.set_cellCount (of_Z 0)) organs in
  fold_left (λ organs c,
      StrMap.update (λ o, Organ.set_cellCount (Organ.cellCount o + of_Z 1) o)
                    (Cell.chain c) organs)
    cells organs.

Definition growRadius (o : organ) : organ :=
  Organ.set_radius
    (PHYSICS.ORGAN_BASE_RADIUS
     + PHYSICS.ORGAN_GROWTH_PER_CELL * nsqrt (Organ.cellCount o)) o.

Definition centroid (organList : list organ) : num * num :=
  let '(cx, cy) :=
    fold_left (λ '(cx, cy) o, (cx + Organ.x o, cy + Organ.y o))
              organList (of_Z 0, of_Z 0) in
  let n := of_Z (Z.of_nat (length organList)) in
  (cx / n, cy / n).

Definition pullOrgan (cappedDt cx cy : num) (o : organ) : organ :=
  let dx := cx - Organ.x o in
  let dy := cy - Organ.y o in
  let dist := nsqrt (dx * dx + dy * dy) + lit 0.01 in
  let pull := lit 0.4 * cappedDt * of_Z 60 in
  let o' := Organ.set_x (Organ.x o + (dx / dist) * nmin (dist * lit 0.02) pull) o in
  Organ.set_y (Organ.y o' + (dy / dist) * nmin (dist * lit 0.02) pull) o'.

Definition gravity (cappedDt : num) (organs : StrMap.t organ) : StrMap.t organ :=
  let '(cx, cy) := centroid (StrMap.values organs) in
  StrMap.for_values (pullOrgan cappedDt cx cy) organs.

(** The body of the double loop, for [a = organList[i]], [b = organList[j]]. *)
Definition repelOrgans (organs : StrMap.t organ) (ij : nat * nat) : StrMap.t organ :=
  match organs !! ij.1, organs !! ij.2 with
  | Some (ka, a), Some (kb, b) =>
      let dx := Organ.x a - Organ.x b in
      let dy := Organ.y a - Organ.y b in
      let dist := nsqrt (dx * dx + dy * dy) + lit 0.01 in
      let minDist :=
        Organ.radius a * ORGAN_OUTER_FACTOR + Organ.radius b * ORGAN_OUTER_FACTOR
        + of_Z 8 in
      if dist <? minDist then
        let overlap := minDist - dist in
        let nx := dx / dist in
        let ny := dy / dist in
        let a := Organ.set_x (Organ.x a + nx * overlap * lit 0.5) a in
        let a := Organ.set_y (Organ.y a + ny * overlap * lit 0.5) a in
        let b := Organ.set_x (Organ.x b - nx * overlap * lit 0.5) b in
        let b := Organ.set_y (Organ.y b - ny * overlap * lit 0.5) b in
        <[ij.2 := (kb, b)]> (<[ij.1 := (ka, a)]> organs)
      else organs
  | _, _ => organs
  end.

(** [for (i = 0; i < n; i++) for (j = i + 1; j < n; j++)] *)
Definition organPairs (n : nat) : list (nat * nat) :=
  flat_map (λ i, map (λ j, (i, j)) (seq (S i) (n - S i))) (seq 0 n).

Definition organRepulsion (organs : StrMap.t organ) : StrMap.t organ :=
  fold_left repelOrgans (organPairs (length organs)) organs.

Definition stepOrgans (cappedDt : num) (cells : list cell) (organs : StrMap.t organ)
  : StrMap.t organ :=
  let organs := recount cells organs in
  let organs := StrMap.for_values growRadius organs in
  let organs := gravity cappedDt organs in
  organRepulsion organs.

(** *** Cells, first pass (lines 122-206) *)

Definition containmentRadius (o : organ) (c : cell) : num :=
  nmax (of_Z 0)
       (Organ.radius o * ORGAN_INNER_FACTOR - Cell.radius c * CELL_WOBBLE_FACTOR).

(** 1. Containment: hard clamp and kill of the outward velocity. *)
Definition clamp1 (o : organ) (containmentRadius dxo dyo distOrgan : num) (c : cell)
  : cell :=
  if distOrgan >? containmentRadius then
    let nx := dxo / distOrgan in
    let ny := dyo / distOrgan in
    let c := Cell.set_x (Organ.x o + nx * containmentRadius) c in
    let c := Cell.set_y (Organ.y o + ny * containmentRadius) c in
    let vDot := Cell.vx c * nx + Cell.vy c * ny in
    if vDot >? of_Z 0 then
      let c := Cell.set_vx (Cell.vx c - nx * vDot) c in
      Cell.set_vy (Cell.vy c - ny * vDot) c
    else c
  else c.

(** The gentle inward pull. *)
Definition inwardPull (cappedDt containmentRadius dxo dyo distOrgan : num) (c : cell)
  : cell :=
  let pullStrength := lit 0.05 * (distOrgan / (containmentRadius + lit 0.01)) in
  let c := Cell.set_vx
             (Cell.vx c + (- dxo / distOrgan) * pullStrength * cappedDt * of_Z 60) c in
  Cell.set_vy
    (Cell.vy c + (- dyo / distOrgan) * pullStrength * cappedDt * of_Z 60) c.

(** 2. The body of the neighbour loop of the first pass. *)
Definition repel1 (c other : cell) : cell :=
  let dx := Cell.x c - Cell.x other in
  let dy := Cell.y c - Cell.y other in
  let dist := nsqrt (dx * dx + dy * dy) + lit 0.01 in
  let minDist :=
    Cell.radius c * CELL_WOBBLE_FACTOR + Cell.radius other * CELL_WOBBLE_FACTOR
    + of_Z 2 in
  if dist <? minDist then
    let overlap := minDist - dist in
    let nx := dx / dist in
    let ny := dy / dist in
    let c := Cell.set_x (Cell.x c + nx * overlap * lit 0.6) c in
    let c := Cell.set_y (Cell.y c + ny * overlap * lit 0.6) c in
    let c := Cell.set_vx (Cell.vx c + nx * overlap * lit 0.3) c in
    Cell.set_vy (Cell.vy c + ny * overlap * lit 0.3) c
  else c.

(** [for (const other of neighbors) body(cell, other)]: [other] is read
    through its reference. *)
Definition forNeighbors (body : cell → cell → cell) (store : list cell)
    (neighbors : list nat) (c : cell) : cell :=
  fold_left (λ c j, match store !! j with
                    | Some other => body c other
                    | None => c
                    end) neighbors c.

(** 3. Brownian noise, with the two draws [r1], [r2] of [Math.random()]. *)
Definition brownian (r1 r2 : num) (c : cell) : cell :=
  let c := Cell.set_vx (Cell.vx c + (r1 - lit 0.5) * PHYSICS.BROWNIAN_STRENGTH) c in
  Cell.set_vy (Cell.vy c + (r2 - lit 0.5) * PHYSICS.BROWNIAN_STRENGTH) c.

(** 4. Damping. *)
Definition damp (c : cell) : cell :=
  let c := Cell.set_vx (Cell.vx c * PHYSICS.DAMPING) c in
  Cell.set_vy (Cell.vy c * PHYSICS.DAMPING) c.

(** 5. Integrate position. *)
Definition integrate (cappedDt : num) (c : cell) : cell :=
  let c := Cell.set_x (Cell.x c + Cell.vx c * cappedDt * of_Z 60) c in
  Cell.set_y (Cell.y c + Cell.vy c * cappedDt * of_Z 60) c.

(** 6. Hard clamp again after integration. *)
Definition clamp2 (o : organ) (containmentRadius : num) (c : cell) : cell :=
  let dxo2 := Cell.x c - Organ.x o in
  let dyo2 := Cell.y c - Organ.y o in
  let distOrgan2 := nsqrt (dxo2 * dxo2 + dyo2 * dyo2) in
  if distOrgan2 >? containmentRadius then
    let nx := dxo2 / (distOrgan2 + lit 0.01) in
    let ny := dyo2 / (distOrgan2 + lit 0.01) in
    let c := Cell.set_x (Organ.x o + nx * containmentRadius) c in
    Cell.set_y (Organ.y o + ny * containmentRadius) c
  else c.

(** 7. Smooth radius toward target. *)
Definition easeRadius (c : cell) : cell :=
  Cell.set_radius
    (Cell.radius c + (Cell.targetRadius c - Cell.radius c) * lit 0.05) c.

(** 8. Advance wobble phase. *)
Definition advanceWobble (cappedDt : num) (c : cell) : cell :=
  Cell.set_wobblePhase (Cell.wobblePhase c + Cell.wobbleSpeed c * cappedDt) c.

(** Steps 1 to 6 of the body of the first loop over the cells, for a cell
    that has an organ: everything that moves the cell. *)
Definition moveCell (cappedDt : num) (o : organ) (g : SpatialGrid.t num)
    (store : list cell) (r1 r2 : num) (c : cell) : cell :=
  let containmentRadius := containmentRadius o c in
  let dxo := Cell.x c - Organ.x o in
  let dyo := Cell.y c - Organ.y o in
  let distOrgan := nsqrt (dxo * dxo + dyo * dyo) + lit 0.01 in
  let c := clamp1 o containmentRadius dxo dyo distOrgan c in
  let c := inwardPull cappedDt containmentRadius dxo dyo distOrgan c in
  let neighbors := SpatialGrid.getNeighbors g store c in
  let c := forNeighbors repel1 store neighbors c in
  let c := brownian r1 r2 c in
  let c := damp c in
  let c := integrate cappedDt c in
  clamp2 o containmentRadius c.

(** The whole body: steps 1 to 6, then 7 and 8. *)
Definition updateCell (cappedDt : num) (o : organ) (g : SpatialGrid.t num)
    (store : list cell) (r1 r2 : num) (c : cell) : cell :=
  let c := moveCell cappedDt o g store r1 r2 c in
  let c := easeRadius c in
  advanceWobble cappedDt c.

(** The state of the first loop: the cells and the number of draws of
    [Math.random()] made so far; [random k] is the [k]-th draw of the
    step. *)
Definition stepCell (random : nat → num) (cappedDt : num)
    (organs : StrMap.t organ) (g : SpatialGrid.t num)
    (st : list cell * nat) (i : nat) : list cell * nat :=
  let '(store, k) := st in
  match store !! i with
  | None => st
  | Some c =>
      match StrMap.get organs (Cell.chain c) with
      | None => st                            (* [if (!organ) continue] *)
      | Some o =>
          (<[i := updateCell cappedDt o g store (random k) (random (S k)) c]> store,
           S (S k))
      end
  end.

Definition firstPass (random : nat → num) (cappedDt : num)
    (organs : StrMap.t organ) (store : list cell) : list cell :=
  let g := SpatialGrid.rebuild grid store in
  (fold_left (stepCell random cappedDt organs g) (seq 0 (length store)) (store, 0%nat)).1.

(** *** Cells, second pass (lines 208-228) *)

Definition repel2 (c other : cell) : cell :=
  let dx := Cell.x c - Cell.x other in
  let dy := Cell.y c - Cell.y other in
  let dist := nsqrt (dx * dx + dy * dy) + lit 0.01 in
  let minDist :=
    Cell.radius c * CELL_WOBBLE_FACTOR + Cell.radius other * CELL_WOBBLE_FACTOR
    + of_Z 2 in
  if dist <? minDist then
    let overlap := minDist - dist in
    let nx := dx / dist in
    let ny := dy / dist in
    let c := Cell.set_x (Cell.x c + nx * overlap * lit 0.55) c in
    Cell.set_y (Cell.y c + ny * overlap * lit 0.55) c
  else c.

Definition declutterCell (g : SpatialGrid.t num) (store : list cell) (i : nat)
  : list cell :=
  match store !! i with
  | None => store
  | Some c =>
      let neighbors := SpatialGrid.getNeighbors g store c in
      <[i := forNeighbors repel2 store neighbors c]> store
  end.

Definition secondPass (store : list cell) : list cell :=
  let g := SpatialGrid.rebuild grid store in
  fold_left (declutterCell g) (seq 0 (length store)) store.

(** *** The step *)

Definition stepPhysics (random : nat → num)
    (cells : list cell) (organs : StrMap.t organ) (dt : num)
  : list cell * StrMap.t organ :=
  let cappedDt := nmin dt (lit 0.033) in
  let organs := stepOrgans cappedDt cells organs in
  let cells := firstPass random cappedDt organs cells in
  let cells := secondPass cells in
  (cells, organs).

End Physics.

(** ** [liquidityToRadius] and [volumeToRadiusMultiplier]

    [Math.log10] has no binary64 counterpart here, so the two helpers are
    given over the reals.  The argument is [None] when it is absent
    ([undefined]) or NaN, the two values besides [0] for which [!liquidity]
    holds. *)

Module RadiusMapping.
Local Open Scope R_scope.

Definition log10 (x : R) : R := ln x / ln 10.

Definition falsy (x : R) : bool := RealOps.eqb x 0.
Definition leb (a b : R) : bool := if Rle_dec a b then true else false.

Definition liquidityToRadius (liquidity : option R) : R :=
  match liquidity with
  | None => PHYSICS.DEFAULT_CELL_RADIUS
  | Some liquidity =>
      if falsy liquidity || leb liquidity 0 then PHYSICS.DEFAULT_CELL_RADIUS
      else
        let log := log10 (Rmax liquidity 1) in
        let normalized := (log - 2) / 5 in
        let clamped := Rmax 0 (Rmin 1 normalized) in
        PHYSICS.MIN_CELL_RADIUS
        + clamped * (PHYSICS.MAX_CELL_RADIUS - PHYSICS.MIN_CELL_RADIUS)
  end.

Definition volumeToRadiusMultiplier (volumeUsd : option R) : R :=
  match volumeUsd with
  | None => 1
  | Some volumeUsd =>
      if falsy volumeUsd || leb volumeUsd 0 then 1
      else
        let log := log10 (Rmax volumeUsd 1) in
        let normalized := (log - 3) / 3 in
        let clamped := Rmax 0 (Rmin 1 normalized) in
        1 + clamped
  end.

End RadiusMapping.

(** ** Exact reals with an undefined value

    [None] is the result of a division by zero or of the square root of a
    negative number, and of every operation that is given it; a comparison
    with it is false, and it prints as itself.  This is NaN without rounding
    and without overflow, and it makes a division by zero visible in
    whatever is computed from it. *)

Module RealNaN.

Definition lift1 (f : R → R) (a : option R) : option R :=
  match a with Some x => Some (f x) | None => None end.

Definition lift2 (f : R → R → R) (a b : option R) : option R :=
  match a, b with Some x, Some y => Some (f x y) | _, _ => None end.

Definition div (a b : option R) : option R :=
  match a, b with
  | Some x, Some y => if Req_dec_T y 0 then None else Some (x / y)%R
  | _, _ => None
  end.

Definition sqrt (a : option R) : option R :=
  match a with
  | Some x => if Rlt_dec x 0 then None else Some (R_sqrt.sqrt x)
  | None => None
  end.

Definition ltb (a b : option R) : bool :=
  match a, b with Some x, Some y => RealOps.ltb x y | _, _ => false end.

Definition same (a b : option R) : bool :=
  match a, b with
  | Some x, Some y => RealOps.eqb x y
  | None, None => true
  | _, _ => false
  end.

End RealNaN.

#[export] Instance Checked : Number (option R) := {|
  of_Z z := Some (IZR z);
  nopp := RealNaN.lift1 Ropp;
  nadd := RealNaN.lift2 Rplus;
  nsub := RealNaN.lift2 Rminus;
  nmul := RealNaN.lift2 Rmult;
  ndiv := RealNaN.div;
  nsqrt := RealNaN.sqrt;
  nfloor := RealNaN.lift1 RealOps.floor;
  nmin := RealNaN.lift2 Rmin;
  nmax := RealNaN.lift2 Rmax;
  nlt := RealNaN.ltb;
  nsame := RealNaN.same;
|}.

(** ** Vocabulary of the statements *)

Section Vocabulary.
Context {num : Type} `{Number num}.
Local Open Scope num_scope.

(** The number of cells whose [chain] is the key [k]. *)
Definition memberCount (k : string) (cells : list (Cell.t num)) : nat :=
  length (List.filter (λ c, String.eqb (Cell.chain c) k) cells).

(** [n] as a number: [0] incremented [n] times. *)
Definition count_up (n : nat) : num := Nat.iter n (λ a, a + of_Z 1) (of_Z 0).

(** The distance from the centre of an organ to the centre of a cell. *)
Definition distanceTo (o : Organ.t num) (c : Cell.t num) : num :=
  let dx := Cell.x c - Organ.x o in
  let dy := Cell.y c - Organ.y o in
  nsqrt (dx * dx + dy * dy).

(** A cell with an organ is farther from it than its containment radius
    plus [slack]. *)
Definition escapes (slack : num) (organs : StrMap.t (Organ.t num)) (c : Cell.t num)
  : bool :=
  match StrMap.get organs (Cell.chain c) with
  | Some o => containmentRadius o c + slack <? distanceTo o c
  | None => false
  end.

(** The [minDist] of the two repulsion loops: the distance plus epsilon
    under which a cell is pushed away from another. *)
Definition minDist (c other : Cell.t num) : num :=
  Cell.radius c * CELL_WOBBLE_FACTOR + Cell.radius other * CELL_WOBBLE_FACTOR
  + of_Z 2.

(** The distance between the centres of two cells. *)
Definition separation (a b : Cell.t num) : num :=
  let dx := Cell.x a - Cell.x b in
  let dy := Cell.y a - Cell.y b in
  nsqrt (dx * dx + dy * dy).

(** Successive frames, each with its own draws and its own [dt]. *)
Fixpoint steps (frames : list ((nat → num) * num))
    (cells : list (Cell.t num)) (organs : StrMap.t (Organ.t num))
  : list (Cell.t num) * StrMap.t (Organ.t num) :=
  match frames with
  | [] => (cells, organs)
  | (random, dt) :: frames =>
      let '(cells, organs) := stepPhysics random cells organs dt in
      steps frames cells organs
  end.

(** The numeric fields of a cell and of an organ. *)
Definition Cell_fields (c : Cell.t num) : list num :=
  [Cell.x c; Cell.y c; Cell.vx c; Cell.vy c; Cell.radius c; Cell.targetRadius c;
   Cell.wobblePhase c; Cell.wobbleSpeed c; Cell.born c; Cell.lastUpdate c;
   Cell.liquidity c].

Definition Organ_fields (o : Organ.t num) : list num :=
  [Organ.x o; Organ.y o; Organ.radius o; Organ.wobblePhase o; Organ.cellCount o].
End Vocabulary.

(** Concrete binary64 states. *)

Module Scenario.
Local Open Scope float_scope.
Local Open Scope string_scope.

Definition cellAt (id chain : string) (x y radius : float) : Cell.t float :=
  Cell.mk id chain id "A/B" x y 0 0 radius radius "#627EEA" 0 1 0 0 1000.

Definition organAt (chain : string) (x y : float) : Organ.t float :=
  Organ.mk chain chain "#627EEA" x y 40 0 0.

(** [Math.random()] always returning [0.5]: no noise. *)
Definition still : nat → float := λ _, 0.5.

Definition eth : StrMap.t (Organ.t float) := [("ETH", organAt "ETH" 0 0)].

(** Two large cells of one organ, overlapping, near its boundary. *)
Definition crowded : list (Cell.t float) :=
  [cellAt "ETH-a" "ETH" 30 0 20; cellAt "ETH-b" "ETH" 29 0 20].

(** Two cells of one organ at exactly the same coordinates. *)
Definition coincident : list (Cell.t float) :=
  [cellAt "ETH-a" "ETH" 3 4 5; cellAt "ETH-b" "ETH" 3 4 5].

(** A cell very far away, all of its fields finite. *)
Definition faraway : list (Cell.t float) := [cellAt "ETH-a" "ETH" 1e200 0 4].

(** Draws of [Math.random()] that differ from call to call. *)
Definition jitter : nat → float :=
  λ k, match k with 0%nat => 0.125 | 1%nat => 0.875 | 2%nat => 0.75 | _ => 0.25 end.

Definition has_nan (c : Cell.t float) : bool :=
  existsb PrimFloat.is_nan (Cell_fields c).

Definition all_finite (c : Cell.t float) : bool :=
  forallb Float64.is_finite (Cell_fields c).

Definition position (c : Cell.t float) : float * float := (Cell.x c, Cell.y c).
End Scenario.


(** The bucket of a cell as a pair of integers, and the 3x3 block of buckets
    around the bucket of a cell [q]. *)

Definition bucket (cellSize : R) (c : Cell.t R) : Z * Z :=
  (Zfloor (Cell.x c / cellSize), Zfloor (Cell.y c / cellSize)).

Definition inBlock (cellSize : R) (q c : Cell.t R) : Prop :=
  (Z.abs ((bucket cellSize c).1 - (bucket cellSize q).1) ≤ 1
   ∧ Z.abs ((bucket cellSize c).2 - (bucket cellSize q).2) ≤ 1)%Z.

(** Concrete states over the reals. *)

Module Ideal.
Local Open Scope R_scope.
Local Open Scope string_scope.

Definition cellAt (id chain : string) (x y radius targetRadius : R) : Cell.t R :=
  Cell.mk id chain id "A/B" x y 0 0 radius targetRadius "#627EEA" 0 1 0 0 1000.

Definition organAt (chain : string) (x y : R) : Organ.t R :=
  Organ.mk chain chain "#627EEA" x y 40 0 0.

Definition still : nat → R := λ _, 0.5.

Definition organs : StrMap.t (Organ.t R) :=
  [("ETH", organAt "ETH" 0 0); ("BASE", organAt "BASE" 200 0)].

Definition cells : list (Cell.t R) :=
  [cellAt "ETH-a" "ETH" 3 4 2 10; cellAt "ETH-b" "ETH" (-20) 5 7 7;
   cellAt "BASE-c" "BASE" 210 0 4 12].

End Ideal.

(** ** Definedness, for the reals with an undefined value *)

Definition cell_defined (c : Cell.t (option R)) : Prop :=
  Forall is_Some (Cell_fields c).

Definition organ_defined (o : Organ.t (option R)) : Prop :=
  Forall is_Some (Organ_fields o).

Definition positive (a : option R) : Prop := ∃ r : R, a = Some r ∧ (0 < r)%R.

Definition nonnegative (a : option R) : Prop := ∃ r : R, a = Some r ∧ (0 <= r)%R.

(** An organ after the recount: defined, with a count that has a square
    root. *)
Definition organ_counted (o : Organ.t (option R)) : Prop :=
  organ_defined o ∧ nonnegative (Organ.cellCount o).

(** The degenerate state: two organs at one point and two cells of radius 5
    at that point, the centre of their organ. *)

Module Degenerate.
Local Open Scope string_scope.

Definition cellAt (id chain : string) (x y radius : R) : Cell.t (option R) :=
  Cell.mk id chain id "A/B" (Some x) (Some y) (Some 0%R) (Some 0%R) (Some radius)
    (Some radius) "#627EEA" (Some 0%R) (Some 1%R) (Some 0%R) (Some 0%R) (Some 1000%R).

Definition organAt (chain : string) (x y : R) : Organ.t (option R) :=
  Organ.mk chain chain "#627EEA" (Some x) (Some y) (Some 40%R) (Some 0%R) (Some 0%R).

Definition still : nat → option R := λ _, Some 0.5%R.

Definition organs : StrMap.t (Organ.t (option R)) :=
  [("ETH", organAt "ETH" 0 0); ("BASE", organAt "BASE" 0 0)].

Definition cells : list (Cell.t (option R)) :=
  [cellAt "ETH-a" "ETH" 0 0 5; cellAt "ETH-b" "ETH" 0 0 5].

End Degenerate.

(** * The rest of the application

    The chain table and the name normalisation of [constants.ts], the
    handlers of the component [Visualizer], and the geometry of the
    renderer.  [Math.cos], [Math.sin] and [Math.log10] have no binary64
    counterpart here: these parts are given over the reals. *)

(** ** Strings

    A string is a sequence of 8-bit characters; [toUpperCase] and
    [toLowerCase] map the letters [a-z] and [A-Z], which is what they do on
    a string of ASCII characters. *)

Module JsString.

Definition is_lower (a : ascii) : bool :=
  let n := N_of_ascii a in (97 <=? n)%N && (n <=? 122)%N.
Definition is_upper (a : ascii) : bool :=
  let n := N_of_ascii a in (65 <=? n)%N && (n <=? 90)%N.

Definition upper (a : ascii) : ascii :=
  if is_lower a then ascii_of_N (N_of_ascii a - 32) else a.
Definition lower (a : ascii) : ascii :=
  if is_upper a then ascii_of_N (N_of_ascii a + 32) else a.

Fixpoint map (f : ascii → ascii) (s : string) : string :=
  match s with
  | EmptyString => EmptyString
  | String a s => String (f a) (map f s)
  end.

Definition toUpperCase : string → string := map upper.
Definition toLowerCase : string → string := map lower.

(** [s.replace(/a/g, b)] for two characters [a] and [b]. *)
Definition replaceAll (a b : ascii) : string → string :=
  map (λ c, if Ascii.eqb c a then b else c).

End JsString.

(** ** The chains of [constants.ts] *)

Module ChainConfig.
Record t : Type := mk {
  name : string;
  displayName : string;
  color : string;
  protocols : list string;
}.
End ChainConfig.

Section Chains.
Local Open Scope string_scope.

Definition CHAINS : list ChainConfig.t := [
  ChainConfig.mk "ETH_MAINNET" "ETHEREUM" "#627EEA"
    ["UNISWAP_V2"; "UNISWAP_V3"; "SUSHISWAP_V2"];
  ChainConfig.mk "BASE_MAINNET" "BASE" "#0052FF"
    ["UNISWAP_V2"; "UNISWAP_V3"; "VIRTUALS_V2"];
  ChainConfig.mk "BSC_MAINNET" "BSC" "#F0B90B"
    ["PANCAKESWAP_V2"; "PANCAKESWAP_V3"];
  ChainConfig.mk "POLYGON_MAINNET" "POLYGON" "#8247E5"
    ["UNISWAP_V2"; "UNISWAP_V3"; "QUICKSWAP_V2"; "QUICKSWAP_V3"];
  ChainConfig.mk "SOLANA_MAINNET" "SOLANA" "#14F195"
    ["RAYDIUM_AMM"; "RAYDIUM_CLMM"; "RAYDIUM_CPMM"; "RAYDIUM_LAUNCH_LAB";
     "PUMP_FUN_AMM"; "MOONSHOT"; "METEORA_DAMM"; "METEORA_DLMM"; "METEORA_DBC"];
  ChainConfig.mk "SONIC_MAINNET" "SONIC" "#5B6EF5" ["SHADOW_V2"; "SHADOW_V3"];
  ChainConfig.mk "MONAD_MAINNET" "MONAD" "#836EF9" ["UNISWAP_V2"; "UNISWAP_V3"];
  ChainConfig.mk "HYPERCORE_MAINNET" "HYPERCORE" "#77FF33" ["UNISWAP_V2"; "UNISWAP_V3"];
  ChainConfig.mk "HYPEREVM_MAINNET" "HYPEREVM" "#FF5733" ["UNISWAP_V2"; "UNISWAP_V3"];
  ChainConfig.mk "MEGAETH_MAINNET" "MEGAETH" "#00D4AA" ["UNISWAP_V2"; "UNISWAP_V3"]
].

(** [new Map(CHAINS.map((c) => [c.name, c]))] *)
Definition CHAIN_MAP : StrMap.t ChainConfig.t :=
  fold_left (λ m c, StrMap.set m (ChainConfig.name c) c) CHAINS [].

(** The loop of lines 82-90. *)
Definition CHAIN_NAME_VARIANTS : StrMap.t string :=
  fold_left (λ m chain,
      let canonical := ChainConfig.name chain in
      let m := StrMap.set m canonical canonical in
      let m := StrMap.set m (JsString.toLowerCase canonical) canonical in
      StrMap.set m (JsString.replaceAll "_" "-" (JsString.toLowerCase canonical))
                 canonical)
    CHAINS [].

(** [a ?? b ?? c]: a lookup that misses is [undefined]. *)
Definition normalizeChainName (raw : string) : string :=
  match StrMap.get CHAIN_NAME_VARIANTS raw with
  | Some canonical => canonical
  | None =>
      match StrMap.get CHAIN_NAME_VARIANTS (JsString.toLowerCase raw) with
      | Some canonical => canonical
      | None => JsString.replaceAll "-" "_" (JsString.toUpperCase raw)
      end
  end.
End Chains.

(** ** The events of [types.ts] *)

Module StreamEvent.

(** ["new-pair" | "pair-update"] *)
Inductive kind : Type := new_pair | pair_update.

Record t : Type := mk {
  type : kind;
  chain : string;
  pairAddress : string;
  baseToken : option string;
  quoteToken : option string;
  baseTicker : option string;
  quoteTicker : option string;
  liquidity : option R;
  volumeUsd : option R;
  protocol : option string;
  timestamp : R;
}.

End StreamEvent.

(** ** The component [Visualizer]

    The handlers of the component, over exact reals.  Each handler runs to
    completion; [random k] and [now k] are the [k]-th results of
    [Math.random()] and of [Date.now()] during the call.  The cells are the
    array [cellsRef.current], the organs the map [organsRef.current]. *)

Module Visualizer.
Section Handlers.
Local Open Scope R_scope.

(** *** [initOrgans] *)

Record Placed : Type := mkPlaced { px : R; py : R; pr : R }.

(** The test of the loop over [placed], which stops at the first overlap. *)
Definition overlaps (placed : list Placed) (r tx ty : R) : bool :=
  existsb (λ p,
      let dx := tx - px p in
      let dy := ty - py p in
      let d := R_sqrt.sqrt (dx * dx + dy * dy) in
      RealOps.ltb d (pr p * 1.15 + r * 1.15 + 10)) placed.

(** [placed[Math.floor(x)]], [None] when there is no such element. *)
Definition at_floor {A : Type} (l : list A) (x : R) : option A :=
  if (Zfloor x <? 0)%Z then None else l !! Z.to_nat (Zfloor x).

(** The loop [for (attempt = 0; attempt < 100 && !found; attempt++)], with
    [n] attempts left and [k] draws made: the position found, or the centre
    when every attempt overlapped, and the number of draws made.  [None] is
    the TypeError of reading [parent.r] when [parent] is [undefined]. *)
Fixpoint attempts (random : nat → R) (n : nat) (placed : list Placed)
    (r cx cy : R) (k : nat) : option (R * R * nat) :=
  match n with
  | O => Some (cx, cy, k)
  | S n =>
      match at_floor placed (random k * INR (length placed)) with
      | None => None
      | Some parent =>
          let angle := random (S k) * PI * 2 in
          let wobbleFactor := 1.15 in
          let dist := pr parent * wobbleFactor + r * wobbleFactor + 10 in
          let tx := px parent + cos angle * dist in
          let ty := py parent + sin angle * dist in
          if overlaps placed r tx ty
          then attempts random n placed r cx cy (S (S k))
          else Some (tx, ty, S (S k))
      end
  end.

(** The callback of [CHAINS.forEach], on the state [placed], [organs] and
    the number of draws made. *)
Definition placeChain (random : nat → R) (cx cy : R)
    (st : list Placed * StrMap.t (Organ.t R) * nat) (i : nat) (chain : ChainConfig.t)
  : option (list Placed * StrMap.t (Organ.t R) * nat) :=
  let '(placed, organs, k) := st in
  let r : R := PHYSICS.ORGAN_BASE_RADIUS in
  let spot :=
    if (i =? 0)%nat then Some (cx, cy, k)
    else attempts random 100 placed r cx cy k in
  match spot with
  | None => None
  | Some (ox, oy, k) =>
      Some (placed ++ [mkPlaced ox oy r],
            StrMap.set organs (ChainConfig.name chain)
              (Organ.mk (ChainConfig.name chain) (ChainConfig.displayName chain)
                 (ChainConfig.color chain) ox oy r (random k * PI * 2) 0),
            S k)
  end.

Definition initOrgans (random : nat → R) (width height : R)
  : option (StrMap.t (Organ.t R)) :=
  let cx := width / 2 in
  let cy := height / 2 in
  let final :=
    fold_left (λ st ic,
        match st with
        | Some st => placeChain random cx cy st ic.1 ic.2
        | None => None
        end)
      (imap (λ i c, (i, c)) CHAINS) (Some ([], [], 0%nat)) in
  match final with
  | Some (_, organs, _) => Some organs
  | None => None
  end.

(** *** [handleEvent] *)

(** [cells.filter((c) => c.chain === chain)], each cell with its index in
    [cells]: the objects of the result are those of [cells]. *)
Definition chainCells (cells : list (Cell.t R)) (chain : string)
  : list (nat * Cell.t R) :=
  List.filter (λ ic, String.eqb (Cell.chain ic.2) chain) (imap (λ i c, (i, c)) cells).

(** [chainCells.reduce((a, b) => a.born < b.born ? a : b)]: [None] is the
    TypeError on an empty array. *)
Definition oldest (chainCells : list (nat * Cell.t R)) : option (nat * Cell.t R) :=
  match chainCells with
  | [] => None
  | a :: rest =>
      Some (fold_left (λ a b, if RealOps.ltb (Cell.born a.2) (Cell.born b.2) then a else b)
                      rest a)
  end.

(** Lines 328-334: [indexOf] finds the object where it is. *)
Definition evict (cells : list (Cell.t R)) (chain : string) : list (Cell.t R) :=
  let chainCells := chainCells cells chain in
  if RadiusMapping.leb PHYSICS.MAX_CELLS_PER_CHAIN (INR (length chainCells)) then
    match oldest chainCells with
    | Some (idx, _) => delete idx cells
    | None => cells
    end
  else cells.

(** The object literal of lines 340-357. *)
Definition newCell (random now : nat → R) (chainConfig : ChainConfig.t)
    (organ : Organ.t R) (event : StreamEvent.t) : Cell.t R :=
  let radius :=
    RadiusMapping.liquidityToRadius (Some (default 0 (StreamEvent.liquidity event))) in
  let angle := random 0%nat * PI * 2 in
  let dist := random 1%nat * Organ.radius organ * 0.6 in
  Cell.mk
    (StreamEvent.chain event ++ "-" ++ StreamEvent.pairAddress event)%string
    (StreamEvent.chain event)
    (StreamEvent.pairAddress event)
    (default "?" (StreamEvent.baseTicker event) ++ "/"
       ++ default "?" (StreamEvent.quoteTicker event))%string
    (Organ.x organ + cos angle * dist)
    (Organ.y organ + sin angle * dist)
    ((random 2%nat - 0.5) * 2)
    ((random 3%nat - 0.5) * 2)
    2
    radius
    (ChainConfig.color chainConfig)
    (random 4%nat * PI * 2)
    (PHYSICS.MIN_CELL_RADIUS / radius + random 5%nat * 0.3)
    (now 0%nat)
    (now 1%nat)
    (default 0 (StreamEvent.liquidity event)).

(** The three assignments of lines 366-371. *)
Definition retarget (now : nat → R) (event : StreamEvent.t) (cell : Cell.t R)
  : Cell.t R :=
  let baseRadius :=
    RadiusMapping.liquidityToRadius (Some (default 0 (StreamEvent.liquidity event))) in
  let multiplier :=
    RadiusMapping.volumeToRadiusMultiplier
      (Some (default 0 (StreamEvent.volumeUsd event))) in
  Cell.mk (Cell.id cell) (Cell.chain cell) (Cell.pairAddress cell) (Cell.label cell)
    (Cell.x cell) (Cell.y cell) (Cell.vx cell) (Cell.vy cell) (Cell.radius cell)
    (Rmin PHYSICS.MAX_CELL_RADIUS (baseRadius * multiplier))
    (Cell.color cell) (Cell.wobblePhase cell) (Cell.wobbleSpeed cell)
    (Cell.born cell)
    (now 0%nat)
    (default (Cell.liquidity cell) (StreamEvent.liquidity event)).

(** [cells.find((c) => c.pairAddress === pairAddress)], with its index. *)
Definition findPair (cells : list (Cell.t R)) (pairAddress : string)
  : option (nat * Cell.t R) :=
  List.find (λ ic, String.eqb (Cell.pairAddress ic.2) pairAddress)
            (imap (λ i c, (i, c)) cells).

Definition handleEvent (random now : nat → R) (cells : list (Cell.t R))
    (organs : StrMap.t (Organ.t R)) (event : StreamEvent.t) : list (Cell.t R) :=
  match StrMap.get CHAIN_MAP (StreamEvent.chain event) with
  | None => cells
  | Some chainConfig =>
      match StreamEvent.type event with
      | StreamEvent.new_pair =>
          if existsb (λ c, String.eqb (Cell.pairAddress c) (StreamEvent.pairAddress event))
                     cells
          then cells
          else
            match StrMap.get organs (StreamEvent.chain event) with
            | None => cells
            | Some organ =>
                let cells := evict cells (StreamEvent.chain event) in
                cells ++ [newCell random now chainConfig organ event]
            end
      | StreamEvent.pair_update =>
          match findPair cells (StreamEvent.pairAddress event) with
          | None => cells
          | Some (i, cell) => <[i := retarget now event cell]> cells
          end
      end
  end.

(** *** The state of the component and its handlers *)

Record state : Type := mkState {
  cells : list (Cell.t R);          (* [cellsRef.current] *)
  organs : StrMap.t (Organ.t R);    (* [organsRef.current] *)
  lastTime : R;                     (* [lastTimeRef.current] *)
}.

Definition initial : state := mkState [] [] 0.

(** [animate(time)], when the canvas and its context are there. *)
Definition animate (random : nat → R) (time : R) (st : state) : state :=
  let dt := if RadiusMapping.falsy (lastTime st) then 0.016
            else (time - lastTime st) / 1000 in
  let '(cells, organs) := stepPhysics random (cells st) (organs st) dt in
  mkState cells organs time.

(** What the browser delivers: a resize of the window, an animation frame,
    a message of the event stream. *)
Inductive input : Type :=
| Resize (random : nat → R) (width height : R)
| Frame (random : nat → R) (time : R)
| Message (random now : nat → R) (event : StreamEvent.t).

Definition step (st : state) (i : input) : state :=
  match i with
  | Resize random width height =>
      match initOrgans random width height with
      | Some organs => mkState (cells st) organs (lastTime st)
      | None => st
      end
  | Frame random time => animate random time st
  | Message random now event =>
      mkState (handleEvent random now (cells st) (organs st) event)
              (organs st) (lastTime st)
  end.

Definition run (inputs : list input) : state := fold_left step inputs initial.

End Handlers.
End Visualizer.


Module Camera.
Record t : Type := mk {
  x : R;
  y : R;
  zoom : R;
  dragging : bool;
  dragStartX : R;
  dragStartY : R;
  camStartX : R;
  camStartY : R;
}.
End Camera.

(** ** The pointer handlers of [Visualizer]

    [w] and [h] are [logicalSizeRef.current]; a handler returns the camera
    it leaves. *)

Module Pointer.
Section Handlers.
Local Open Scope R_scope.

(** [cameraRef] as the component creates it. *)
Definition initial : Camera.t := Camera.mk 0 0 1 false 0 0 0 0.

(** The world coordinates under a point of the window (lines 509-510 and
    563-564). *)
Definition toWorld (cam : Camera.t) (w h clientX clientY : R) : R * R :=
  (Camera.x cam + w / 2 + (clientX - w / 2) / Camera.zoom cam,
   Camera.y cam + h / 2 + (clientY - h / 2) / Camera.zoom cam).

Definition onMouseDown (cam : Camera.t) (clientX clientY : R) : Camera.t :=
  Camera.mk (Camera.x cam) (Camera.y cam) (Camera.zoom cam) true
    clientX clientY (Camera.x cam) (Camera.y cam).

Definition onMouseMove (cam : Camera.t) (clientX clientY : R) : Camera.t :=
  if Camera.dragging cam then
    Camera.mk (Camera.camStartX cam - (clientX - Camera.dragStartX cam))
              (Camera.camStartY cam - (clientY - Camera.dragStartY cam))
              (Camera.zoom cam) (Camera.dragging cam)
              (Camera.dragStartX cam) (Camera.dragStartY cam)
              (Camera.camStartX cam) (Camera.camStartY cam)
  else cam.

(** The loop of lines 512-522: the index of [closest] and [closestDist],
    [None] for [null] and [Infinity]. *)
Definition closestCell (cells : list (Cell.t R)) (worldX worldY : R)
  : option (nat * R) :=
  fold_left (λ closest ic,
      let cdx := Cell.x ic.2 - worldX in
      let cdy := Cell.y ic.2 - worldY in
      let d := R_sqrt.sqrt (cdx * cdx + cdy * cdy) in
      if RealOps.ltb d (Cell.radius ic.2 * 1.5)
         && match closest with
            | Some (_, closestDist) => RealOps.ltb d closestDist
            | None => true
            end
      then Some (ic.1, d) else closest)
    (imap (λ i c, (i, c)) cells) None.

(** [onMouseUp]: the camera, and what is assigned to [selectedCellRef], an
    index into [cells] or [null]; [None] when nothing is assigned. *)
Definition onMouseUp (cam : Camera.t) (cells : list (Cell.t R))
    (w h clientX clientY : R) : Camera.t * option (option nat) :=
  let dx := clientX - Camera.dragStartX cam in
  let dy := clientY - Camera.dragStartY cam in
  let wasDrag := RealOps.ltb 3 (Rabs dx) || RealOps.ltb 3 (Rabs dy) in
  let selected :=
    if wasDrag then None
    else
      let '(worldX, worldY) := toWorld cam w h clientX clientY in
      Some (fst <$> closestCell cells worldX worldY) in
  (Camera.mk (Camera.x cam) (Camera.y cam) (Camera.zoom cam) false
     (Camera.dragStartX cam) (Camera.dragStartY cam)
     (Camera.camStartX cam) (Camera.camStartY cam),
   selected).

Definition onWheel (cam : Camera.t) (w h deltaY clientX clientY : R) : Camera.t :=
  let zoomFactor := if RealOps.ltb 0 deltaY then 0.9 else 1.1 in
  let oldZoom := Camera.zoom cam in
  let newZoom := Rmax 0.2 (Rmin 5 (oldZoom * zoomFactor)) in
  let mouseX := clientX in
  let mouseY := clientY in
  let worldX := Camera.x cam + w / 2 + (mouseX - w / 2) / oldZoom in
  let worldY := Camera.y cam + h / 2 + (mouseY - h / 2) / oldZoom in
  Camera.mk (worldX - w / 2 - (mouseX - w / 2) / newZoom)
            (worldY - h / 2 - (mouseY - h / 2) / newZoom)
            newZoom (Camera.dragging cam)
            (Camera.dragStartX cam) (Camera.dragStartY cam)
            (Camera.camStartX cam) (Camera.camStartY cam).

End Handlers.
End Pointer.

(** ** The renderer

    Of [drawBlob], the points that its first loop computes: the canvas calls
    that follow draw a closed curve through them.  Of [render], the test
    that skips what is out of view.  [hexToRgb] whole. *)

Module Renderer.
Section Blob.
Local Open Scope R_scope.

(** [Math.max(24, Math.floor(radius * 2))] *)
Definition segments (radius : R) : nat := Z.to_nat (Z.max 24 (Zfloor (radius * 2))).

(** The inner loop, [for (h = 1; h <= harmonics; h++)]. *)
Definition outlineRadius (radius phase : R) (harmonics : nat) (amplitude angle : R)
  : R :=
  fold_left (λ r h,
      r + sin (angle * INR h + phase * (INR h * 0.7 + 1))
          * radius * amplitude * (1 / INR h))
    (seq 1 harmonics) radius.

Definition points (x y radius phase : R) (harmonics : nat) (amplitude : R)
  : list (R * R) :=
  let segments := segments radius in
  map (λ i,
      let angle := INR i / INR segments * PI * 2 in
      let r := outlineRadius radius phase harmonics amplitude angle in
      (x + cos angle * r, y + sin angle * r))
    (seq 0 segments).

End Blob.

Section Colours.
Local Open Scope N_scope.

(** A character of the class [[a-f\d]] under the flag [i], as the digit
    [parseInt(_, 16)] reads it. *)
Definition hexDigit (a : ascii) : option N :=
  let n := N_of_ascii a in
  if (48 <=? n) && (n <=? 57) then Some (n - 48)
  else if (97 <=? n) && (n <=? 102) then Some (n - 87)
  else if (65 <=? n) && (n <=? 70) then Some (n - 55)
  else None.

(** One group [([a-f\d]{2})], parsed. *)
Definition hexPair (a b : ascii) : option N :=
  match hexDigit a, hexDigit b with
  | Some h, Some l => Some (h * 16 + l)
  | _, _ => None
  end.

(** [/^#?([a-f\d]{2})([a-f\d]{2})([a-f\d]{2})$/i.exec(hex)], with the three
    groups parsed; [None] when the string does not match. *)
Definition hexGroups (hex : string) : option (N * N * N) :=
  let digits := match hex with String "#" rest => rest | _ => hex end in   (* [#?] *)
  match digits with
  | String r1 (String r2 (String g1 (String g2 (String b1 (String b2 EmptyString))))) =>
      match hexPair r1 r2, hexPair g1 g2, hexPair b1 b2 with
      | Some r, Some g, Some b => Some (r, g, b)
      | _, _, _ => None
      end
  | _ => None
  end.

Definition hexToRgb (hex : string) : N * N * N :=
  match hexGroups hex with
  | Some rgb => rgb
  | None => (100, 100, 100)
  end.
End Colours.

Section Culling.
Local Open Scope R_scope.

(** The test before [continue] in the two loops of [render], for a disc of
    radius [r] at [(x, y)]. *)
Definition culled (camera : Camera.t) (width height x y r : R) : bool :=
  let zoom := Camera.zoom camera in
  let pad := 100 / zoom in
  let vLeft := Camera.x camera + width / 2 - width / (2 * zoom) - pad in
  let vRight := Camera.x camera + width / 2 + width / (2 * zoom) + pad in
  let vTop := Camera.y camera + height / 2 - height / (2 * zoom) - pad in
  let vBottom := Camera.y camera + height / 2 + height / (2 * zoom) + pad in
  RealOps.ltb (x + r) vLeft || RealOps.ltb vRight (x - r)
  || RealOps.ltb (y + r) vTop || RealOps.ltb vBottom (y - r).

End Culling.
End Renderer.

(** ** Vocabulary of the further statements *)

Section Measures.
Context {num : Type} `{Number num}.
Local Open Scope num_scope.

(** The distance from a point to the centre of an organ. *)
Definition organDistance (p : num * num) (o : Organ.t num) : num :=
  let dx := p.1 - Organ.x o in
  let dy := p.2 - Organ.y o in
  nsqrt (dx * dx + dy * dy).

(** The distance between the centres of two organs. *)
Definition organShift (o o' : Organ.t num) : num :=
  organDistance (Organ.x o', Organ.y o') o.

(** The sum of a field over the organs of a map. *)
Definition total (f : Organ.t num → num) (organs : StrMap.t (Organ.t num)) : num :=
  fold_right (λ kv acc, f kv.2 + acc) (of_Z 0) organs.

(** All of a cell but its position. *)
Definition but_position (c : Cell.t num) :=
  (Cell.frame c, Cell.vx c, Cell.vy c, Cell.radius c, Cell.wobblePhase c).
End Measures.

(** The distance between two points, and from a point to the centre of a
    cell. *)
Definition pointDistance (p q : R * R) : R :=
  R_sqrt.sqrt ((p.1 - q.1) * (p.1 - q.1) + (p.2 - q.2) * (p.2 - q.2)).

Definition cellDistance (p : R * R) (c : Cell.t R) : R :=
  R_sqrt.sqrt ((Cell.x c - p.1) * (Cell.x c - p.1) + (Cell.y c - p.2) * (Cell.y c - p.2)).

(** A click at [p] hits the cell. *)
Definition hit (p : R * R) (c : Cell.t R) : Prop :=
  (cellDistance p c < Cell.radius c * 1.5)%R.

(** Pairs of an index and a cell, in the order of the indices. *)
Definition by_index (a b : nat * Cell.t R) : Prop := (a.1 < b.1)%nat.

(** All of a cell but what an update of its pair assigns. *)
Definition kept_by_update (c : Cell.t R) :=
  (Cell.id c, Cell.chain c, Cell.pairAddress c, Cell.label c, Cell.x c, Cell.y c,
   Cell.vx c, Cell.vy c, Cell.radius c, Cell.color c, Cell.wobblePhase c,
   Cell.wobbleSpeed c, Cell.born c).

(** A chain at its capacity, and two events for it. *)

Module Example.
Local Open Scope string_scope.

Definition pairNo (n : nat) : string :=
  String (ascii_of_nat (48 + n / 10)) (String (ascii_of_nat (48 + n mod 10)) "").

Definition pair (n : nat) : Cell.t R :=
  Cell.mk ("ETH_MAINNET-" ++ pairNo n) "ETH_MAINNET" (pairNo n) "A/B"
    0%R 0%R 0%R 0%R 4%R 4%R "#627EEA" 0%R 1%R (INR n) (INR n) 1000%R.

Definition full : list (Cell.t R) := pair <$> seq 0 80.

Definition ethereum : ChainConfig.t :=
  ChainConfig.mk "ETH_MAINNET" "ETHEREUM" "#627EEA"
    ["UNISWAP_V2"; "UNISWAP_V3"; "SUSHISWAP_V2"].

Definition organs : StrMap.t (Organ.t R) :=
  [("ETH_MAINNET", Ideal.organAt "ETH_MAINNET" 0 0)].

(** Two organs that overlap. *)
Definition close : StrMap.t (Organ.t R) :=
  [("ETH", Ideal.organAt "ETH" 0 0); ("BASE", Ideal.organAt "BASE" 30 0)].

(** A map without the organ of the cells of [Ideal.cells] on "ETH". *)
Definition baseOnly : StrMap.t (Organ.t R) := [("BASE", Ideal.organAt "BASE" 200 0)].

Definition arrival : StreamEvent.t :=
  StreamEvent.mk StreamEvent.new_pair "ETH_MAINNET" "new" None None
    (Some "WETH") (Some "USDC") (Some 50000%R) None None 0%R.

Definition update : StreamEvent.t :=
  StreamEvent.mk StreamEvent.pair_update "ETH_MAINNET" "07" None None
    None None (Some 50000%R) (Some 20000%R) None 0%R.
End Example.



(** No two strings of a list are equal. *)
Fixpoint distinct (l : list string) : bool :=
  match l with
  | [] => true
  | s :: l => negb (existsb (String.eqb s) l) && distinct l
  end.

(** An organ as [initOrgans] makes it for a chain, wherever it puts it. *)
Definition organ_of (chain : ChainConfig.t) (kv : string * Organ.t R) : Prop :=
  kv.1 = ChainConfig.name chain
  ∧ Organ.chain kv.2 = ChainConfig.name chain
  ∧ Organ.displayName kv.2 = ChainConfig.displayName chain
  ∧ Organ.color kv.2 = ChainConfig.color chain
  ∧ Organ.radius kv.2 = 40%R
  ∧ Organ.cellCount kv.2 = 0%R.

(** Every organ but the first is at the point [(cx, cy)] or at least 102
    away from each organ placed before it. *)
Definition spaced (cx cy : R) (organs : StrMap.t (Organ.t R)) : Prop :=
  ∀ a b oa ob, (a < b)%nat → organs.*2 !! a = Some oa → organs.*2 !! b = Some ob →
    (Organ.x ob = cx ∧ Organ.y ob = cy) ∨ (102 <= organShift oa ob)%R.

(** The circle [initOrgans] records in [placed] for an organ. *)
Definition toPlaced (kv : string * Organ.t R) : Visualizer.Placed :=
  Visualizer.mkPlaced (Organ.x kv.2) (Organ.y kv.2) 40.

(** A cell of a configured chain, in the colour of that chain. *)
Definition known_chain (c : Cell.t R) : Prop :=
  ∃ chain, chain ∈ CHAINS
           ∧ Cell.chain c = ChainConfig.name chain
           ∧ Cell.color c = ChainConfig.color chain.

(** What holds of the cells and organs of the component at all times. *)
Record consistent (st : Visualizer.state) : Prop := {
  unique_pairs : NoDup (Cell.pairAddress <$> Visualizer.cells st);
  ids_spelled :
    Forall (λ c, Cell.id c = (Cell.chain c ++ "-" ++ Cell.pairAddress c)%string)
           (Visualizer.cells st);
  chains_known : Forall known_chain (Visualizer.cells st);
  cells_owned :
    Forall (λ c, is_Some (StrMap.get (Visualizer.organs st) (Cell.chain c)))
           (Visualizer.cells st);
  chains_capped : ∀ k, (memberCount k (Visualizer.cells st) ≤ 80)%nat;
  radii_bounded :
    Forall (λ c, (4 <= Cell.targetRadius c <= 20 ∧ 2 <= Cell.radius c <= 20)%R)
           (Visualizer.cells st);
  organs_wf : StrMap.wf (Visualizer.organs st);
  organs_large : Forall (λ kv, (40 <= Organ.radius kv.2)%R) (Visualizer.organs st);
}.

(** A string without the character [-]. *)
Fixpoint hyphen_free (s : string) : bool :=
  match s with
  | EmptyString => true
  | String a s => negb (Ascii.eqb a "-") && hyphen_free s
  end.

(** * Properties *)

(** ** Loops over the indices of an array *)

Section Indexwise.
Context {A St : Type}.

(** A loop whose [i]-th iteration replaces the element at index [i] by one
    related to it by [Q] relates every element of the result to the element
    it started as. *)
Lemma fold_left_indexwise (Q : A → A → Prop)
    (step : list A * St → nat → list A * St) :
  (∀ store s i c, store !! i = Some c →
     ∃ c' s', Q c c' ∧ step (store, s) i = (<[i := c']> store, s')) →
  ∀ cells s,
    Forall2 Q cells (fold_left step (seq 0 (length cells)) (cells, s)).1.
Proof.
  intros Hstep cells s0.
  set (Inv := λ (k : nat) (store : list A),
         length store = length cells ∧
         ∀ j c, cells !! j = Some c →
           ∃ c', store !! j = Some c' ∧ ((j < k)%nat → Q c c') ∧ ((k ≤ j)%nat → c' = c)).
  assert (Hloop : ∀ n k store s, (k + n = length cells)%nat → Inv k store →
            Inv (k + n)%nat (fold_left step (seq k n) (store, s)).1).
  { induction n as [|n IH]; intros k store s Hlen HI; simpl.
    - by rewrite Nat.add_0_r.
    - destruct HI as [Hl HI].
      destruct (lookup_lt_is_Some_2 cells k) as [c Hc]; [lia|].
      destruct (HI k c Hc) as (c0 & Hs & _ & Heq). specialize (Heq (le_n _)). subst c0.
      destruct (Hstep store s k c Hs) as (c' & s' & HQ & ->).
      replace (k + S n)%nat with (S k + n)%nat by lia.
      apply IH; [lia|]. split; [by rewrite length_insert|].
      intros j d Hd. destruct (HI j d Hd) as (d' & Hd' & Hlt & Hge).
      destruct (decide (j = k)) as [->|Hne].
      + exists c'. rewrite list_lookup_insert_eq by (rewrite Hl; lia).
        assert (d = c) by congruence. subst d.
        split; [done|]. split; [done|lia].
      + exists d'. rewrite list_lookup_insert_ne by done.
        split; [done|]. split; intros; [apply Hlt | apply Hge]; lia. }
  destruct (Hloop (length cells) 0%nat cells s0) as [Hl HI]; [lia| |].
  { split; [done|]. intros j c Hc. exists c. split; [done|]. split; [lia|done]. }
  apply Forall2_same_length_lookup. split; [by rewrite Hl|].
  intros i x y Hx Hy. destruct (HI i x Hx) as (y' & Hy' & HQ & _).
  assert (y' = y) by congruence. subst y'. apply HQ.
  apply lookup_lt_Some in Hx. lia.
Qed.

(** A property of the state of a loop that every iteration keeps holds at
    the end. *)
Lemma fold_left_invariant {T I : Type} (P : T → Prop) (step : T → I → T)
    (idxs : list I) :
  (∀ st i, P st → P (step st i)) →
  ∀ st, P st → P (fold_left step idxs st).
Proof.
  intros Hstep. induction idxs as [|i idxs IH]; intros st HP; simpl; [done|].
  apply IH, Hstep, HP.
Qed.

End Indexwise.

(** ** Maps seen through an observer *)

Section StrMapFacts.
Context {V A : Type}.
Implicit Types (m : StrMap.t V) (f : V → A) (g : V → V).

Lemma view_for_values f g m :
  (∀ v, f (g v) = f v) → StrMap.view f (StrMap.for_values g m) = StrMap.view f m.
Proof.
  intros Hfg. unfold StrMap.view, StrMap.for_values.
  rewrite <- list_fmap_compose. apply list_fmap_ext.
  intros i [k v] _. simpl. by rewrite Hfg.
Qed.

Lemma view_update f g k m :
  (∀ v, f (g v) = f v) → StrMap.view f (StrMap.update g k m) = StrMap.view f m.
Proof.
  intros Hfg. unfold StrMap.view.
  induction m as [|[k' v] m IH]; simpl; [done|].
  destruct (String.eqb k' k); csimpl; [by rewrite Hfg | by rewrite IH].
Qed.

Lemma view_insert f m i k v v' :
  m !! i = Some (k, v) → f v' = f v →
  StrMap.view f (<[i := (k, v')]> m) = StrMap.view f m.
Proof.
  intros Hi Hf. unfold StrMap.view. rewrite list_fmap_insert. simpl.
  apply list_insert_id. rewrite list_lookup_fmap, Hi. simpl. by rewrite Hf.
Qed.

Lemma view_length f m m' : StrMap.view f m' = StrMap.view f m → length m' = length m.
Proof.
  intros Hv. apply (f_equal length) in Hv. unfold StrMap.view in Hv.
  by rewrite !length_fmap in Hv.
Qed.

Lemma view_keys f m m' :
  StrMap.view f m' = StrMap.view f m → StrMap.keys m' = StrMap.keys m.
Proof.
  unfold StrMap.view, StrMap.keys. revert m'.
  induction m as [|[k v] m IH]; intros [|[k' v'] m']; csimpl; try done.
  intros [= -> _ Hm]. f_equal. by apply IH.
Qed.

Lemma get_view f m k : StrMap.get (StrMap.view f m) k = f <$> StrMap.get m k.
Proof.
  unfold StrMap.view. induction m as [|[k' v] m IH]; csimpl; [done|].
  by destruct (String.eqb k' k).
Qed.

(** In a map that holds a key once, updating the value of a key is updating
    every entry that has it. *)
Lemma update_wf g k m :
  StrMap.wf m →
  StrMap.update g k m
  = (λ kv, if String.eqb kv.1 k then (kv.1, g kv.2) else kv) <$> m.
Proof.
  unfold StrMap.wf, StrMap.keys.
  induction m as [|[k' v] m IH]; csimpl; [done|].
  intros Hnd. apply NoDup_cons in Hnd as [Hnotin Hnd].
  destruct (String.eqb k' k) eqn:E; csimpl.
  - f_equal. apply String.eqb_eq in E. subst k'.
    clear IH Hnd. induction m as [|[k2 v2] m IH]; csimpl; [done|].
    csimpl in Hnotin. apply not_elem_of_cons in Hnotin as [Hne Hnotin].
    destruct (String.eqb k2 k) eqn:E2.
    + apply String.eqb_eq in E2. congruence.
    + f_equal. by apply IH.
  - f_equal. by apply IH.
Qed.

End StrMapFacts.

Lemma get_is_Some_view {V A : Type} (f : V → A) (m m' : StrMap.t V) k :
  StrMap.view f m' = StrMap.view f m →
  is_Some (StrMap.get m' k) ↔ is_Some (StrMap.get m k).
Proof.
  intros Hv. rewrite <- !(fmap_is_Some f), <- !get_view. by rewrite Hv.
Qed.

Lemma fmap_eq_Forall2 {A B : Type} (f g : A → B) (l l' : list A) :
  Forall2 (λ a a', f a' = g a) l l' → f <$> l' = g <$> l.
Proof. induction 1; simpl; [done|]. by f_equal. Qed.

(** ** What the organ loops leave alone

    An observer [f] of an organ that no assignment to the fields a loop
    writes can change sees the same map after the loop. *)

Section OrganObservers.
Context {num : Type} `{Number num} {A : Type}.
Variable f : Organ.t num → A.

Section Position.
Hypothesis f_x : ∀ v o, f (Organ.set_x v o) = f o.
Hypothesis f_y : ∀ v o, f (Organ.set_y v o) = f o.

Lemma pullOrgan_obs dt cx cy o : f (pullOrgan dt cx cy o) = f o.
Proof using f_x f_y. unfold pullOrgan. cbv zeta. by rewrite f_y, f_x. Qed.

Lemma gravity_view dt (m : StrMap.t (Organ.t num)) :
  StrMap.view f (gravity dt m) = StrMap.view f m.
Proof using f_x f_y.
  unfold gravity. destruct (centroid _) as [cx cy].
  apply view_for_values. intros o. apply pullOrgan_obs.
Qed.

Lemma repelOrgans_view (m : StrMap.t (Organ.t num)) ij :
  StrMap.view f (repelOrgans m ij) = StrMap.view f m.
Proof using f_x f_y.
  unfold repelOrgans.
  destruct (m !! ij.1) as [[ka a]|] eqn:Ea; [|done].
  destruct (m !! ij.2) as [[kb b]|] eqn:Eb; [|done].
  cbv zeta. destruct (nlt _ _); [|done].
  set (a' := Organ.set_y _ (Organ.set_x _ a)).
  set (b' := Organ.set_y _ (Organ.set_x _ b)).
  assert (Ha : f a' = f a) by (unfold a'; by rewrite f_y, f_x).
  assert (Hb : f b' = f b) by (unfold b'; by rewrite f_y, f_x).
  destruct (decide (ij.1 = ij.2)) as [E|E].
  - rewrite E in *. assert (E2 : (ka, a) = (kb, b)) by congruence.
    inversion E2; subst.
    rewrite (view_insert f _ _ kb a' b');
      [ | apply list_lookup_insert_eq; by eapply lookup_lt_Some | congruence ].
    by apply (view_insert f _ _ kb b a').
  - rewrite (view_insert f _ _ kb b b');
      [ | by rewrite list_lookup_insert_ne | done ].
    by apply (view_insert f _ _ ka a a').
Qed.

Lemma organRepulsion_view (m : StrMap.t (Organ.t num)) :
  StrMap.view f (organRepulsion m) = StrMap.view f m.
Proof using f_x f_y.
  unfold organRepulsion. generalize (organPairs (length m)). intros pairs.
  revert m. induction pairs as [|ij pairs IH]; intros m; simpl; [done|].
  by rewrite IH, repelOrgans_view.
Qed.
End Position.

Lemma recount_view cells (m : StrMap.t (Organ.t num)) :
  (∀ v o, f (Organ.set_cellCount v o) = f o) →
  StrMap.view f (recount cells m) = StrMap.view f m.
Proof.
  intros f_c. unfold recount.
  rewrite <- (view_for_values f (Organ.set_cellCount (of_Z 0)) m) by done.
  generalize (StrMap.for_values (Organ.set_cellCount (of_Z 0)) m). clear m.
  induction cells as [|c cells IH]; intros m; simpl; [done|].
  rewrite IH. by apply view_update.
Qed.

Lemma stepOrgans_view dt cells (m : StrMap.t (Organ.t num)) :
  (∀ v o, f (Organ.set_x v o) = f o) →
  (∀ v o, f (Organ.set_y v o) = f o) →
  (∀ v o, f (Organ.set_radius v o) = f o) →
  (∀ v o, f (Organ.set_cellCount v o) = f o) →
  StrMap.view f (stepOrgans dt cells m) = StrMap.view f m.
Proof.
  intros f_x f_y f_r f_c. unfold stepOrgans.
  rewrite organRepulsion_view, gravity_view by done.
  rewrite view_for_values by (intros o; apply f_r).
  by apply recount_view.
Qed.

End OrganObservers.

(** ** What the cell loops leave alone *)

Section CellObservers.
Context {num : Type} `{Number num} {A : Type}.
Variable f : Cell.t num → A.
Hypothesis f_x : ∀ v c, f (Cell.set_x v c) = f c.
Hypothesis f_y : ∀ v c, f (Cell.set_y v c) = f c.

Lemma repel2_obs c other : f (repel2 c other) = f c.
Proof using f_x f_y.
  unfold repel2. cbv zeta. destruct (nlt _ _); [|done]. by rewrite f_y, f_x.
Qed.

Lemma clamp2_obs o cr c : f (clamp2 o cr c) = f c.
Proof using f_x f_y.
  unfold clamp2. cbv zeta. destruct (nlt _ _); [|done]. by rewrite f_y, f_x.
Qed.

Lemma integrate_obs dt c : f (integrate dt c) = f c.
Proof using f_x f_y. unfold integrate. cbv zeta. by rewrite f_y, f_x. Qed.

Lemma forNeighbors_obs body store neighbors c :
  (∀ c other, f (body c other) = f c) →
  f (forNeighbors body store neighbors c) = f c.
Proof.
  intros Hbody. unfold forNeighbors. revert c.
  induction neighbors as [|j js IH]; intros c; simpl; [done|].
  rewrite IH. by destruct (store !! j).
Qed.

Lemma secondPass_pointwise (cells : list (Cell.t num)) :
  Forall2 (λ c c', ∃ store neighbors, c' = forNeighbors repel2 store neighbors c)
          cells (secondPass cells).
Proof.
  unfold secondPass. set (g := SpatialGrid.rebuild grid cells).
  pose proof (fold_left_indexwise (St := unit)
    (λ c c', ∃ store neighbors, c' = forNeighbors repel2 store neighbors c)
    (λ st i, (declutterCell g st.1 i, tt))) as Hfold.
  assert (Hsame : ∀ (idxs : list nat) (store : list (Cell.t num)),
            (fold_left (λ st i, (declutterCell g st.1 i, tt)) idxs (store, tt)).1
            = fold_left (declutterCell g) idxs store).
  { induction idxs as [|i idxs IH]; intros store; simpl; [done|]. apply IH. }
  rewrite <- Hsame. apply Hfold.
  intros store [] i c Hc. eexists _, tt. split; [by eexists _, _|].
  simpl. unfold declutterCell. by rewrite Hc.
Qed.

Lemma secondPass_obs (cells : list (Cell.t num)) :
  f <$> secondPass cells = f <$> cells.
Proof using f_x f_y.
  apply fmap_eq_Forall2. eapply Forall2_impl; [apply secondPass_pointwise|].
  intros c c' (store & neighbors & ->). simpl.
  apply forNeighbors_obs, repel2_obs.
Qed.

Section Velocity.
Hypothesis f_vx : ∀ v c, f (Cell.set_vx v c) = f c.
Hypothesis f_vy : ∀ v c, f (Cell.set_vy v c) = f c.

Lemma clamp1_obs o cr dxo dyo distOrgan c : f (clamp1 o cr dxo dyo distOrgan c) = f c.
Proof using f_x f_y f_vx f_vy.
  unfold clamp1. cbv zeta. destruct (nlt _ _); [|done].
  destruct (nlt _ _); by rewrite ?f_vy, ?f_vx, f_y, f_x.
Qed.

Lemma inwardPull_obs dt cr dxo dyo distOrgan c :
  f (inwardPull dt cr dxo dyo distOrgan c) = f c.
Proof using f_vx f_vy. unfold inwardPull. cbv zeta. by rewrite f_vy, f_vx. Qed.

Lemma repel1_obs c other : f (repel1 c other) = f c.
Proof using f_x f_y f_vx f_vy.
  unfold repel1. cbv zeta. destruct (nlt _ _); [|done].
  by rewrite f_vy, f_vx, f_y, f_x.
Qed.

Lemma brownian_obs r1 r2 c : f (brownian r1 r2 c) = f c.
Proof using f_vx f_vy. unfold brownian. cbv zeta. by rewrite f_vy, f_vx. Qed.

Lemma damp_obs c : f (damp c) = f c.
Proof using f_vx f_vy. unfold damp. cbv zeta. by rewrite f_vy, f_vx. Qed.

Lemma moveCell_obs dt o g store r1 r2 c : f (moveCell dt o g store r1 r2 c) = f c.
Proof using f_x f_y f_vx f_vy.
  unfold moveCell. cbv zeta.
  rewrite clamp2_obs, integrate_obs, damp_obs, brownian_obs.
  rewrite forNeighbors_obs by apply repel1_obs.
  by rewrite inwardPull_obs, clamp1_obs.
Qed.

Lemma updateCell_obs dt o g store r1 r2 c :
  (∀ v c, f (Cell.set_radius v c) = f c) →
  (∀ v c, f (Cell.set_wobblePhase v c) = f c) →
  f (updateCell dt o g store r1 r2 c) = f c.
Proof using f_x f_y f_vx f_vy.
  intros f_r f_w. unfold updateCell, advanceWobble, easeRadius. cbv zeta.
  by rewrite f_w, f_r, moveCell_obs.
Qed.
End Velocity.

End CellObservers.

(** The first loop replaces a cell that has an organ by its update and
    leaves a cell without one as it is. *)
Lemma firstPass_pointwise {num : Type} `{Number num}
    random dt (organs : StrMap.t (Organ.t num)) (cells : list (Cell.t num)) :
  Forall2 (λ c c',
      match StrMap.get organs (Cell.chain c) with
      | Some o => ∃ g store r1 r2, c' = updateCell dt o g store r1 r2 c
      | None => c' = c
      end) cells (firstPass random dt organs cells).
Proof.
  unfold firstPass. apply fold_left_indexwise.
  intros store k i c Hc. unfold stepCell. rewrite Hc.
  destruct (StrMap.get organs (Cell.chain c)) as [o|] eqn:Eo.
  - eexists _, _. split; [|done]. by eexists _, _, _, _.
  - exists c, k. split; [done|]. by rewrite list_insert_id.
Qed.

Lemma firstPass_obs {num : Type} `{Number num} {A : Type} (f : Cell.t num → A)
    random dt (organs : StrMap.t (Organ.t num)) (cells : list (Cell.t num)) :
  (∀ v c, f (Cell.set_x v c) = f c) →
  (∀ v c, f (Cell.set_y v c) = f c) →
  (∀ v c, f (Cell.set_vx v c) = f c) →
  (∀ v c, f (Cell.set_vy v c) = f c) →
  (∀ v c, f (Cell.set_radius v c) = f c) →
  (∀ v c, f (Cell.set_wobblePhase v c) = f c) →
  f <$> firstPass random dt organs cells = f <$> cells.
Proof.
  intros f_x f_y f_vx f_vy f_r f_w.
  apply fmap_eq_Forall2. eapply Forall2_impl; [apply firstPass_pointwise|].
  intros c c'. simpl. destruct (StrMap.get organs (Cell.chain c)).
  - intros (g & store & r1 & r2 & ->). by apply updateCell_obs.
  - by intros ->.
Qed.

(** The organs of the result, through an observer of the fields the step
    does not write. *)
Lemma stepPhysics_organs_view {num : Type} `{Number num} {A : Type}
    (f : Organ.t num → A) (random : nat → num) (cells : list (Cell.t num))
    (organs : StrMap.t (Organ.t num)) (dt : num) :
  (∀ v o, f (Organ.set_x v o) = f o) →
  (∀ v o, f (Organ.set_y v o) = f o) →
  (∀ v o, f (Organ.set_radius v o) = f o) →
  (∀ v o, f (Organ.set_cellCount v o) = f o) →
  StrMap.view f (stepPhysics random cells organs dt).2 = StrMap.view f organs.
Proof. intros. unfold stepPhysics. cbv zeta. simpl. by apply stepOrgans_view. Qed.

(** C10: [stepPhysics] writes only the position, velocity, radius and wobble
    phase of a cell and the position, radius and cell count of an organ.  The
    other fields of every cell (id, chain, pairAddress, label, targetRadius,
    color, wobbleSpeed, born, lastUpdate, liquidity) and of every organ
    (chain, displayName, color, wobblePhase) are the same after the step, at
    the same index and under the same key: no cell and no organ is added,
    removed or moved.  The result of the step is the pair of the two
    collections. *)
Theorem stepPhysics_frame {num : Type} `{Number num}
    (random : nat → num) (cells : list (Cell.t num))
    (organs : StrMap.t (Organ.t num)) (dt : num) :
  Cell.frame <$> (stepPhysics random cells organs dt).1 = Cell.frame <$> cells
  ∧ StrMap.view Organ.frame (stepPhysics random cells organs dt).2
    = StrMap.view Organ.frame organs.
Proof.
  split.
  - unfold stepPhysics. cbv zeta. simpl.
    rewrite secondPass_obs by done. by apply firstPass_obs.
  - by apply stepPhysics_organs_view.
Qed.

(** ** The recount and the growth law *)

Section Recount.
Context {num : Type} `{Number num}.
Local Open Scope num_scope.

Lemma incr_iter (n : nat) (o : Organ.t num) :
  Nat.iter n (λ o, Organ.set_cellCount (Organ.cellCount o + of_Z 1) o)
           (Organ.set_cellCount (of_Z 0) o)
  = Organ.set_cellCount (count_up n) o.
Proof. induction n as [|n IH]; simpl; [done|]. by rewrite IH. Qed.

Lemma tally_wf (f : Organ.t num → Organ.t num) (cells : list (Cell.t num))
    (m : StrMap.t (Organ.t num)) :
  StrMap.wf m →
  fold_left (λ m c, StrMap.update f (Cell.chain c) m) cells m
  = (λ kv, (kv.1, Nat.iter (memberCount kv.1 cells) f kv.2)) <$> m.
Proof.
  revert m. induction cells as [|c cells IH]; intros m Hwf; simpl.
  - rewrite <- (list_fmap_id m) at 1. apply list_fmap_ext. by intros i [k o] _.
  - rewrite IH.
    + rewrite update_wf by done. rewrite <- list_fmap_compose.
      apply list_fmap_ext. intros i [k o] _. simpl. unfold memberCount. simpl.
      rewrite (String.eqb_sym (Cell.chain c) k).
      destruct (String.eqb k (Cell.chain c)); simpl; [|done].
      by rewrite Nat.iter_swap.
    + unfold StrMap.wf in *.
      by rewrite (view_keys (λ _, tt) m (StrMap.update f (Cell.chain c) m))
        by (by apply view_update).
Qed.

(** After the recount every organ holds the number of cells of its key. *)
Lemma recount_wf (cells : list (Cell.t num)) (m : StrMap.t (Organ.t num)) :
  StrMap.wf m →
  recount cells m
  = (λ kv, (kv.1, Organ.set_cellCount (count_up (memberCount kv.1 cells)) kv.2)) <$> m.
Proof.
  intros Hwf. unfold recount. rewrite tally_wf.
  - unfold StrMap.for_values. rewrite <- list_fmap_compose.
    apply list_fmap_ext. intros i [k o] _. simpl. by rewrite incr_iter.
  - unfold StrMap.wf in *.
    by rewrite (view_keys (λ _, tt) m (StrMap.for_values _ m))
      by (by apply view_for_values).
Qed.

(** The radius and the count of every organ after the step. *)
Lemma stepOrgans_sizes dt (cells : list (Cell.t num)) (m : StrMap.t (Organ.t num)) :
  StrMap.wf m →
  StrMap.view (λ o, (Organ.radius o, Organ.cellCount o)) (stepOrgans dt cells m)
  = (λ kv, (kv.1,
            (PHYSICS.ORGAN_BASE_RADIUS
             + PHYSICS.ORGAN_GROWTH_PER_CELL * nsqrt (count_up (memberCount kv.1 cells)),
             count_up (memberCount kv.1 cells)))) <$> m.
Proof.
  intros Hwf. unfold stepOrgans.
  rewrite organRepulsion_view, gravity_view by done.
  rewrite recount_wf by done. unfold StrMap.view, StrMap.for_values.
  rewrite <- !list_fmap_compose. apply list_fmap_ext. by intros i [k o] _.
Qed.

End Recount.

Lemma count_up_INR (n : nat) : count_up (num := R) n = INR n.
Proof.
  induction n as [|n IH]; [done|].
  rewrite S_INR, <- IH. reflexivity.
Qed.

(** C3: after [stepPhysics], the radius of every organ is
    [ORGAN_BASE_RADIUS + ORGAN_GROWTH_PER_CELL * sqrt memberCount] and its
    [cellCount] is [memberCount], the number of cells of the input list whose
    [chain] is the key of the organ, whatever [cellCount] held before. *)
Theorem organ_radius_law (random : nat → R) (cells : list (Cell.t R))
    (organs : StrMap.t (Organ.t R)) (dt : R) :
  StrMap.wf organs →
  StrMap.view (λ o, (Organ.radius o, Organ.cellCount o))
              (stepPhysics random cells organs dt).2
  = (λ kv, (kv.1, ((40 + 18 * R_sqrt.sqrt (INR (memberCount kv.1 cells)))%R,
                   INR (memberCount kv.1 cells)))) <$> organs.
Proof.
  intros Hwf. unfold stepPhysics. cbv zeta. simpl.
  rewrite stepOrgans_sizes by done.
  apply list_fmap_ext. intros i [k o] _. simpl. by rewrite count_up_INR.
Qed.

Lemma organ_radius_law_witness :
  StrMap.view (λ o, (Organ.radius o, Organ.cellCount o))
              (stepPhysics Ideal.still Ideal.cells Ideal.organs 0.016%R).2
  = (λ kv, (kv.1, ((40 + 18 * R_sqrt.sqrt (INR (memberCount kv.1 Ideal.cells)))%R,
                   INR (memberCount kv.1 Ideal.cells)))) <$> Ideal.organs.
Proof.
  apply organ_radius_law.
  unfold StrMap.wf, StrMap.keys, Ideal.organs. simpl.
  apply NoDup_cons. split; [|apply NoDup_singleton].
  intros Hin. apply list_elem_of_singleton in Hin. discriminate Hin.
Defined.

(** ** The spatial grid *)

Section GridFacts.
Context {num : Type} `{Number num}.
Hypothesis key_eqb_eq : ∀ a b : SpatialGrid.key_t num, SpatialGrid.key_eqb a b = true ↔ a = b.

Lemma get_push m k' i k :
  SpatialGrid.get (SpatialGrid.push m k' i) k
  = if SpatialGrid.key_eqb k' k then Some (SpatialGrid.bucketOf m k ++ [i]) else SpatialGrid.get m k.
Proof using key_eqb_eq.
  unfold SpatialGrid.bucketOf. induction m as [|[k0 b] m IH]; simpl.
  - by destruct (SpatialGrid.key_eqb k' k).
  - destruct (SpatialGrid.key_eqb k0 k') eqn:E0; simpl.
    + apply key_eqb_eq in E0. subst k0.
      by destruct (SpatialGrid.key_eqb k' k).
    + rewrite IH. destruct (SpatialGrid.key_eqb k0 k) eqn:E1; [|done].
      apply key_eqb_eq in E1. subst k0.
      destruct (SpatialGrid.key_eqb k' k) eqn:E2; [|done].
      apply key_eqb_eq in E2. subst k'.
      rewrite (proj2 (key_eqb_eq k k) eq_refl) in E0. discriminate E0.
Qed.

Lemma bucketOf_push m k' i k :
  SpatialGrid.bucketOf (SpatialGrid.push m k' i) k
  = SpatialGrid.bucketOf m k ++ (if SpatialGrid.key_eqb k' k then [i] else []).
Proof using key_eqb_eq.
  unfold SpatialGrid.bucketOf at 1. rewrite get_push.
  destruct (SpatialGrid.key_eqb k' k); simpl; [done|].
  by rewrite app_nil_r.
Qed.

Lemma bucketOf_inserts (ics : list (nat * Cell.t num)) (g : SpatialGrid.t num) k :
  SpatialGrid.bucketOf (SpatialGrid.cells (fold_left (λ g ic, SpatialGrid.insert g ic.1 ic.2) ics g)) k
  = SpatialGrid.bucketOf (SpatialGrid.cells g) k
    ++ (List.filter (λ ic, SpatialGrid.key_eqb
                             (SpatialGrid.key g (Cell.x ic.2) (Cell.y ic.2)) k) ics).*1.
Proof using key_eqb_eq.
  revert g. induction ics as [|[i c] ics IH]; intros g; simpl.
  - by rewrite app_nil_r.
  - rewrite IH. unfold SpatialGrid.insert at 2. simpl. rewrite bucketOf_push.
    rewrite <- app_assoc. f_equal.
    change (SpatialGrid.key (SpatialGrid.insert g i c)) with (SpatialGrid.key g).
    by destruct (SpatialGrid.key_eqb _ k).
Qed.
End GridFacts.

Lemma cellSize_rebuild {num : Type} `{Number num} (g : SpatialGrid.t num)
    (store : list (Cell.t num)) :
  SpatialGrid.cellSize (SpatialGrid.rebuild g store) = SpatialGrid.cellSize g.
Proof.
  unfold SpatialGrid.rebuild.
  change (SpatialGrid.cellSize g) with (SpatialGrid.cellSize (SpatialGrid.clear g)).
  generalize (SpatialGrid.clear g). generalize (imap (λ i c, (i, c)) store).
  intros ics. induction ics as [|ic ics IH]; intros g'; simpl; [done|].
  by rewrite IH.
Qed.

Lemma key_eqb_eq_R (a b : SpatialGrid.key_t R) : SpatialGrid.key_eqb a b = true ↔ a = b.
Proof.
  destruct a as [a1 a2], b as [b1 b2]. unfold SpatialGrid.key_eqb. simpl.
  unfold RealOps.eqb.
  destruct (Req_dec_T a1 b1), (Req_dec_T a2 b2); simpl; split; try done; try congruence.
Qed.

Lemma key_in_block (cs : R) (q c : Cell.t R) :
  (∃ dx dy : Z, In dx [-1; 0; 1]%Z ∧ In dy [-1; 0; 1]%Z ∧
     SpatialGrid.key (SpatialGrid.new cs) (Cell.x c) (Cell.y c)
     = (nadd (nfloor (ndiv (Cell.x q) cs)) (of_Z dx),
        nadd (nfloor (ndiv (Cell.y q) cs)) (of_Z dy)))
  ↔ inBlock cs q c.
Proof.
  unfold inBlock, bucket, SpatialGrid.key. simpl. unfold RealOps.floor.
  split.
  - intros (dx & dy & Hdx & Hdy & Hk). injection Hk as Hx Hy.
    rewrite <- plus_IZR in Hx, Hy. apply eq_IZR in Hx, Hy.
    simpl in Hdx, Hdy. lia.
  - intros [Hx Hy].
    exists (Zfloor (Cell.x c / cs) - Zfloor (Cell.x q / cs))%Z,
           (Zfloor (Cell.y c / cs) - Zfloor (Cell.y q / cs))%Z.
    split; [simpl; lia|]. split; [simpl; lia|].
    rewrite <- !plus_IZR. f_equal; f_equal; lia.
Qed.

Lemma floors_adjacent (cs a b : R) :
  (0 < cs)%R → (Rabs (a - b) < cs)%R → (Z.abs (Zfloor (b / cs) - Zfloor (a / cs)) ≤ 1)%Z.
Proof.
  intros Hcs Hab.
  pose proof (Zfloor_bound (a / cs)) as [Ha1 Ha2].
  pose proof (Zfloor_bound (b / cs)) as [Hb1 Hb2].
  assert (Hd : (Rabs (a / cs - b / cs) < 1)%R).
  { replace (a / cs - b / cs)%R with ((a - b) / cs)%R by (field; lra).
    unfold Rdiv. rewrite Rabs_mult, (Rabs_pos_eq (/ cs)).
    - apply (Rmult_lt_reg_r cs); [done|]. rewrite Rmult_assoc, Rinv_l by lra. lra.
    - left. by apply Rinv_0_lt_compat. }
  apply Rabs_def2 in Hd as [Hd1 Hd2].
  assert (H1 : (IZR (Zfloor (b / cs) - Zfloor (a / cs)) < 2)%R) by (rewrite minus_IZR; lra).
  assert (H2 : (-2 < IZR (Zfloor (b / cs) - Zfloor (a / cs)))%R) by (rewrite minus_IZR; lra).
  apply lt_IZR in H1, H2. lia.
Qed.

Lemma getNeighbors_elem_of (cs : R) (store : list (Cell.t R)) (q : Cell.t R) :
  let g := SpatialGrid.rebuild (SpatialGrid.new cs) store in
  (∀ j, j ∈ SpatialGrid.getNeighbors g store q ↔
        ∃ c, store !! j = Some c ∧ inBlock cs q c ∧ Cell.id c ≠ Cell.id q).
Proof.
  intros g j. rewrite list_elem_of_In.
  unfold SpatialGrid.getNeighbors.
  replace (SpatialGrid.cellSize g) with cs by (symmetry; apply cellSize_rebuild).
  assert (Hb : ∀ k, match SpatialGrid.get (SpatialGrid.cells g) k with
                    | Some bucket => List.filter (λ j,
                        match store !! j with
                        | Some other => negb (String.eqb (Cell.id other) (Cell.id q))
                        | None => false end) bucket
                    | None => [] end
                    = List.filter (λ j,
                        match store !! j with
                        | Some other => negb (String.eqb (Cell.id other) (Cell.id q))
                        | None => false end) (SpatialGrid.bucketOf (SpatialGrid.cells g) k)).
  { intros k. unfold SpatialGrid.bucketOf. by destruct (SpatialGrid.get _ k). }
  assert (Hin : ∀ k i, In i (SpatialGrid.bucketOf (SpatialGrid.cells g) k) ↔
            ∃ c, store !! i = Some c ∧
                 SpatialGrid.key (SpatialGrid.new cs) (Cell.x c) (Cell.y c) = k).
  { intros k i. unfold g, SpatialGrid.rebuild.
    rewrite (bucketOf_inserts key_eqb_eq_R). simpl.
    rewrite <- list_elem_of_In, list_elem_of_fmap. split.
    - intros ([i' c] & -> & Hic). apply list_elem_of_In, filter_In in Hic as [Hic Hk].
      rewrite <- list_elem_of_In in Hic.
      apply elem_of_lookup_imap in Hic as (i0 & c0 & [= -> ->] & Hl).
      exists c0. split; [done|]. by apply key_eqb_eq_R.
    - intros (c & Hc & Hk). exists (i, c). split; [done|].
      apply list_elem_of_In, filter_In. split.
      + rewrite <- list_elem_of_In. apply elem_of_lookup_imap. by exists i, c.
      + by apply key_eqb_eq_R. }
  rewrite in_flat_map. setoid_rewrite in_flat_map. setoid_rewrite Hb.
  setoid_rewrite filter_In. setoid_rewrite Hin.
  split.
  - intros (dx & Hdx & dy & Hdy & (c & Hc & Hk) & Hid).
    exists c. split; [done|]. split.
    + apply key_in_block. exists dx, dy. split; [done|]. split; [done|]. exact Hk.
    + rewrite Hc in Hid. apply negb_true_iff, String.eqb_neq in Hid. done.
  - intros (c & Hc & Hblk & Hid). apply key_in_block in Hblk as (dx & dy & Hdx & Hdy & Hk).
    exists dx. split; [done|]. exists dy. split; [done|]. split.
    + exists c. split; [done|]. exact Hk.
    + rewrite Hc. by apply negb_true_iff, String.eqb_neq.
Qed.

Lemma NoDup_flat_map {A B : Type} (f : A → list B) (l : list A) :
  NoDup l → (∀ x, In x l → NoDup (f x)) →
  (∀ x1 x2 y, In x1 l → In x2 l → In y (f x1) → In y (f x2) → x1 = x2) →
  NoDup (flat_map f l).
Proof.
  induction l as [|x l IH]; intros Hl Hf Hdisj; simpl; [constructor|].
  apply NoDup_cons in Hl as [Hx Hl]. apply NoDup_app. split; [|split].
  - apply Hf. by left.
  - intros y Hy Hy'. apply list_elem_of_In in Hy, Hy'.
    apply in_flat_map in Hy' as (x' & Hx' & Hy').
    assert (x = x') by (apply (Hdisj x x' y); simpl; auto). subst x'.
    apply Hx. by apply list_elem_of_In.
  - apply IH; [done | intros; apply Hf; by right |].
    intros x1 x2 y H1 H2. apply Hdisj; by right.
Qed.

Lemma NoDup_filter_fst {A B : Type} (P : A * B → bool) (l : list (A * B)) :
  NoDup l.*1 → NoDup (List.filter P l).*1.
Proof.
  induction l as [|x l IH]; simpl; [done|]. intros Hl.
  apply NoDup_cons in Hl as [Hx Hl]. destruct (P x); csimpl; [|by apply IH].
  apply NoDup_cons. split; [|by apply IH].
  intros Hin. apply Hx. apply list_elem_of_fmap in Hin as (y & -> & Hy).
  apply list_elem_of_fmap. exists y. split; [done|].
  apply list_elem_of_In. apply list_elem_of_In, filter_In in Hy. tauto.
Qed.

Lemma NoDup_imap_fst {A : Type} (l : list A) : NoDup (imap (λ i c, (i, c)) l).*1.
Proof.
  apply NoDup_alt. intros i j x.
  rewrite !list_lookup_fmap, !list_lookup_imap.
  destruct (l !! i), (l !! j); simpl; congruence.
Qed.

Lemma getNeighbors_NoDup (cs : R) (store : list (Cell.t R)) (q : Cell.t R) :
  NoDup (SpatialGrid.getNeighbors (SpatialGrid.rebuild (SpatialGrid.new cs) store) store q).
Proof.
  set (g := SpatialGrid.rebuild (SpatialGrid.new cs) store).
  assert (Hbucket : ∀ k, SpatialGrid.bucketOf (SpatialGrid.cells g) k
            = (List.filter (λ ic, SpatialGrid.key_eqb
                 (SpatialGrid.key (SpatialGrid.new cs) (Cell.x ic.2) (Cell.y ic.2)) k)
                 (imap (λ i c, (i, c)) store)).*1).
  { intros k. unfold g, SpatialGrid.rebuild. by rewrite (bucketOf_inserts key_eqb_eq_R). }
  assert (Hkey : ∀ k1 k2 j, In j (SpatialGrid.bucketOf (SpatialGrid.cells g) k1) →
            In j (SpatialGrid.bucketOf (SpatialGrid.cells g) k2) → k1 = k2).
  { intros k1 k2 j. rewrite !Hbucket, <- !list_elem_of_In, !list_elem_of_fmap.
    intros ([j1 c1] & -> & H1) ([j2 c2] & Hj & H2). simpl in Hj. subst j2.
    apply list_elem_of_In, filter_In in H1 as [H1 E1].
    apply list_elem_of_In, filter_In in H2 as [H2 E2].
    rewrite <- list_elem_of_In in H1, H2.
    apply elem_of_lookup_imap in H1 as (i1 & d1 & [= -> ->] & L1).
    apply elem_of_lookup_imap in H2 as (i2 & d2 & [= -> ->] & L2).
    assert (d1 = d2) by congruence. subst d2.
    apply key_eqb_eq_R in E1, E2. simpl in *. congruence. }
  assert (Hnd : ∀ k, NoDup (SpatialGrid.bucketOf (SpatialGrid.cells g) k)).
  { intros k. rewrite Hbucket. apply NoDup_filter_fst, NoDup_imap_fst. }
  assert (Hshift : ∀ (a : R) (d1 d2 : Z), (a + IZR d1 = a + IZR d2)%R → d1 = d2).
  { intros a d1 d2 E. apply eq_IZR. lra. }
  assert (H3 : NoDup [-1; 0; 1]%Z).
  { repeat (apply NoDup_cons; split; [rewrite list_elem_of_In; simpl; lia|]).
    constructor. }
  assert (Hcell : ∀ k, match SpatialGrid.get (SpatialGrid.cells g) k with
                    | Some bucket => List.filter (λ j,
                        match store !! j with
                        | Some other => negb (String.eqb (Cell.id other) (Cell.id q))
                        | None => false end) bucket
                    | None => [] end
                    = List.filter (λ j,
                        match store !! j with
                        | Some other => negb (String.eqb (Cell.id other) (Cell.id q))
                        | None => false end) (SpatialGrid.bucketOf (SpatialGrid.cells g) k)).
  { intros k. unfold SpatialGrid.bucketOf. by destruct (SpatialGrid.get _ k). }
  unfold SpatialGrid.getNeighbors. fold g.
  apply NoDup_flat_map; [done| |].
  - intros dx _. apply NoDup_flat_map; [done| |].
    + intros dy _. rewrite Hcell.
      apply NoDup_ListNoDup, List.NoDup_filter, NoDup_ListNoDup, Hnd.
    + intros dy1 dy2 j _ _. rewrite !Hcell, !filter_In.
      intros [H1 _] [H2 _]. pose proof (Hkey _ _ _ H1 H2) as E.
      injection E as E. by apply Hshift in E.
  - intros dx1 dx2 j _ _. rewrite !in_flat_map.
    intros (dy1 & _ & H1) (dy2 & _ & H2). rewrite Hcell, filter_In in H1, H2.
    destruct H1 as [H1 _], H2 as [H2 _]. pose proof (Hkey _ _ _ H1 H2) as E.
    injection E as E _. by apply Hshift in E.
Qed.

(** C5: with every cell of the array inserted, [getNeighbors(q)] holds
    exactly the cells whose bucket [(floor(x / cellSize), floor(y /
    cellSize))] is in the 3x3 block around the bucket of [q] and whose
    identifier is not that of [q], each of them once; when identifiers are
    unique that excludes [q] itself and nothing else; and two cells with
    different identifiers that are less than [cellSize] apart in both
    coordinates are in each other's list.  The order of the list is not part
    of the statement. *)
Theorem getNeighbors_block (cs : R) (store : list (Cell.t R)) :
  let g := SpatialGrid.rebuild (SpatialGrid.new cs) store in
  (∀ (q : Cell.t R) (j : nat),
     j ∈ SpatialGrid.getNeighbors g store q ↔
     ∃ c, store !! j = Some c ∧ inBlock cs q c ∧ Cell.id c ≠ Cell.id q)
  ∧ (∀ q : Cell.t R, NoDup (SpatialGrid.getNeighbors g store q))
  ∧ (NoDup (Cell.id <$> store) →
     ∀ (i : nat) (q : Cell.t R), store !! i = Some q →
     ∀ j : nat,
       j ∈ SpatialGrid.getNeighbors g store q ↔
       j ≠ i ∧ ∃ c, store !! j = Some c ∧ inBlock cs q c)
  ∧ ((0 < cs)%R →
     ∀ (i j : nat) (a b : Cell.t R),
       store !! i = Some a → store !! j = Some b → Cell.id a ≠ Cell.id b →
       (Rabs (Cell.x a - Cell.x b) < cs)%R → (Rabs (Cell.y a - Cell.y b) < cs)%R →
       j ∈ SpatialGrid.getNeighbors g store a
       ∧ i ∈ SpatialGrid.getNeighbors g store b).
Proof.
  intros g. split; [|split; [|split]].
  - intros q j. apply getNeighbors_elem_of.
  - intros q. apply getNeighbors_NoDup.
  - intros Hnd i q Hq j. unfold g. rewrite getNeighbors_elem_of. split.
    + intros (c & Hc & Hblk & Hid). split; [|by exists c].
      intros ->. congruence.
    + intros (Hne & c & Hc & Hblk). exists c. split; [done|]. split; [done|].
      intros Hid. apply Hne.
      apply (NoDup_lookup (Cell.id <$> store) j i (Cell.id c)); [done| |].
      * by rewrite list_lookup_fmap, Hc.
      * by rewrite list_lookup_fmap, Hq, Hid.
  - intros Hcs i j a b Ha Hb Hid Hx Hy. unfold g.
    rewrite !getNeighbors_elem_of. split.
    + exists b. split; [done|]. split; [|done].
      split; simpl; by apply floors_adjacent.
    + exists a. split; [done|]. split; [|done].
      split; simpl; apply floors_adjacent; try done; by rewrite Rabs_minus_sym.
Qed.

Lemma getNeighbors_block_witness :
  1%nat ∈ SpatialGrid.getNeighbors (SpatialGrid.rebuild (SpatialGrid.new 100%R) Ideal.cells)
            Ideal.cells (Ideal.cellAt "ETH-a" "ETH" 3 4 2 10)
  ∧ 0%nat ∈ SpatialGrid.getNeighbors (SpatialGrid.rebuild (SpatialGrid.new 100%R) Ideal.cells)
              Ideal.cells (Ideal.cellAt "ETH-b" "ETH" (-20) 5 7 7).
Proof.
  apply (proj2 (proj2 (proj2 (getNeighbors_block 100%R Ideal.cells)))).
  - lra.
  - reflexivity.
  - reflexivity.
  - discriminate.
  - simpl. apply Rabs_def1; lra.
  - simpl. apply Rabs_def1; lra.
Defined.


(** ** The radius mappings *)

Section RadiusLaws.
Import RadiusMapping.
Local Open Scope R_scope.

Lemma ln10_pos : 0 < ln 10.
Proof. rewrite <- ln_1. apply ln_increasing; lra. Qed.

Lemma log10_mono (a b : R) : 0 < a → a <= b → log10 a <= log10 b.
Proof.
  intros Ha Hab. unfold log10.
  apply Rmult_le_compat_r; [left; apply Rinv_0_lt_compat, ln10_pos|].
  destruct Hab as [Hlt| ->]; [left; by apply ln_increasing | lra].
Qed.

Lemma log10_pow (n : nat) : log10 (10 ^ n) = INR n.
Proof.
  unfold log10. rewrite ln_pow by lra. field. pose proof ln10_pos. lra.
Qed.

(** The clamp of the source, [Math.max(0, Math.min(1, t))]. *)
Lemma clamp01_bounds (t : R) : 0 <= Rmax 0 (Rmin 1 t) <= 1.
Proof.
  split; [apply Rmax_l|]. apply Rmax_lub; [lra | apply Rmin_l].
Qed.

Lemma clamp01_mono (s t : R) : s <= t → Rmax 0 (Rmin 1 s) <= Rmax 0 (Rmin 1 t).
Proof.
  intros Hst. apply Rle_max_compat_l. by apply Rle_min_compat_l.
Qed.

Lemma positive_branch (x : R) : 0 < x → falsy x || leb x 0 = false.
Proof.
  intros Hx. unfold falsy, leb, RealOps.eqb.
  destruct (Req_dec_T x 0); [lra|]. destruct (Rle_dec x 0); [lra|done].
Qed.

Lemma nonpositive_branch (x : R) : x <= 0 → falsy x || leb x 0 = true.
Proof.
  intros Hx. unfold leb. destruct (Rle_dec x 0); [|lra]. apply orb_true_r.
Qed.

(** C6: [liquidityToRadius] is non-decreasing over the positive liquidities,
    is [DEFAULT_CELL_RADIUS] for a liquidity that is zero, negative or absent,
    and lies in [[MIN_CELL_RADIUS, MAX_CELL_RADIUS]] for every input. *)
Theorem liquidityToRadius_law :
  (∀ l1 l2 : R, 0 < l1 → l1 <= l2 →
     liquidityToRadius (Some l1) <= liquidityToRadius (Some l2))
  ∧ (∀ l : R, l <= 0 → liquidityToRadius (Some l) = PHYSICS.DEFAULT_CELL_RADIUS)
  ∧ liquidityToRadius None = PHYSICS.DEFAULT_CELL_RADIUS
  ∧ (∀ liquidity : option R,
       PHYSICS.MIN_CELL_RADIUS <= liquidityToRadius liquidity <= PHYSICS.MAX_CELL_RADIUS).
Proof.
  split; [|split; [|split]].
  - intros l1 l2 H1 H12. unfold liquidityToRadius.
    rewrite !positive_branch by lra. cbv zeta.
    apply Rplus_le_compat_l, Rmult_le_compat_r; [cbn; lra|].
    apply clamp01_mono. apply Rmult_le_compat_r; [lra|].
    apply Rplus_le_compat_r, log10_mono.
    + apply Rlt_le_trans with 1; [lra | apply Rmax_r].
    + by apply Rle_max_compat_r.
  - intros l Hl. unfold liquidityToRadius. by rewrite nonpositive_branch.
  - reflexivity.
  - intros [l|]; unfold liquidityToRadius; [|cbn; lra].
    destruct (falsy l || leb l 0); [cbn; lra|]. cbv zeta.
    pose proof (clamp01_bounds ((log10 (Rmax l 1) - 2) / 5)) as [H0 H1].
    cbn. nra.
Qed.

Lemma liquidityToRadius_law_witness :
  liquidityToRadius (Some 100) <= liquidityToRadius (Some 1000).
Proof. apply (proj1 liquidityToRadius_law); lra. Defined.

(** C7: [volumeToRadiusMultiplier] is [1] for a volume that is zero, negative
    or absent, is non-decreasing over all volumes, lies in [[1, 2]], and is
    [2] from a volume of [10^6] on. *)
Theorem volumeToRadiusMultiplier_law :
  (∀ v : R, v <= 0 → volumeToRadiusMultiplier (Some v) = 1)
  ∧ volumeToRadiusMultiplier None = 1
  ∧ (∀ v1 v2 : R, v1 <= v2 →
       volumeToRadiusMultiplier (Some v1) <= volumeToRadiusMultiplier (Some v2))
  ∧ (∀ volumeUsd : option R, 1 <= volumeToRadiusMultiplier volumeUsd <= 2)
  ∧ (∀ v : R, 10 ^ 6 <= v → volumeToRadiusMultiplier (Some v) = 2).
Proof.
  assert (Hrange : ∀ v : R, 0 < v →
            volumeToRadiusMultiplier (Some v)
            = 1 + Rmax 0 (Rmin 1 ((log10 (Rmax v 1) - 3) / 3))).
  { intros v Hv. unfold volumeToRadiusMultiplier. by rewrite positive_branch. }
  assert (Hlow : ∀ v : R, v <= 0 → volumeToRadiusMultiplier (Some v) = 1).
  { intros v Hv. unfold volumeToRadiusMultiplier. by rewrite nonpositive_branch. }
  assert (Hbounds : ∀ volumeUsd, 1 <= volumeToRadiusMultiplier volumeUsd <= 2).
  { intros [v|]; [|unfold volumeToRadiusMultiplier; lra].
    destruct (Rle_lt_dec v 0) as [Hv|Hv]; [rewrite Hlow by done; lra|].
    rewrite Hrange by done.
    pose proof (clamp01_bounds ((log10 (Rmax v 1) - 3) / 3)). lra. }
  split; [done|]. split; [done|]. split; [|split; [done|]].
  - intros v1 v2 H12. destruct (Rle_lt_dec v1 0) as [Hv|Hv].
    + rewrite (Hlow v1) by done. apply Hbounds.
    + rewrite !Hrange by lra.
      apply Rplus_le_compat_l, clamp01_mono, Rmult_le_compat_r; [lra|].
      apply Rplus_le_compat_r, log10_mono.
      * apply Rlt_le_trans with 1; [lra | apply Rmax_r].
      * by apply Rle_max_compat_r.
  - intros v Hv. assert (Hpos : 0 < v) by (apply Rlt_le_trans with (10 ^ 6); [lra|done]).
    rewrite Hrange by done.
    assert (Hlog : 6 <= log10 (Rmax v 1)).
    { replace 6 with (INR 6) by (simpl; lra).
      rewrite <- (log10_pow 6). apply log10_mono; [lra|].
      apply Rle_trans with v; [done | apply Rmax_l]. }
    rewrite Rmin_left by lra. rewrite Rmax_right by lra. lra.
Qed.

Lemma volumeToRadiusMultiplier_law_witness :
  volumeToRadiusMultiplier (Some 0) = 1
  ∧ volumeToRadiusMultiplier (Some 5000000) = 2.
Proof.
  split.
  - apply (proj1 volumeToRadiusMultiplier_law). lra.
  - apply (proj2 (proj2 (proj2 (proj2 volumeToRadiusMultiplier_law)))). lra.
Defined.

End RadiusLaws.


(** ** Radius easing *)

Section Easing.
Context {num : Type} `{Number num}.
Local Open Scope num_scope.

(** What the step does to the radius of a cell that has an organ, and what
    it keeps of it. *)
Lemma stepPhysics_eases random (cells : list (Cell.t num))
    (organs : StrMap.t (Organ.t num)) dt i c :
  cells !! i = Some c → is_Some (StrMap.get organs (Cell.chain c)) →
  ∃ c', (stepPhysics random cells organs dt).1 !! i = Some c'
        ∧ Cell.chain c' = Cell.chain c
        ∧ Cell.targetRadius c' = Cell.targetRadius c
        ∧ Cell.radius c'
          = Cell.radius c + (Cell.targetRadius c - Cell.radius c) * lit 0.05.
Proof.
  intros Hc Ho. unfold stepPhysics. cbv zeta. simpl.
  set (cdt := nmin dt (lit 0.033)).
  set (organs' := stepOrgans cdt cells organs).
  set (f := λ c : Cell.t num, (Cell.chain c, Cell.targetRadius c, Cell.radius c)).
  assert (Ho' : is_Some (StrMap.get organs' (Cell.chain c))).
  { apply (get_is_Some_view (λ _, tt) organs); [|done]. by apply stepOrgans_view. }
  destruct Ho' as [o Ho'].
  pose proof (firstPass_pointwise random cdt organs' cells) as H1.
  destruct (Forall2_lookup_l _ _ _ i c H1 Hc) as (c1 & Hc1 & Hup).
  simpl in Hup. rewrite Ho' in Hup. destruct Hup as (g & store & r1 & r2 & ->).
  pose proof (secondPass_obs f (ltac:(done)) (ltac:(done))
                (firstPass random cdt organs' cells)) as H2.
  apply (f_equal (λ l, l !! i)) in H2. rewrite !list_lookup_fmap, Hc1 in H2.
  destruct (secondPass _ !! i) as [c2|] eqn:Hc2; [|done].
  exists c2. split; [done|]. simpl in H2. injection H2 as Hch Ht Hr.
  unfold updateCell, advanceWobble, easeRadius in *. cbv zeta in *. simpl in *.
  pose proof (moveCell_obs f (ltac:(done)) (ltac:(done)) (ltac:(done)) (ltac:(done))
                cdt o g store r1 r2 c) as Hm.
  injection Hm as Hm1 Hm2 Hm3.
  rewrite Hch, Ht, Hr, Hm1, Hm2, Hm3. done.
Qed.

(** A cell without an organ is skipped by the first loop: its radius is not
    eased. *)
Lemma stepPhysics_skips random (cells : list (Cell.t num))
    (organs : StrMap.t (Organ.t num)) dt i c :
  cells !! i = Some c → StrMap.get organs (Cell.chain c) = None →
  ∃ c', (stepPhysics random cells organs dt).1 !! i = Some c'
        ∧ Cell.radius c' = Cell.radius c.
Proof.
  intros Hc Ho.
  unfold stepPhysics. cbv zeta. simpl.
  set (cdt := nmin dt (lit 0.033)).
  set (organs' := stepOrgans cdt cells organs).
  assert (Ho' : StrMap.get organs' (Cell.chain c) = None).
  { apply eq_None_not_Some. intros Hs. apply eq_None_not_Some in Ho. apply Ho.
    apply (get_is_Some_view (λ _, tt) organs organs'); [|done].
    by apply stepOrgans_view. }
  pose proof (firstPass_pointwise random cdt organs' cells) as H1.
  destruct (Forall2_lookup_l _ _ _ i c H1 Hc) as (c1 & Hc1 & Hup).
  simpl in Hup. rewrite Ho' in Hup. subst c1.
  pose proof (secondPass_obs Cell.radius (ltac:(done)) (ltac:(done))
                (firstPass random cdt organs' cells)) as H2.
  apply (f_equal (λ l, l !! i)) in H2. rewrite !list_lookup_fmap, Hc1 in H2.
  destruct (secondPass _ !! i) as [c2|] eqn:Hc2; [|done].
  exists c2. split; [done|]. by injection H2.
Qed.
End Easing.

Section EasingLaw.
Local Open Scope R_scope.

(** The easing of one frame, repeated over any frames. *)
Lemma steps_radius (frames : list ((nat → R) * R)) (cells : list (Cell.t R))
    (organs : StrMap.t (Organ.t R)) (i : nat) (c : Cell.t R) :
  cells !! i = Some c → is_Some (StrMap.get organs (Cell.chain c)) →
  ∃ c', (steps frames cells organs).1 !! i = Some c'
        ∧ Cell.targetRadius c' = Cell.targetRadius c
        ∧ Cell.radius c'
          = Cell.targetRadius c
            + (Cell.radius c - Cell.targetRadius c) * 0.95 ^ length frames.
Proof.
  revert cells organs c.
  induction frames as [|[random dt] frames IH]; intros cells organs c Hc Ho.
  - exists c. split; [done|]. split; [done|]. simpl. lra.
  - cbn [steps length].
    destruct (stepPhysics_eases random cells organs dt i c Hc Ho)
      as (c1 & Hc1 & Hch & Ht & Hr).
    pose proof (stepPhysics_organs_view Organ.frame random cells organs dt
                  ltac:(done) ltac:(done) ltac:(done) ltac:(done)) as Hfr.
    destruct (stepPhysics random cells organs dt) as [cells1 organs1].
    simpl in Hc1, Hfr.
    destruct (IH cells1 organs1 c1 Hc1) as (c' & Hc' & Ht' & Hr').
    { rewrite Hch. by apply (get_is_Some_view Organ.frame organs organs1). }
    exists c'. split; [exact Hc'|]. split; [congruence|].
    rewrite Hr', Ht, Hr. unfold lit. cbn. lra.
Qed.

Lemma pow_095_bounds (n : nat) : 0 < 0.95 ^ n <= 1.
Proof.
  split; [apply pow_lt; lra|].
  induction n as [|n IH]; simpl; [lra|]. nra.
Qed.

Lemma pow_095_cv : Un_cv (λ n, 10 - 8 * 0.95 ^ n) 10.
Proof.
  intros eps Heps.
  destruct (pow_lt_1_zero 0.95 ltac:(rewrite Rabs_pos_eq; lra) (eps / 8) ltac:(lra))
    as [N HN].
  exists N. intros n Hn. specialize (HN n Hn).
  unfold Rdist. replace (10 - 8 * 0.95 ^ n - 10) with (- (8 * 0.95 ^ n)) by lra.
  rewrite Rabs_Ropp, Rabs_mult, (Rabs_pos_eq 8) by lra. lra.
Qed.

(** C8: for a cell that has an organ, each step moves the radius by the
    fraction [0.05] of what remains to [targetRadius]: the new radius is
    between the old one and the target, the distance to the target is
    multiplied by exactly [0.95], and over any sequence of frames the radius
    is [target + (radius - target) * 0.95^n].  From radius [2] and target
    [10] it is [10 - 8 * 0.95^n] after [n] frames: within [[2, 10)], strictly
    increasing with [n], and tending to [10]. *)
Theorem radius_easing (cells : list (Cell.t R)) (organs : StrMap.t (Organ.t R))
    (i : nat) (c : Cell.t R) :
  cells !! i = Some c → is_Some (StrMap.get organs (Cell.chain c)) →
  (∀ (random : nat → R) (dt : R),
     ∃ c', (stepPhysics random cells organs dt).1 !! i = Some c'
       ∧ Cell.targetRadius c' = Cell.targetRadius c
       ∧ Cell.radius c'
         = Cell.radius c + (Cell.targetRadius c - Cell.radius c) * 0.05
       ∧ Rmin (Cell.radius c) (Cell.targetRadius c) <= Cell.radius c'
         <= Rmax (Cell.radius c) (Cell.targetRadius c)
       ∧ Rabs (Cell.radius c' - Cell.targetRadius c')
         = 0.95 * Rabs (Cell.radius c - Cell.targetRadius c))
  ∧ (∀ frames : list ((nat → R) * R),
       ∃ c', (steps frames cells organs).1 !! i = Some c'
         ∧ Cell.radius c'
           = Cell.targetRadius c
             + (Cell.radius c - Cell.targetRadius c) * 0.95 ^ length frames)
  ∧ (Cell.radius c = 2 → Cell.targetRadius c = 10 →
     (∀ frames : list ((nat → R) * R),
        ∃ c', (steps frames cells organs).1 !! i = Some c'
          ∧ Cell.radius c' = 10 - 8 * 0.95 ^ length frames
          ∧ 2 <= Cell.radius c' < 10)
     ∧ (∀ n : nat, 10 - 8 * 0.95 ^ n < 10 - 8 * 0.95 ^ S n)
     ∧ Un_cv (λ n, 10 - 8 * 0.95 ^ n) 10).
Proof.
  intros Hc Ho. split; [|split].
  - intros random dt.
    destruct (stepPhysics_eases random cells organs dt i c Hc Ho)
      as (c' & Hc' & _ & Ht & Hr).
    exists c'. split; [done|]. split; [done|].
    assert (Hr' : Cell.radius c'
                  = Cell.radius c + (Cell.targetRadius c - Cell.radius c) * 0.05).
    { rewrite Hr. unfold lit. cbn. lra. }
    split; [done|]. rewrite Hr', Ht. split.
    + unfold Rmin, Rmax. destruct (Rle_dec (Cell.radius c) (Cell.targetRadius c)); lra.
    + replace (Cell.radius c + (Cell.targetRadius c - Cell.radius c) * 0.05
               - Cell.targetRadius c)
        with (0.95 * (Cell.radius c - Cell.targetRadius c)) by lra.
      rewrite Rabs_mult, (Rabs_pos_eq 0.95) by lra. done.
  - intros frames.
    destruct (steps_radius frames cells organs i c Hc Ho) as (c' & Hc' & _ & Hr).
    by exists c'.
  - intros H2 H10. split; [|split].
    + intros frames.
      destruct (steps_radius frames cells organs i c Hc Ho) as (c' & Hc' & _ & Hr).
      exists c'. split; [done|]. rewrite Hr, H2, H10.
      pose proof (pow_095_bounds (length frames)). split; lra.
    + intros n. pose proof (pow_095_bounds n). simpl. lra.
    + apply pow_095_cv.
Qed.

Lemma radius_easing_witness :
  ∃ c', (stepPhysics Ideal.still Ideal.cells Ideal.organs 0.016).1 !! 0%nat = Some c'
    ∧ Cell.targetRadius c' = 10
    ∧ Cell.radius c' = 2 + (10 - 2) * 0.05
    ∧ Rmin 2 10 <= Cell.radius c' <= Rmax 2 10
    ∧ Rabs (Cell.radius c' - Cell.targetRadius c') = 0.95 * Rabs (2 - 10).
Proof.
  apply (proj1 (radius_easing Ideal.cells Ideal.organs 0
                  (Ideal.cellAt "ETH-a" "ETH" 3 4 2 10) eq_refl
                  (ex_intro _ _ eq_refl))).
Defined.
End EasingLaw.

(** ** Containment *)

Section Containment.
Local Open Scope R_scope.

Lemma sqrt_sum_squares_scaled (a b k : R) :
  0 <= k → R_sqrt.sqrt (a * k * (a * k) + b * k * (b * k)) = R_sqrt.sqrt (a * a + b * b) * k.
Proof.
  intros Hk.
  replace (a * k * (a * k) + b * k * (b * k)) with ((a * a + b * b) * (k * k)) by ring.
  rewrite sqrt_mult by nra. by rewrite sqrt_square.
Qed.

(** The hard clamp of step 6 does put the cell within the containment
    radius it is given: the second loop, which moves cells after it, has no
    such clamp. *)
Lemma clamp2_contains (o : Organ.t R) (cr : R) (c : Cell.t R) :
  0 <= cr → distanceTo o (clamp2 o cr c) <= cr.
Proof.
  intros Hcr. unfold clamp2, distanceTo. cbv zeta. cbn -[R_sqrt.sqrt].
  set (dx := Cell.x c - Organ.x o). set (dy := Cell.y c - Organ.y o).
  set (d := R_sqrt.sqrt (dx * dx + dy * dy)).
  assert (Hd : 0 <= d) by apply sqrt_pos.
  unfold RealOps.ltb. destruct (Rlt_dec cr d) as [Hlt|Hge]; cbn -[R_sqrt.sqrt].
  - replace (Organ.x o + dx / (d + 1 / 100) * cr - Organ.x o)
      with (dx * (cr / (d + 1 / 100))) by (field; lra).
    replace (Organ.y o + dy / (d + 1 / 100) * cr - Organ.y o)
      with (dy * (cr / (d + 1 / 100))) by (field; lra).
    assert (Hk : 0 <= cr / (d + 1 / 100)).
    { apply Rmult_le_pos; [done|]. left. apply Rinv_0_lt_compat. lra. }
    rewrite sqrt_sum_squares_scaled by done. fold d.
    replace (d * (cr / (d + 1 / 100))) with (cr * (d / (d + 1 / 100))) by (field; lra).
    rewrite <- (Rmult_1_r cr) at 2. apply Rmult_le_compat_l; [done|].
    apply (Rmult_le_reg_r (d + 1 / 100)); [lra|].
    unfold Rdiv. rewrite Rmult_assoc, Rinv_l by lra. lra.
  - fold dx dy d. lra.
Qed.

End Containment.

(** C1, as the code has it.  Two cells of radius 20 of one organ, at [(30,
    0)] and [(29, 0)], one frame of 16 ms without noise, in binary64: both
    cells are within their containment radius after the first loop, and at
    the end of the step the first cell is more than 4 units beyond it,
    pushed there by the second loop, which does not clamp. *)
Theorem second_pass_breaks_containment :
  let organs' := (stepPhysics Scenario.still Scenario.crowded Scenario.eth 0.016%float).2 in
  let cappedDt := nmin 0.016%float (lit 0.033) in
  escapes 0%float organs'
    <$> firstPass Scenario.still cappedDt organs' Scenario.crowded = [false; false]
  ∧ escapes 4%float organs'
    <$> (stepPhysics Scenario.still Scenario.crowded Scenario.eth 0.016%float).1
    = [true; false].
Proof. vm_compute. split; reflexivity. Qed.

(** ** Division by zero and NaN *)

Create HintDb defined.

Section Defined.
Local Open Scope num_scope.
Implicit Types a b : option R.

Lemma defined_of_Z (z : Z) : is_Some (of_Z (num := option R) z).
Proof. by eexists. Qed.

Lemma defined_opp a : is_Some a → is_Some (- a).
Proof. intros [x ->]. by eexists. Qed.

Lemma defined_add a b : is_Some a → is_Some b → is_Some (a + b).
Proof. intros [x ->] [y ->]. by eexists. Qed.

Lemma defined_sub a b : is_Some a → is_Some b → is_Some (a - b).
Proof. intros [x ->] [y ->]. by eexists. Qed.

Lemma defined_mul a b : is_Some a → is_Some b → is_Some (a * b).
Proof. intros [x ->] [y ->]. by eexists. Qed.

Lemma defined_min a b : is_Some a → is_Some b → is_Some (nmin a b).
Proof. intros [x ->] [y ->]. by eexists. Qed.

Lemma defined_max a b : is_Some a → is_Some b → is_Some (nmax a b).
Proof. intros [x ->] [y ->]. by eexists. Qed.

(** The one operation that can fail on defined operands that the step
    applies to anything but a sum of squares: the denominator has to be
    shown positive. *)
Lemma defined_div a b : is_Some a → positive b → is_Some (a / b).
Proof.
  intros [x ->] (y & -> & Hy). simpl. unfold RealNaN.div.
  destruct (Req_dec_T y 0); [lra | by eexists].
Qed.

Lemma lit_value (q : Q) :
  lit (num := option R) q = Some (IZR (Qnum q) / IZR (Zpos (Qden q)))%R.
Proof.
  unfold lit. simpl. unfold RealNaN.div.
  destruct (Req_dec_T (IZR (Z.pos (Qden q))) 0) as [E|]; [|done].
  apply eq_IZR in E. lia.
Qed.

Lemma defined_lit (q : Q) : is_Some (lit (num := option R) q).
Proof. rewrite lit_value. by eexists. Qed.

Lemma positive_defined a : positive a → is_Some a.
Proof. intros (r & -> & _). by eexists. Qed.

Lemma nonnegative_defined a : nonnegative a → is_Some a.
Proof. intros (r & -> & _). by eexists. Qed.

Lemma nonnegative_distance a b :
  is_Some a → is_Some b → nonnegative (nsqrt (a * a + b * b)).
Proof.
  intros [x ->] [y ->]. simpl. unfold RealNaN.sqrt.
  destruct (Rlt_dec (x * x + y * y) 0); [nra|].
  eexists. split; [done|]. apply sqrt_pos.
Qed.

Lemma nonnegative_sqrt a : nonnegative a → nonnegative (nsqrt a).
Proof.
  intros (x & -> & Hx). simpl. unfold RealNaN.sqrt.
  destruct (Rlt_dec x 0); [lra|]. eexists. split; [done|]. apply sqrt_pos.
Qed.

(** A distance with the epsilon added is positive. *)
Lemma positive_epsilon a : nonnegative a → positive (a + lit 0.01).
Proof.
  intros (x & -> & Hx). rewrite lit_value. simpl.
  eexists. split; [done|]. lra.
Qed.

Lemma nonnegative_max_0 a : is_Some a → nonnegative (nmax (of_Z 0) a).
Proof. intros [x ->]. simpl. eexists. split; [done|]. apply Rmax_l. Qed.

Lemma nonnegative_count a : nonnegative a → nonnegative (a + of_Z 1).
Proof. intros (x & -> & Hx). simpl. eexists. split; [done|]. lra. Qed.

End Defined.

#[export] Hint Resolve defined_of_Z defined_opp defined_add defined_sub defined_mul
  defined_min defined_max defined_div defined_lit nonnegative_distance
  nonnegative_sqrt positive_epsilon nonnegative_max_0 nonnegative_count : defined.
#[export] Hint Resolve positive_defined nonnegative_defined | 10 : defined.

Section DefinedRecords.
Implicit Types (c : Cell.t (option R)) (o : Organ.t (option R)) (v : option R).

Lemma cell_defined_iff c :
  cell_defined c ↔
  is_Some (Cell.x c) ∧ is_Some (Cell.y c) ∧ is_Some (Cell.vx c) ∧ is_Some (Cell.vy c)
  ∧ is_Some (Cell.radius c) ∧ is_Some (Cell.targetRadius c)
  ∧ is_Some (Cell.wobblePhase c) ∧ is_Some (Cell.wobbleSpeed c)
  ∧ is_Some (Cell.born c) ∧ is_Some (Cell.lastUpdate c) ∧ is_Some (Cell.liquidity c).
Proof.
  unfold cell_defined, Cell_fields. rewrite !Forall_cons, Forall_nil. tauto.
Qed.

Lemma organ_defined_iff o :
  organ_defined o ↔
  is_Some (Organ.x o) ∧ is_Some (Organ.y o) ∧ is_Some (Organ.radius o)
  ∧ is_Some (Organ.wobblePhase o) ∧ is_Some (Organ.cellCount o).
Proof.
  unfold organ_defined, Organ_fields. rewrite !Forall_cons, Forall_nil. tauto.
Qed.

Lemma cell_defined_x c : cell_defined c → is_Some (Cell.x c).
Proof. rewrite cell_defined_iff. tauto. Qed.
Lemma cell_defined_y c : cell_defined c → is_Some (Cell.y c).
Proof. rewrite cell_defined_iff. tauto. Qed.
Lemma cell_defined_vx c : cell_defined c → is_Some (Cell.vx c).
Proof. rewrite cell_defined_iff. tauto. Qed.
Lemma cell_defined_vy c : cell_defined c → is_Some (Cell.vy c).
Proof. rewrite cell_defined_iff. tauto. Qed.
Lemma cell_defined_radius c : cell_defined c → is_Some (Cell.radius c).
Proof. rewrite cell_defined_iff. tauto. Qed.
Lemma cell_defined_targetRadius c : cell_defined c → is_Some (Cell.targetRadius c).
Proof. rewrite cell_defined_iff. tauto. Qed.
Lemma cell_defined_wobblePhase c : cell_defined c → is_Some (Cell.wobblePhase c).
Proof. rewrite cell_defined_iff. tauto. Qed.
Lemma cell_defined_wobbleSpeed c : cell_defined c → is_Some (Cell.wobbleSpeed c).
Proof. rewrite cell_defined_iff. tauto. Qed.

Lemma cell_defined_set_x v c : is_Some v → cell_defined c → cell_defined (Cell.set_x v c).
Proof. rewrite !cell_defined_iff. simpl. tauto. Qed.
Lemma cell_defined_set_y v c : is_Some v → cell_defined c → cell_defined (Cell.set_y v c).
Proof. rewrite !cell_defined_iff. simpl. tauto. Qed.
Lemma cell_defined_set_vx v c : is_Some v → cell_defined c → cell_defined (Cell.set_vx v c).
Proof. rewrite !cell_defined_iff. simpl. tauto. Qed.
Lemma cell_defined_set_vy v c : is_Some v → cell_defined c → cell_defined (Cell.set_vy v c).
Proof. rewrite !cell_defined_iff. simpl. tauto. Qed.
Lemma cell_defined_set_radius v c :
  is_Some v → cell_defined c → cell_defined (Cell.set_radius v c).
Proof. rewrite !cell_defined_iff. simpl. tauto. Qed.
Lemma cell_defined_set_wobblePhase v c :
  is_Some v → cell_defined c → cell_defined (Cell.set_wobblePhase v c).
Proof. rewrite !cell_defined_iff. simpl. tauto. Qed.

Lemma organ_defined_x o : organ_defined o → is_Some (Organ.x o).
Proof. rewrite organ_defined_iff. tauto. Qed.
Lemma organ_defined_y o : organ_defined o → is_Some (Organ.y o).
Proof. rewrite organ_defined_iff. tauto. Qed.
Lemma organ_defined_radius o : organ_defined o → is_Some (Organ.radius o).
Proof. rewrite organ_defined_iff. tauto. Qed.

Lemma organ_defined_set_x v o : is_Some v → organ_defined o → organ_defined (Organ.set_x v o).
Proof. rewrite !organ_defined_iff. simpl. tauto. Qed.
Lemma organ_defined_set_y v o : is_Some v → organ_defined o → organ_defined (Organ.set_y v o).
Proof. rewrite !organ_defined_iff. simpl. tauto. Qed.
Lemma organ_defined_set_radius v o :
  is_Some v → organ_defined o → organ_defined (Organ.set_radius v o).
Proof. rewrite !organ_defined_iff. simpl. tauto. Qed.
Lemma organ_defined_set_cellCount v o :
  is_Some v → organ_defined o → organ_defined (Organ.set_cellCount v o).
Proof. rewrite !organ_defined_iff. simpl. tauto. Qed.

End DefinedRecords.

#[export] Hint Resolve cell_defined_x cell_defined_y cell_defined_vx cell_defined_vy
  cell_defined_radius cell_defined_targetRadius cell_defined_wobblePhase
  cell_defined_wobbleSpeed cell_defined_set_x cell_defined_set_y cell_defined_set_vx
  cell_defined_set_vy cell_defined_set_radius cell_defined_set_wobblePhase
  organ_defined_x organ_defined_y organ_defined_radius organ_defined_set_x
  organ_defined_set_y organ_defined_set_radius organ_defined_set_cellCount : defined.

Ltac defined :=
  cbv zeta;
  unfold CELL_WOBBLE_FACTOR, ORGAN_OUTER_FACTOR, ORGAN_INNER_FACTOR,
    PHYSICS.DAMPING, PHYSICS.BROWNIAN_STRENGTH, PHYSICS.ORGAN_BASE_RADIUS,
    PHYSICS.ORGAN_GROWTH_PER_CELL, containmentRadius;
  repeat (destruct (nlt _ _));
  cbn [Cell.x Cell.y Cell.vx Cell.vy Cell.radius Cell.targetRadius Cell.wobblePhase
       Cell.wobbleSpeed Cell.set_x Cell.set_y Cell.set_vx Cell.set_vy Cell.set_radius
       Cell.set_wobblePhase Organ.x Organ.y Organ.radius Organ.cellCount Organ.set_x
       Organ.set_y Organ.set_radius Organ.set_cellCount];
  auto 30 with defined.

Section DefinedStep.
Local Open Scope num_scope.
Implicit Types (c other : Cell.t (option R)) (o : Organ.t (option R)).
Implicit Types (dt cr dxo dyo distOrgan r : option R).

Lemma repel1_defined c other :
  cell_defined c → cell_defined other → cell_defined (repel1 c other).
Proof. intros Hc Ho. unfold repel1. defined. Qed.

Lemma repel2_defined c other :
  cell_defined c → cell_defined other → cell_defined (repel2 c other).
Proof. intros Hc Ho. unfold repel2. defined. Qed.

Lemma forNeighbors_defined body (store : list (Cell.t (option R))) neighbors c :
  (∀ c other, cell_defined c → cell_defined other → cell_defined (body c other)) →
  Forall cell_defined store → cell_defined c →
  cell_defined (forNeighbors body store neighbors c).
Proof.
  intros Hbody Hstore. unfold forNeighbors. revert c.
  induction neighbors as [|j js IH]; intros c Hc; simpl; [done|].
  apply IH. destruct (store !! j) as [other|] eqn:E; [|done].
  apply Hbody; [done|]. by eapply Forall_lookup_1.
Qed.

Lemma clamp1_defined o cr dxo dyo distOrgan c :
  organ_defined o → is_Some cr → is_Some dxo → is_Some dyo → positive distOrgan →
  cell_defined c → cell_defined (clamp1 o cr dxo dyo distOrgan c).
Proof. intros. unfold clamp1. defined. Qed.

Lemma inwardPull_defined dt cr dxo dyo distOrgan c :
  is_Some dt → nonnegative cr → is_Some dxo → is_Some dyo → positive distOrgan →
  cell_defined c → cell_defined (inwardPull dt cr dxo dyo distOrgan c).
Proof. intros. unfold inwardPull. defined. Qed.

Lemma brownian_defined (r1 r2 : option R) c :
  is_Some r1 → is_Some r2 → cell_defined c → cell_defined (brownian r1 r2 c).
Proof. intros. unfold brownian. defined. Qed.

Lemma damp_defined c : cell_defined c → cell_defined (damp c).
Proof. intros. unfold damp. defined. Qed.

Lemma integrate_defined dt c : is_Some dt → cell_defined c → cell_defined (integrate dt c).
Proof. intros. unfold integrate. defined. Qed.

Lemma clamp2_defined o cr c :
  organ_defined o → is_Some cr → cell_defined c → cell_defined (clamp2 o cr c).
Proof. intros. unfold clamp2. defined. Qed.

Lemma easeRadius_defined c : cell_defined c → cell_defined (easeRadius c).
Proof. intros. unfold easeRadius. defined. Qed.

Lemma advanceWobble_defined dt c :
  is_Some dt → cell_defined c → cell_defined (advanceWobble dt c).
Proof. intros. unfold advanceWobble. defined. Qed.

Lemma updateCell_defined dt o g (store : list (Cell.t (option R)))
    (r1 r2 : option R) c :
  is_Some dt → organ_defined o → Forall cell_defined store →
  is_Some r1 → is_Some r2 → cell_defined c →
  cell_defined (updateCell dt o g store r1 r2 c).
Proof.
  intros Hdt Ho Hstore Hr1 Hr2 Hc. unfold updateCell, moveCell. cbv zeta.
  apply advanceWobble_defined, easeRadius_defined, clamp2_defined,
    integrate_defined, damp_defined, brownian_defined; try done;
    [unfold containmentRadius; defined|].
  apply forNeighbors_defined; [apply repel1_defined | done |].
  apply inwardPull_defined; [done | unfold containmentRadius; defined | defined ..|].
  apply clamp1_defined; [done | unfold containmentRadius; defined | defined ..| done].
Qed.

Lemma get_defined (organs : StrMap.t (Organ.t (option R))) k o :
  Forall (λ kv, organ_defined kv.2) organs → StrMap.get organs k = Some o →
  organ_defined o.
Proof.
  induction 1 as [|[k' o'] m Ho' _ IH]; simpl; [done|].
  destruct (String.eqb k' k); [by intros [= <-] | done].
Qed.

Lemma firstPass_defined random dt (organs : StrMap.t (Organ.t (option R)))
    (cells : list (Cell.t (option R))) :
  (∀ k, is_Some (random k)) → is_Some dt →
  Forall (λ kv, organ_defined kv.2) organs → Forall cell_defined cells →
  Forall cell_defined (firstPass random dt organs cells).
Proof.
  intros Hrandom Hdt Horgans Hcells. unfold firstPass.
  apply (fold_left_invariant (λ st : list (Cell.t (option R)) * nat,
                                Forall cell_defined st.1)); [|done].
  intros [store k] i Hstore. simpl in Hstore. unfold stepCell.
  destruct (store !! i) as [c|] eqn:Ec; [|done].
  destruct (StrMap.get organs (Cell.chain c)) as [o|] eqn:Eo; [|done].
  simpl. apply Forall_insert; [done|].
  apply updateCell_defined; try done.
  - by eapply get_defined.
  - by eapply Forall_lookup_1.
Qed.

Lemma secondPass_defined (cells : list (Cell.t (option R))) :
  Forall cell_defined cells → Forall cell_defined (secondPass cells).
Proof.
  intros Hcells. unfold secondPass.
  apply (fold_left_invariant (Forall cell_defined)); [|done].
  intros store i Hstore. unfold declutterCell.
  destruct (store !! i) as [c|] eqn:Ec; [|done].
  apply Forall_insert; [done|].
  apply forNeighbors_defined; [apply repel2_defined | done |].
  by eapply Forall_lookup_1.
Qed.

(** *** Organs *)

Lemma update_Forall (P : Organ.t (option R) → Prop) f k
    (m : StrMap.t (Organ.t (option R))) :
  (∀ o, P o → P (f o)) →
  Forall (λ kv, P kv.2) m → Forall (λ kv, P kv.2) (StrMap.update f k m).
Proof.
  intros Hf. induction 1 as [|[k' o] m Ho Hm IH]; simpl; [done|].
  destruct (String.eqb k' k); constructor; simpl in *; auto.
Qed.

Lemma recount_defined (cells : list (Cell.t (option R)))
    (m : StrMap.t (Organ.t (option R))) :
  Forall (λ kv, organ_defined kv.2) m →
  Forall (λ kv, organ_counted kv.2) (recount cells m).
Proof.
  intros Hm. unfold recount.
  assert (H0 : Forall (λ kv, organ_counted kv.2)
                 (StrMap.for_values (Organ.set_cellCount (of_Z 0)) m)).
  { unfold StrMap.for_values. apply Forall_fmap.
    eapply Forall_impl; [exact Hm|]. intros [k o] Ho. simpl in *. split.
    - auto with defined.
    - exists 0%R. split; [done|]. lra. }
  revert H0. generalize (StrMap.for_values (Organ.set_cellCount (of_Z 0)) m).
  clear m Hm. induction cells as [|c cells IH]; intros m Hm; [done|].
  cbn [fold_left]. apply IH, update_Forall; [|done].
  intros o [Ho Hn]. split; cbn [Organ.cellCount Organ.set_cellCount];
    auto with defined.
Qed.

Lemma growRadius_defined o : organ_counted o → organ_defined (growRadius o).
Proof. intros [Ho Hn]. unfold growRadius. defined. Qed.

Lemma pullOrgan_defined dt cx cy o :
  is_Some dt → is_Some cx → is_Some cy → organ_defined o →
  organ_defined (pullOrgan dt cx cy o).
Proof. intros. unfold pullOrgan. defined. Qed.

(** The centroid divides by the number of organs: it is defined when there
    is at least one. *)
Lemma centroid_defined (organList : list (Organ.t (option R))) :
  organList ≠ [] → Forall organ_defined organList →
  is_Some (centroid organList).1 ∧ is_Some (centroid organList).2.
Proof.
  intros Hne Hall. unfold centroid.
  assert (Hsum : ∀ (l : list (Organ.t (option R))) acc,
            Forall organ_defined l → is_Some acc.1 → is_Some acc.2 →
            is_Some (fold_left (λ '(cx, cy) o, (cx + Organ.x o, cy + Organ.y o)) l acc).1
            ∧ is_Some (fold_left (λ '(cx, cy) o, (cx + Organ.x o, cy + Organ.y o)) l acc).2).
  { induction l as [|o l IH]; intros [cx cy] Hl H1 H2; [done|].
    apply Forall_cons in Hl as [Ho Hl]. cbn [fold_left fst snd] in *.
    apply IH; cbn [fst snd]; auto with defined. }
  destruct (Hsum organList (of_Z 0, of_Z 0) Hall) as [Hx Hy]; [by eexists ..|].
  destruct (fold_left _ organList _) as [cx cy]. simpl in *.
  assert (Hn : positive (of_Z (Z.of_nat (length organList)))).
  { eexists. split; [done|]. apply IZR_lt. destruct organList; [done|]. simpl. lia. }
  split; auto with defined.
Qed.

Lemma gravity_defined dt (m : StrMap.t (Organ.t (option R))) :
  is_Some dt → Forall (λ kv, organ_defined kv.2) m →
  Forall (λ kv, organ_defined kv.2) (gravity dt m).
Proof.
  intros Hdt Hm. unfold gravity.
  destruct m as [|kv m]; [by destruct (centroid _)|].
  destruct (centroid_defined (StrMap.values (kv :: m))) as [Hx Hy]; [done| |].
  { unfold StrMap.values. by apply Forall_fmap. }
  destruct (centroid _) as [cx cy]. unfold StrMap.for_values. apply Forall_fmap.
  eapply Forall_impl; [exact Hm|]. intros [k o] Ho. simpl in *.
  by apply pullOrgan_defined.
Qed.

Lemma repelOrgans_defined (m : StrMap.t (Organ.t (option R))) ij :
  Forall (λ kv, organ_defined kv.2) m →
  Forall (λ kv, organ_defined kv.2) (repelOrgans m ij).
Proof.
  intros Hm. unfold repelOrgans.
  destruct (m !! ij.1) as [[ka a]|] eqn:Ea; [|done].
  destruct (m !! ij.2) as [[kb b]|] eqn:Eb; [|done].
  pose proof (Forall_lookup_1 _ _ _ _ Hm Ea) as Ha.
  pose proof (Forall_lookup_1 _ _ _ _ Hm Eb) as Hb. simpl in Ha, Hb.
  cbv zeta. destruct (nlt _ _); [|done].
  apply Forall_insert; [apply Forall_insert; [done|]|]; cbn [snd]; defined.
Qed.

Lemma stepOrgans_defined dt (cells : list (Cell.t (option R)))
    (m : StrMap.t (Organ.t (option R))) :
  is_Some dt → Forall (λ kv, organ_defined kv.2) m →
  Forall (λ kv, organ_defined kv.2) (stepOrgans dt cells m).
Proof.
  intros Hdt Hm. unfold stepOrgans, organRepulsion.
  apply (fold_left_invariant (Forall (λ kv, organ_defined kv.2)));
    [intros; by apply repelOrgans_defined|].
  apply gravity_defined; [done|]. unfold StrMap.for_values. apply Forall_fmap.
  eapply Forall_impl; [by apply recount_defined|].
  intros [k o] Ho. by apply growRadius_defined.
Qed.

(** C9, as the code has it: in exact arithmetic.  When every number of the
    input state, the frame time and the draws are defined, every number
    [stepPhysics] stores is defined: no division by zero and no square root
    of a negative number is on the way to a stored field, whatever the
    positions are, coincident cells, a cell at the centre of its organ and
    coincident organs included.  The denominators are a distance plus
    [0.01], a containment radius plus [0.01], and the number of organs. *)
Theorem stepPhysics_defined (random : nat → option R)
    (cells : list (Cell.t (option R))) (organs : StrMap.t (Organ.t (option R)))
    (dt : option R) :
  (∀ k, is_Some (random k)) → is_Some dt →
  Forall cell_defined cells → Forall (λ kv, organ_defined kv.2) organs →
  Forall cell_defined (stepPhysics random cells organs dt).1
  ∧ Forall (λ kv, organ_defined kv.2) (stepPhysics random cells organs dt).2.
Proof.
  intros Hrandom Hdt Hcells Horgans. unfold stepPhysics. cbv zeta. simpl fst. simpl snd.
  assert (Hcap : is_Some (nmin dt (lit 0.033))) by auto with defined.
  assert (Horgans' : Forall (λ kv, organ_defined kv.2)
                       (stepOrgans (nmin dt (lit 0.033)) cells organs))
    by (by apply stepOrgans_defined).
  split; [|done].
  by apply secondPass_defined, firstPass_defined.
Qed.

End DefinedStep.

Lemma stepPhysics_defined_witness :
  Forall cell_defined
    (stepPhysics Degenerate.still Degenerate.cells Degenerate.organs (Some 0.016%R)).1
  ∧ Forall (λ kv, organ_defined kv.2)
      (stepPhysics Degenerate.still Degenerate.cells Degenerate.organs (Some 0.016%R)).2.
Proof.
  apply stepPhysics_defined.
  - intros k. by eexists.
  - by eexists.
  - repeat constructor; by eexists.
  - repeat constructor; by eexists.
Defined.

(** With no organ the centroid is [0 / 0]; it is not stored. *)
Lemma centroid_of_no_organ : centroid (num := option R) [] = (None, None).
Proof.
  unfold centroid. simpl. unfold RealNaN.div.
  by destruct (Req_dec_T _ _).
Qed.

(** C9 as stated does not hold.  In binary64, from a state whose numbers
    are all finite, one cell at [x = 1e200], the step stores NaN at the
    position and the velocity of the cell: [dxo * dxo] overflows, [distOrgan]
    is infinite, and [(-dxo / distOrgan) * pullStrength] is [0 * Infinity].
    And with no organ the centroid is [0 / 0], a division by zero in exact
    arithmetic and NaN in binary64. *)
Lemma nan_from_finite_state :
  Scenario.all_finite <$> Scenario.faraway = [true]
  ∧ Scenario.has_nan
      <$> (stepPhysics Scenario.still Scenario.faraway Scenario.eth 0.016%float).1
    = [true]
  ∧ PrimFloat.is_nan (centroid (num := float) []).1 = true
  ∧ centroid (num := option R) [] = (None, None).
Proof.
  split; [|split; [|split]]; [vm_compute; reflexivity .. | apply centroid_of_no_organ].
Qed.

(** ** Coincident and overlapping cells *)

Section Repulsion.
Local Open Scope R_scope.

(** Over the reals, whatever the radii: against a cell at the same
    coordinates the normal [(dx / dist, dy / dist)] is the zero vector, and
    neither repulsion changes the cell. *)
Lemma repel_coincident (c other : Cell.t R) :
  Cell.x other = Cell.x c → Cell.y other = Cell.y c →
  repel1 c other = c ∧ repel2 c other = c.
Proof.
  intros Hx Hy. unfold repel1, repel2. cbv zeta. rewrite Hx, Hy.
  destruct c as [id ch pa la x y vx vy r tr co wp ws bo lu li].
  cbn -[R_sqrt.sqrt].
  replace (x - x) with 0 by lra. replace (y - y) with 0 by lra.
  split; destruct (RealOps.ltb _ _); try done; unfold Cell.set_x, Cell.set_y,
    Cell.set_vx, Cell.set_vy; cbn -[R_sqrt.sqrt]; f_equal; unfold Rdiv; ring.
Qed.

(** Moving a cell away from another along their offset, by a positive
    multiple of it, increases their distance. *)
Lemma pushed_apart (c c' other : Cell.t R) (k : R) :
  0 < k → 0 < separation c other →
  Cell.x c' = Cell.x c + (Cell.x c - Cell.x other) * k →
  Cell.y c' = Cell.y c + (Cell.y c - Cell.y other) * k →
  separation c other < separation c' other.
Proof.
  intros Hk Hd Hx Hy. unfold separation in *. cbn -[R_sqrt.sqrt] in *.
  rewrite Hx, Hy.
  set (dx := Cell.x c - Cell.x other) in *. set (dy := Cell.y c - Cell.y other) in *.
  replace (Cell.x c + dx * k - Cell.x other) with (dx * (1 + k)) by (unfold dx; ring).
  replace (Cell.y c + dy * k - Cell.y other) with (dy * (1 + k)) by (unfold dy; ring).
  rewrite sqrt_sum_squares_scaled by lra. nra.
Qed.

Lemma repel_distinct (c other : Cell.t R) :
  0 < separation c other → separation c other + 0.01 < minDist c other →
  separation c other < separation (repel1 c other) other
  ∧ separation c other < separation (repel2 c other) other.
Proof.
  intros Hd Hov.
  assert (Hlt : ∀ gain : R, 0 < gain →
            0 < (minDist c other - (separation c other + 1 / 100))
                / (separation c other + 1 / 100) * gain).
  { intros gain Hg. apply Rmult_lt_0_compat; [|done].
    apply Rdiv_lt_0_compat; lra. }
  assert (Hov' : separation c other + 1 / 100 < minDist c other) by lra.
  unfold repel1, repel2. cbv zeta.
  change (nlt (nadd (nsqrt _) (lit 0.01)) _)
    with (RealOps.ltb (separation c other + 1 / 100) (minDist c other)).
  unfold RealOps.ltb. destruct (Rlt_dec _ _) as [_|Hn]; [|done].
  pose proof (sqrt_pos ((Cell.x c - Cell.x other) * (Cell.x c - Cell.x other)
                        + (Cell.y c - Cell.y other) * (Cell.y c - Cell.y other))) as Hs.
  split.
  - apply (pushed_apart c _ other _ (Hlt (6 / 10) ltac:(lra))); [done | |];
      unfold separation, minDist; cbn -[R_sqrt.sqrt]; field; lra.
  - apply (pushed_apart c _ other _ (Hlt (55 / 100) ltac:(lra))); [done | |];
      unfold separation, minDist; cbn -[R_sqrt.sqrt]; field; lra.
Qed.

(** C2, as the code has it.  For two cells at exactly the same coordinates,
    whatever their radii, one application of either repulsion produces no
    undefined value and changes nothing: the separation stays zero.  For two
    cells at different coordinates that are within [minDist] of each other,
    one application of either repulsion to one of them strictly increases
    the distance between their centres. *)
Theorem repulsion_law :
  (∀ c other : Cell.t R,
     Cell.x other = Cell.x c → Cell.y other = Cell.y c →
     repel1 c other = c ∧ repel2 c other = c)
  ∧ (∀ c other : Cell.t (option R),
       cell_defined c → cell_defined other →
       cell_defined (repel1 c other) ∧ cell_defined (repel2 c other))
  ∧ (∀ c other : Cell.t R,
       0 < separation c other → separation c other + 0.01 < minDist c other →
       separation c other < separation (repel1 c other) other
       ∧ separation c other < separation (repel2 c other) other).
Proof.
  split; [|split].
  - apply repel_coincident.
  - intros c other Hc Ho. split; [by apply repel1_defined | by apply repel2_defined].
  - apply repel_distinct.
Qed.

Lemma repulsion_law_witness :
  separation (Ideal.cellAt "ETH-a" "ETH" 3 4 5 5) (Ideal.cellAt "ETH-b" "ETH" 0 0 5 5)
  < separation (repel1 (Ideal.cellAt "ETH-a" "ETH" 3 4 5 5)
                       (Ideal.cellAt "ETH-b" "ETH" 0 0 5 5))
               (Ideal.cellAt "ETH-b" "ETH" 0 0 5 5)
  ∧ separation (Ideal.cellAt "ETH-a" "ETH" 3 4 5 5) (Ideal.cellAt "ETH-b" "ETH" 0 0 5 5)
    < separation (repel2 (Ideal.cellAt "ETH-a" "ETH" 3 4 5 5)
                         (Ideal.cellAt "ETH-b" "ETH" 0 0 5 5))
                 (Ideal.cellAt "ETH-b" "ETH" 0 0 5 5).
Proof.
  assert (Hsep : separation (Ideal.cellAt "ETH-a" "ETH" 3 4 5 5)
                            (Ideal.cellAt "ETH-b" "ETH" 0 0 5 5) = 5).
  { unfold separation. cbn -[R_sqrt.sqrt].
    replace ((3 - 0) * (3 - 0) + (4 - 0) * (4 - 0)) with (5 * 5) by lra.
    apply sqrt_square. lra. }
  apply (proj2 (proj2 repulsion_law)).
  - rewrite Hsep. lra.
  - rewrite Hsep. unfold minDist. cbn. lra.
Defined.

End Repulsion.

(** C2 as stated does not hold in binary64.  Two cells of radius 5 both at [(3, 4)],
    at distance zero: each is the neighbour of the other, the repulsion of
    the first loop leaves the first cell as it is, the second loop leaves
    both cells as they are, and a whole step with [dt = 0] ends with both
    still at [(3, 4)] under a noise that differs from draw to draw.  No NaN,
    and a separation that stays zero. *)
Lemma coincident_cells_are_not_separated :
  separation (Scenario.cellAt "ETH-a" "ETH" 3 4 5) (Scenario.cellAt "ETH-b" "ETH" 3 4 5)
  = 0%float
  ∧ SpatialGrid.getNeighbors (SpatialGrid.rebuild grid Scenario.coincident)
      Scenario.coincident (Scenario.cellAt "ETH-a" "ETH" 3 4 5) = [1%nat]
  ∧ forNeighbors repel1 Scenario.coincident
      (SpatialGrid.getNeighbors (SpatialGrid.rebuild grid Scenario.coincident)
         Scenario.coincident (Scenario.cellAt "ETH-a" "ETH" 3 4 5))
      (Scenario.cellAt "ETH-a" "ETH" 3 4 5)
    = Scenario.cellAt "ETH-a" "ETH" 3 4 5
  ∧ secondPass Scenario.coincident = Scenario.coincident
  ∧ Scenario.position
      <$> (stepPhysics Scenario.jitter Scenario.coincident Scenario.eth 0%float).1
    = [(3, 4); (3, 4)]%float
  ∧ Scenario.has_nan
      <$> (stepPhysics Scenario.jitter Scenario.coincident Scenario.eth 0%float).1
    = [false; false].
Proof. vm_compute. repeat split; reflexivity. Qed.

(** ** The cap on the frame time *)

Section Traced.
Context {A St : Type}.

End Traced.

Section TracedPasses.
Context {num : Type} `{Number num}.




End TracedPasses.

Section CappedStep.
Local Open Scope R_scope.












End CappedStep.

(** ** Binary64 runs of the model *)

(** The decimal literals of the source read as [lit] gives them. *)
Example lit_reads_as_the_literal :
  [lit 0.033; lit 0.01; lit 1.25; lit 1.15; lit 0.85; lit 0.88; lit 0.03;
   lit 0.4; lit 0.02; lit 0.5; lit 0.05; lit 0.6; lit 0.3; lit 0.55]
  = [0.033; 0.01; 1.25; 1.15; 0.85; 0.88; 0.03; 0.4; 0.02; 0.5; 0.05; 0.6; 0.3;
     0.55]%float.
Proof. vm_compute. reflexivity. Qed.

(** [Math.floor], [Math.min] and [Math.max] on the values that matter. *)
Example floor_min_max :
  Float64.floor <$> [0.44; -0.5; 2; -3; 2.5; -2.5; 1e300; neg_infinity]%float
  = [0; -1; 2; -3; 2; -3; 1e300; neg_infinity]%float
  ∧ PrimFloat.is_nan (Float64.floor nan) = true
  ∧ Float64.min 5 0.033 = 0.033%float
  ∧ Float64.max 0 (-3) = 0%float
  ∧ PrimFloat.is_nan (Float64.max 0 nan) = true.
Proof. vm_compute. repeat split; reflexivity. Qed.

(** A stalled tab: a frame of five seconds is the frame of 33 ms. *)
Example stalled_tab :
  stepPhysics Scenario.jitter Scenario.crowded Scenario.eth 5%float
  = stepPhysics Scenario.jitter Scenario.crowded Scenario.eth 0.033%float.
Proof. vm_compute. reflexivity. Qed.

(** One frame of one cell from radius 2 towards 10. *)
Example one_eased_frame :
  Cell.radius
    <$> (stepPhysics Scenario.still
           [Cell.mk "ETH-a" "ETH" "a" "A/B" 0 0 0 0 2 10 "#627EEA" 0 1 0 0 1000]%float
           Scenario.eth 0.016%float).1
  = [2.4]%float.
Proof. vm_compute. reflexivity. Qed.

(** Two coincident cells of one organ, away from its centre, over one frame
    of 16 ms without noise: the first loop moves the first cell before it
    repels the second one from it, and the step ends with the two apart. *)
Example coincident_cells_part_in_a_frame :
  match (stepPhysics Scenario.still Scenario.coincident Scenario.eth 0.016%float).1 with
  | [a; b] => PrimFloat.ltb 10 (separation a b)
  | _ => false
  end = true.
Proof. vm_compute. reflexivity. Qed.

(** * Further properties of the step *)

Section CellsOfAStep.
Context {num : Type} `{Number num}.
Local Open Scope num_scope.

Lemma but_position_eq (c c' : Cell.t num) :
  but_position c' = but_position c →
  c' = Cell.set_y (Cell.y c') (Cell.set_x (Cell.x c') c).
Proof.
  destruct c, c'. unfold but_position, Cell.frame, Cell.set_x, Cell.set_y. simpl.
  intros [= -> -> -> -> -> -> -> -> -> -> -> -> -> ->]. done.
Qed.

(** The cells of the result of a step, through an observer of the fields
    the step does not write. *)
Lemma stepPhysics_cells_obs {A : Type} (f : Cell.t num → A)
    (random : nat → num) (cells : list (Cell.t num))
    (organs : StrMap.t (Organ.t num)) (dt : num) :
  (∀ v c, f (Cell.set_x v c) = f c) →
  (∀ v c, f (Cell.set_y v c) = f c) →
  (∀ v c, f (Cell.set_vx v c) = f c) →
  (∀ v c, f (Cell.set_vy v c) = f c) →
  (∀ v c, f (Cell.set_radius v c) = f c) →
  (∀ v c, f (Cell.set_wobblePhase v c) = f c) →
  f <$> (stepPhysics random cells organs dt).1 = f <$> cells.
Proof.
  intros. unfold stepPhysics. cbv zeta. simpl.
  rewrite secondPass_obs by done. by apply firstPass_obs.
Qed.

(** X1: the second loop over the cells, which resolves the overlaps left
    after the integration, assigns only [x] and [y]: every cell of its
    result is the cell it was, at the same index, but for its position.
    Over any numbers, binary64 included. *)
Theorem second_pass_only_moves (cells : list (Cell.t num)) :
  Forall2 (λ c c', c' = Cell.set_y (Cell.y c') (Cell.set_x (Cell.x c') c))
          cells (secondPass cells).
Proof.
  eapply Forall2_impl; [apply secondPass_pointwise|].
  intros c c' (store & neighbors & ->). apply but_position_eq.
  apply forNeighbors_obs. intros c0 other. by apply repel2_obs.
Qed.

(** X2: a cell whose chain has no organ is skipped by the first loop and
    not by the second: through a whole step it keeps its velocity, its
    radius, its wobble phase and every other field, and at most its position
    changes. *)
Theorem cell_without_organ_only_moves (random : nat → num)
    (cells : list (Cell.t num)) (organs : StrMap.t (Organ.t num)) (dt : num)
    (i : nat) (c : Cell.t num) :
  cells !! i = Some c → StrMap.get organs (Cell.chain c) = None →
  ∃ c', (stepPhysics random cells organs dt).1 !! i = Some c'
        ∧ c' = Cell.set_y (Cell.y c') (Cell.set_x (Cell.x c') c).
Proof.
  intros Hc Ho. unfold stepPhysics. cbv zeta. simpl.
  set (cdt := nmin dt (lit 0.033)).
  set (organs' := stepOrgans cdt cells organs).
  assert (Ho' : StrMap.get organs' (Cell.chain c) = None).
  { apply eq_None_not_Some. intros Hs. apply eq_None_not_Some in Ho. apply Ho.
    apply (get_is_Some_view (λ _, tt) organs organs'); [|done].
    by apply stepOrgans_view. }
  pose proof (firstPass_pointwise random cdt organs' cells) as H1.
  destruct (Forall2_lookup_l _ _ _ i c H1 Hc) as (c1 & Hc1 & Hup).
  simpl in Hup. rewrite Ho' in Hup. subst c1.
  pose proof (secondPass_obs but_position (ltac:(done)) (ltac:(done))
                (firstPass random cdt organs' cells)) as H2.
  apply (f_equal (λ l, l !! i)) in H2. rewrite !list_lookup_fmap, Hc1 in H2.
  destruct (secondPass _ !! i) as [c2|] eqn:Hc2; [|done].
  exists c2. split; [done|]. apply but_position_eq. simpl in H2. congruence.
Qed.

(** X3: a step advances the wobble phase of a cell that has an organ by
    [wobbleSpeed * min(dt, 0.033)], with the wobble speed and the phase it
    had before the step: nothing else in the step writes either.  Over any
    numbers, so bit for bit in binary64. *)
Theorem wobble_phase_law (random : nat → num)
    (cells : list (Cell.t num)) (organs : StrMap.t (Organ.t num)) (dt : num)
    (i : nat) (c : Cell.t num) :
  cells !! i = Some c → is_Some (StrMap.get organs (Cell.chain c)) →
  ∃ c', (stepPhysics random cells organs dt).1 !! i = Some c'
        ∧ Cell.wobblePhase c'
          = Cell.wobblePhase c + Cell.wobbleSpeed c * nmin dt (lit 0.033).
Proof.
  intros Hc Ho. unfold stepPhysics. cbv zeta. simpl.
  set (cdt := nmin dt (lit 0.033)).
  set (organs' := stepOrgans cdt cells organs).
  set (f := λ c : Cell.t num, (Cell.wobblePhase c, Cell.wobbleSpeed c)).
  assert (Ho' : is_Some (StrMap.get organs' (Cell.chain c))).
  { apply (get_is_Some_view (λ _, tt) organs); [|done]. by apply stepOrgans_view. }
  destruct Ho' as [o Ho'].
  pose proof (firstPass_pointwise random cdt organs' cells) as H1.
  destruct (Forall2_lookup_l _ _ _ i c H1 Hc) as (c1 & Hc1 & Hup).
  simpl in Hup. rewrite Ho' in Hup. destruct Hup as (g & store & r1 & r2 & ->).
  pose proof (secondPass_obs f (ltac:(done)) (ltac:(done))
                (firstPass random cdt organs' cells)) as H2.
  apply (f_equal (λ l, l !! i)) in H2. rewrite !list_lookup_fmap, Hc1 in H2.
  destruct (secondPass _ !! i) as [c2|] eqn:Hc2; [|done].
  exists c2. split; [done|]. simpl in H2. injection H2 as Hw Hs.
  unfold updateCell, advanceWobble, easeRadius in *. cbv zeta in *. simpl in *.
  pose proof (moveCell_obs f (ltac:(done)) (ltac:(done)) (ltac:(done)) (ltac:(done))
                cdt o g store r1 r2 c) as Hm.
  injection Hm as Hm1 Hm2.
  rewrite Hw, Hm1, Hm2. done.
Qed.

End CellsOfAStep.

Lemma cell_without_organ_only_moves_witness :
  ∃ c', (stepPhysics Ideal.still Ideal.cells Example.baseOnly
           0.016%R).1 !! 0%nat = Some c'
        ∧ c' = Cell.set_y (Cell.y c')
                 (Cell.set_x (Cell.x c') (Ideal.cellAt "ETH-a" "ETH" 3 4 2 10)).
Proof.
  apply (cell_without_organ_only_moves Ideal.still Ideal.cells
           Example.baseOnly 0.016%R 0).
  - reflexivity.
  - reflexivity.
Defined.

Lemma wobble_phase_law_witness :
  ∃ c', (stepPhysics Ideal.still Ideal.cells Ideal.organs 0.016%R).1 !! 0%nat = Some c'
        ∧ Cell.wobblePhase c'
          = (Cell.wobblePhase (Ideal.cellAt "ETH-a" "ETH" 3 4 2 10)
             + Cell.wobbleSpeed (Ideal.cellAt "ETH-a" "ETH" 3 4 2 10)
               * nmin 0.016%R (lit 0.033))%num.
Proof.
  apply (wobble_phase_law Ideal.still Ideal.cells Ideal.organs 0.016%R 0).
  - reflexivity.
  - by eexists.
Defined.

Section RealPhysics.
Local Open Scope R_scope.

(** X4: over the reals, at the end of the first loop every cell that has an
    organ is within the containment radius that the loop computed for it,
    from the radius the cell had before its easing and the organ as the
    organ loops left it; that radius is not negative.  (It is the second
    loop that can move a cell out again.) *)
Theorem first_loop_contains (random : nat → R) (dt : R)
    (organs : StrMap.t (Organ.t R)) (cells : list (Cell.t R)) :
  Forall2 (λ c c', ∀ o, StrMap.get organs (Cell.chain c) = Some o →
             0 <= containmentRadius o c
             ∧ distanceTo o c' <= containmentRadius o c)
          cells (firstPass random dt organs cells).
Proof.
  eapply Forall2_impl; [apply firstPass_pointwise|].
  intros c c' Hup o Ho. simpl in Hup. rewrite Ho in Hup.
  destruct Hup as (g & store & r1 & r2 & ->).
  assert (Hcr : 0 <= containmentRadius o c) by apply Rmax_l.
  split; [done|].
  unfold updateCell, advanceWobble, easeRadius, moveCell. cbv zeta.
  set (c5 := integrate _ _).
  change (distanceTo o (clamp2 o (containmentRadius o c) c5) <= containmentRadius o c).
  by apply clamp2_contains.
Qed.

Lemma repel2_separated (c other : Cell.t R) :
  minDist c other <= separation c other + 0.01 → repel2 c other = c.
Proof.
  unfold minDist, separation, repel2. cbv zeta. cbn -[R_sqrt.sqrt].
  intros Hsep. unfold RealOps.ltb. destruct (Rlt_dec _ _) as [Hlt|]; [|done].
  exfalso. lra.
Qed.

(** X5: over the reals, the second loop changes nothing when no correction
    is due: if every two cells with different identifiers have their centres
    at least [minDist - 0.01] apart, the cells after it are the cells before
    it. *)
Theorem second_pass_leaves_separated (cells : list (Cell.t R)) :
  (∀ i j c other, cells !! i = Some c → cells !! j = Some other →
     Cell.id other ≠ Cell.id c → minDist c other <= separation c other + 0.01) →
  secondPass cells = cells.
Proof.
  intros Hsep. unfold secondPass.
  set (g := SpatialGrid.rebuild grid cells).
  assert (Hstep : ∀ i, declutterCell g cells i = cells).
  { intros i. unfold declutterCell. destruct (cells !! i) as [c|] eqn:Hc; [|done].
    assert (Hn : ∀ neighbors, Forall (λ j, j ∈ SpatialGrid.getNeighbors g cells c) neighbors →
              forNeighbors repel2 cells neighbors c = c).
    { induction neighbors as [|j js IH]; intros Hall; [done|].
      apply Forall_cons in Hall as [Hj Hjs]. unfold forNeighbors. simpl.
      apply getNeighbors_elem_of in Hj as (other & Ho & _ & Hid).
      rewrite Ho, (repel2_separated c other) by (by eapply Hsep).
      by apply IH. }
    rewrite Hn; [by apply list_insert_id|]. by apply Forall_forall. }
  generalize (seq 0 (length cells)). intros idxs.
  induction idxs as [|i idxs IH]; simpl; [done|]. by rewrite Hstep.
Qed.

Lemma second_pass_leaves_separated_witness :
  secondPass [Ideal.cellAt "ETH-a" "ETH" 0 0 4 4; Ideal.cellAt "ETH-b" "ETH" 100 0 4 4]
  = [Ideal.cellAt "ETH-a" "ETH" 0 0 4 4; Ideal.cellAt "ETH-b" "ETH" 100 0 4 4].
Proof.
  apply second_pass_leaves_separated.
  assert (Hs : R_sqrt.sqrt (100 * 100) = 100) by (apply sqrt_square; lra).
  intros [|[|i]] [|[|j]] c other Hc Ho Hid; simplify_eq/=;
    unfold minDist, separation, CELL_WOBBLE_FACTOR, lit; cbn -[R_sqrt.sqrt].
  - replace ((0 - 100) * (0 - 100) + (0 - 0) * (0 - 0)) with (100 * 100) by ring.
    rewrite Hs. lra.
  - replace ((100 - 0) * (100 - 0) + (0 - 0) * (0 - 0)) with (100 * 100) by ring.
    rewrite Hs. lra.
Defined.


(** *** The organs *)

Lemma total_insert (f : Organ.t R → R) (m : StrMap.t (Organ.t R)) i k o k' o' :
  m !! i = Some (k, o) → total f (<[i := (k', o')]> m) = total f m - f o + f o'.
Proof.
  revert i. induction m as [|[k0 o0] m IH]; intros [|i] Hi; simplify_eq/=.
  - lra.
  - rewrite (IH i) by done. lra.
Qed.

Lemma repelOrgans_total (m : StrMap.t (Organ.t R)) (ij : nat * nat) :
  ij.1 ≠ ij.2 →
  total Organ.x (repelOrgans m ij) = total Organ.x m
  ∧ total Organ.y (repelOrgans m ij) = total Organ.y m.
Proof.
  intros Hne. unfold repelOrgans.
  destruct (m !! ij.1) as [[ka a]|] eqn:Ha; [|done].
  destruct (m !! ij.2) as [[kb b]|] eqn:Hb; [|done].
  cbv zeta. destruct (nlt _ _); [|done].
  split.
  - erewrite total_insert; [|by rewrite list_lookup_insert_ne].
    erewrite total_insert by done. cbn -[R_sqrt.sqrt]. lra.
  - erewrite total_insert; [|by rewrite list_lookup_insert_ne].
    erewrite total_insert by done. cbn -[R_sqrt.sqrt]. lra.
Qed.


Lemma organPairs_distinct (n : nat) : Forall (λ ij, ij.1 ≠ ij.2) (organPairs n).
Proof.
  apply Forall_forall. intros [i j] Hin. apply list_elem_of_In in Hin.
  unfold organPairs in Hin. apply in_flat_map in Hin as (i' & _ & Hin).
  apply in_map_iff in Hin as (j' & [= <- <-] & Hj). apply in_seq in Hj. simpl. lia.
Qed.

Lemma organRepulsion_total (m : StrMap.t (Organ.t R)) :
  total Organ.x (organRepulsion m) = total Organ.x m
  ∧ total Organ.y (organRepulsion m) = total Organ.y m.
Proof.
  unfold organRepulsion. generalize (organPairs_distinct (length m)).
  generalize (organPairs (length m)). intros pairs. revert m.
  induction pairs as [|ij pairs IH]; intros m Hall; simpl; [done|].
  apply Forall_cons in Hall as [Hij Hall].
  destruct (IH (repelOrgans m ij) Hall) as [-> ->]. by apply repelOrgans_total.
Qed.

Lemma centroid_total (m : StrMap.t (Organ.t R)) :
  centroid (StrMap.values m)
  = (total Organ.x m / INR (length m), total Organ.y m / INR (length m)).
Proof.
  unfold centroid, StrMap.values.
  assert (Hsum : ∀ (m : StrMap.t (Organ.t R)) a b,
            fold_left (λ '(cx, cy) o, (cx + Organ.x o, cy + Organ.y o)) m.*2 (a, b)
            = (a + total Organ.x m, b + total Organ.y m)).
  { clear m. induction m as [|[k o] m IH]; intros a b; simpl.
    - f_equal; lra.
    - rewrite IH. f_equal; simpl; lra. }
  change (of_Z 0 : R) with 0. rewrite Hsum, length_fmap, <- INR_IZR_INZ.
  f_equal; f_equal; lra.
Qed.

(** X6: over the reals, the organ-organ repulsion keeps the centroid of the
    organs: the two organs of a pair are pushed by opposite amounts. *)
Theorem organ_repulsion_keeps_centroid (organs : StrMap.t (Organ.t R)) :
  centroid (StrMap.values (organRepulsion organs)) = centroid (StrMap.values organs).
Proof.
  rewrite !centroid_total.
  destruct (organRepulsion_total organs) as [-> ->].
  by rewrite (view_length (λ _, tt) organs (organRepulsion organs))
    by (by apply organRepulsion_view).
Qed.


Lemma pullOrgan_inward (dt cx cy : R) (o : Organ.t R) :
  0 <= dt →
  let o' := pullOrgan (nmin dt (lit 0.033)) cx cy o in
  0.98 * organDistance (cx, cy) o <= organDistance (cx, cy) o'
  ∧ organDistance (cx, cy) o' <= organDistance (cx, cy) o
  ∧ organShift o o' <= 0.792.
Proof.
  intros Hdt. unfold pullOrgan, organShift, organDistance, lit. cbv zeta.
  cbn -[R_sqrt.sqrt Rmin].
  set (dx := cx - Organ.x o). set (dy := cy - Organ.y o).
  set (D := R_sqrt.sqrt (dx * dx + dy * dy)).
  assert (HD : 0 <= D) by apply sqrt_pos.
  set (pull := 4 / 10 * Rmin dt (33 / 1000) * 60).
  assert (Hpull : 0 <= pull <= 0.792).
  { unfold pull. unfold Rmin. destruct (Rle_dec _ _); lra. }
  set (s := Rmin ((D + 1 / 100) * (2 / 100)) pull).
  assert (Hs : 0 <= s ∧ s <= (D + 1 / 100) * (2 / 100) ∧ s <= pull).
  { unfold s, Rmin. destruct (Rle_dec _ _); nra. }
  set (k := s / (D + 1 / 100)).
  assert (Hk : 0 <= k <= 0.02).
  { unfold k. split.
    - apply Rmult_le_pos; [lra|]. left. apply Rinv_0_lt_compat. lra.
    - apply (Rmult_le_reg_r (D + 1 / 100)); [lra|].
      unfold Rdiv. rewrite Rmult_assoc, Rinv_l by lra. lra. }
  replace (cx - (Organ.x o + dx / (D + 1 / 100) * s)) with (dx * (1 - k))
    by (unfold k, dx; field; lra).
  replace (cy - (Organ.y o + dy / (D + 1 / 100) * s)) with (dy * (1 - k))
    by (unfold k, dy; field; lra).
  replace (Organ.x o + dx / (D + 1 / 100) * s - Organ.x o) with (dx * k)
    by (unfold k; field; lra).
  replace (Organ.y o + dy / (D + 1 / 100) * s - Organ.y o) with (dy * k)
    by (unfold k; field; lra).
  rewrite !sqrt_sum_squares_scaled by lra. fold D.
  assert (HDk : D * k <= s).
  { unfold k. replace (D * (s / (D + 1 / 100))) with (s * (D / (D + 1 / 100)))
      by (field; lra).
    rewrite <- (Rmult_1_r s) at 2. apply Rmult_le_compat_l; [lra|].
    apply (Rmult_le_reg_r (D + 1 / 100)); [lra|].
    unfold Rdiv. rewrite Rmult_assoc, Rinv_l by lra. lra. }
  split; [nra|]. split; [nra|lra].
Qed.

(** X7: over the reals and for [dt >= 0], the gravity loop moves every organ
    toward the centroid computed before the loop and never past it: the
    distance of the organ to that centroid does not grow and shrinks by at
    most 2%, and the organ moves by at most [0.4 * 0.033 * 60 = 0.792]. *)
Theorem gravity_pulls_inward (dt : R) (organs : StrMap.t (Organ.t R)) :
  0 <= dt →
  let c := centroid (StrMap.values organs) in
  Forall2 (λ kv kv',
      kv'.1 = kv.1
      ∧ 0.98 * organDistance c kv.2 <= organDistance c kv'.2
      ∧ organDistance c kv'.2 <= organDistance c kv.2
      ∧ organShift kv.2 kv'.2 <= 0.792)
    organs (gravity (nmin dt (lit 0.033)) organs).
Proof.
  intros Hdt c. unfold gravity. fold c. destruct c as [cx cy].
  unfold StrMap.for_values. apply Forall2_fmap_r, Forall2_same_length_lookup.
  split; [done|]. intros i kv kv' Hkv Hkv'. simplify_eq. simpl.
  split; [done|]. by apply pullOrgan_inward.
Qed.

Lemma gravity_pulls_inward_witness :
  let c := centroid (StrMap.values Ideal.organs) in
  Forall2 (λ kv kv',
      kv'.1 = kv.1
      ∧ 0.98 * organDistance c kv.2 <= organDistance c kv'.2
      ∧ organDistance c kv'.2 <= organDistance c kv.2
      ∧ organShift kv.2 kv'.2 <= 0.792)
    Ideal.organs (gravity (nmin 0.016 (lit 0.033)) Ideal.organs).
Proof. apply gravity_pulls_inward. lra. Defined.

End RealPhysics.

Section OrganPairs.
Local Open Scope R_scope.

(** X8: over the reals, the body of the organ-organ double loop, for two
    organs of the list: when they are not within [minDist] of each other
    (with the 0.01 added to the distance) nothing changes; otherwise both are
    pushed by the same amount along the line of their centres, in opposite
    directions, and end up [D * minDist / (D + 0.01)] apart, [D] being their
    distance before: just short of [minDist], and still 0 when they were at
    the same point.  Only their positions are written. *)
Theorem organs_pushed_apart (organs : StrMap.t (Organ.t R)) (i j : nat)
    (ka kb : string) (a b : Organ.t R) :
  i ≠ j → organs !! i = Some (ka, a) → organs !! j = Some (kb, b) →
  let D := organShift b a in
  let minDist :=
    Organ.radius a * ORGAN_OUTER_FACTOR + Organ.radius b * ORGAN_OUTER_FACTOR + 8 in
  (minDist <= D + 0.01 → repelOrgans organs (i, j) = organs)
  ∧ (D + 0.01 < minDist →
     ∃ a' b',
       repelOrgans organs (i, j) = <[j := (kb, b')]> (<[i := (ka, a')]> organs)
       ∧ organShift b' a' = D * minDist / (D + 0.01)
       ∧ organShift a a' = organShift b b'
       ∧ organShift a a' = D / (D + 0.01) * (minDist - (D + 0.01)) * 0.5
       ∧ (Organ.frame a', Organ.radius a', Organ.cellCount a')
         = (Organ.frame a, Organ.radius a, Organ.cellCount a)
       ∧ (Organ.frame b', Organ.radius b', Organ.cellCount b')
         = (Organ.frame b, Organ.radius b, Organ.cellCount b)).
Proof.
  intros Hij Ha Hb D minDist.
  replace 0.01 with (1 / 100) by lra. replace 0.5 with (5 / 10) by lra.
  unfold repelOrgans. cbn [fst snd]. rewrite Ha, Hb.
  cbv zeta.
  change (nlt (nadd (nsqrt _) (lit 0.01)) _) with (RealOps.ltb (D + 1 / 100) minDist).
  unfold RealOps.ltb. split.
  - intros Hfar. destruct (Rlt_dec _ _) as [Hlt|_]; [lra|done].
  - intros Hnear. destruct (Rlt_dec _ _) as [_|Hn]; [|lra].
    eexists _, _. split; [reflexivity|].
    assert (HD : 0 <= D) by apply sqrt_pos.
    unfold organShift, organDistance. cbn -[R_sqrt.sqrt].
    set (dx := Organ.x a - Organ.x b). set (dy := Organ.y a - Organ.y b).
    change (R_sqrt.sqrt (dx * dx + dy * dy)) with D.
    change (Organ.radius a * (115 / 100) + Organ.radius b * (115 / 100) + 8) with minDist.
    assert (HDd : D = R_sqrt.sqrt (dx * dx + dy * dy)) by done.
    clearbody D minDist.
    set (ov := minDist - (D + 1 / 100)).
    assert (Hov : 0 < ov) by (unfold ov; lra).
    split; [|split; [|split]].
    + replace (Organ.x a + dx / (D + 1 / 100) * ov * (5 / 10)
               - (Organ.x b - dx / (D + 1 / 100) * ov * (5 / 10)))
        with (dx * (minDist / (D + 1 / 100))) by (unfold dx, ov; field; lra).
      replace (Organ.y a + dy / (D + 1 / 100) * ov * (5 / 10)
               - (Organ.y b - dy / (D + 1 / 100) * ov * (5 / 10)))
        with (dy * (minDist / (D + 1 / 100))) by (unfold dy, ov; field; lra).
      rewrite sqrt_sum_squares_scaled.
      * rewrite <- HDd. field. lra.
      * apply Rmult_le_pos; [lra|]. left. apply Rinv_0_lt_compat. lra.
    + replace (Organ.x a + dx / (D + 1 / 100) * ov * (5 / 10) - Organ.x a)
        with (dx * (ov * (5 / 10) / (D + 1 / 100))) by (field; lra).
      replace (Organ.y a + dy / (D + 1 / 100) * ov * (5 / 10) - Organ.y a)
        with (dy * (ov * (5 / 10) / (D + 1 / 100))) by (field; lra).
      replace (Organ.x b - dx / (D + 1 / 100) * ov * (5 / 10) - Organ.x b)
        with (- dx * (ov * (5 / 10) / (D + 1 / 100))) by (field; lra).
      replace (Organ.y b - dy / (D + 1 / 100) * ov * (5 / 10) - Organ.y b)
        with (- dy * (ov * (5 / 10) / (D + 1 / 100))) by (field; lra).
      assert (Hk : 0 <= ov * (5 / 10) / (D + 1 / 100)).
      { apply Rmult_le_pos; [lra|]. left. apply Rinv_0_lt_compat. lra. }
      rewrite !sqrt_sum_squares_scaled by done.
      f_equal. f_equal. ring.
    + replace (Organ.x a + dx / (D + 1 / 100) * ov * (5 / 10) - Organ.x a)
        with (dx * (ov * (5 / 10) / (D + 1 / 100))) by (field; lra).
      replace (Organ.y a + dy / (D + 1 / 100) * ov * (5 / 10) - Organ.y a)
        with (dy * (ov * (5 / 10) / (D + 1 / 100))) by (field; lra).
      rewrite sqrt_sum_squares_scaled.
      * rewrite <- HDd. unfold ov. field. lra.
      * apply Rmult_le_pos; [lra|]. left. apply Rinv_0_lt_compat. lra.
    + done.
Qed.

Lemma organs_pushed_apart_witness :
  let D := organShift (Ideal.organAt "BASE" 30 0) (Ideal.organAt "ETH" 0 0) in
  let minDist :=
    Organ.radius (Ideal.organAt "ETH" 0 0) * ORGAN_OUTER_FACTOR
    + Organ.radius (Ideal.organAt "BASE" 30 0) * ORGAN_OUTER_FACTOR + 8 in
  (minDist <= D + 0.01 → repelOrgans Example.close (0%nat, 1%nat) = Example.close)
  ∧ (D + 0.01 < minDist →
     ∃ a' b',
       repelOrgans Example.close (0%nat, 1%nat)
       = <[1%nat := ("BASE"%string, b')]> (<[0%nat := ("ETH"%string, a')]> Example.close)
       ∧ organShift b' a' = D * minDist / (D + 0.01)
       ∧ organShift (Ideal.organAt "ETH" 0 0) a'
         = organShift (Ideal.organAt "BASE" 30 0) b'
       ∧ organShift (Ideal.organAt "ETH" 0 0) a'
         = D / (D + 0.01) * (minDist - (D + 0.01)) * 0.5
       ∧ (Organ.frame a', Organ.radius a', Organ.cellCount a')
         = (Organ.frame (Ideal.organAt "ETH" 0 0),
            Organ.radius (Ideal.organAt "ETH" 0 0),
            Organ.cellCount (Ideal.organAt "ETH" 0 0))
       ∧ (Organ.frame b', Organ.radius b', Organ.cellCount b')
         = (Organ.frame (Ideal.organAt "BASE" 30 0),
            Organ.radius (Ideal.organAt "BASE" 30 0),
            Organ.cellCount (Ideal.organAt "BASE" 30 0))).
Proof.
  apply (organs_pushed_apart Example.close 0 1).
  - discriminate.
  - reflexivity.
  - reflexivity.
Defined.
End OrganPairs.

(** ** The radius mappings at the decades *)

Section Decades.
Import RadiusMapping.
Local Open Scope R_scope.

Lemma pow10_ge_1 (n : nat) : 1 <= 10 ^ n.
Proof. apply pow_R1_Rle. lra. Qed.

(** X9: at a power of ten the two radius mappings are linear in the
    exponent, clamped: a liquidity of [10^n] maps to the radius
    [4 + 16 * clamp((n - 2) / 5)], a volume of [10^n] to the multiplier
    [1 + clamp((n - 3) / 3)].  So 100 of liquidity give the radius 4, a
    million 16.8 and ten millions 20; a volume of a thousand gives the
    multiplier 1, a hundred thousand 1 + 2/3 and a million 2. *)
Theorem radii_at_the_decades (n : nat) :
  liquidityToRadius (Some (10 ^ n)) = 4 + 16 * Rmax 0 (Rmin 1 ((INR n - 2) / 5))
  ∧ volumeToRadiusMultiplier (Some (10 ^ n)) = 1 + Rmax 0 (Rmin 1 ((INR n - 3) / 3))
  ∧ liquidityToRadius (Some (10 ^ 2)) = 4
  ∧ liquidityToRadius (Some (10 ^ 6)) = 16.8
  ∧ liquidityToRadius (Some (10 ^ 7)) = 20
  ∧ volumeToRadiusMultiplier (Some (10 ^ 3)) = 1
  ∧ volumeToRadiusMultiplier (Some (10 ^ 5)) = 1 + 2 / 3
  ∧ volumeToRadiusMultiplier (Some (10 ^ 6)) = 2.
Proof.
  assert (HL : ∀ n, liquidityToRadius (Some (10 ^ n))
                    = 4 + 16 * Rmax 0 (Rmin 1 ((INR n - 2) / 5))).
  { intros m. pose proof (pow10_ge_1 m) as Hm. unfold liquidityToRadius.
    rewrite positive_branch by lra. cbv zeta.
    rewrite (Rmax_left (10 ^ m) 1) by lra. rewrite log10_pow.
    unfold PHYSICS.MIN_CELL_RADIUS, PHYSICS.MAX_CELL_RADIUS. cbn [of_Z Real]. lra. }
  assert (HV : ∀ n, volumeToRadiusMultiplier (Some (10 ^ n))
                    = 1 + Rmax 0 (Rmin 1 ((INR n - 3) / 3))).
  { intros m. pose proof (pow10_ge_1 m) as Hm. unfold volumeToRadiusMultiplier.
    rewrite positive_branch by lra. cbv zeta.
    rewrite (Rmax_left (10 ^ m) 1) by lra. by rewrite log10_pow. }
  assert (Hclamp : ∀ t, 0 <= t <= 1 → Rmax 0 (Rmin 1 t) = t).
  { intros t Ht. rewrite Rmin_right by lra. apply Rmax_right. lra. }
  split; [apply HL|]. split; [apply HV|].
  rewrite !HL, !HV. simpl INR.
  repeat split.
  - rewrite (Hclamp ((1 + 1 - 2) / 5)); lra.
  - rewrite (Hclamp ((1 + 1 + 1 + 1 + 1 + 1 - 2) / 5)); lra.
  - rewrite (Hclamp ((1 + 1 + 1 + 1 + 1 + 1 + 1 - 2) / 5)); lra.
  - rewrite (Hclamp ((1 + 1 + 1 - 3) / 3)); lra.
  - rewrite (Hclamp ((1 + 1 + 1 + 1 + 1 - 3) / 3)); lra.
  - rewrite (Hclamp ((1 + 1 + 1 + 1 + 1 + 1 - 3) / 3)); lra.
Qed.
End Decades.

(** * The chain names *)

Section ChainNames.
Local Open Scope string_scope.

Lemma get_Some_In {V : Type} (m : StrMap.t V) k v :
  StrMap.get m k = Some v → In (k, v) m.
Proof.
  induction m as [|[k' v'] m IH]; simpl; [done|].
  destruct (String.eqb_spec k' k) as [->|]; [|by right; apply IH].
  intros [= ->]. by left.
Qed.

Lemma map_map_char (f g h : ascii → ascii) (s : string) :
  (∀ a, f (g a) = h a) → JsString.map f (JsString.map g s) = JsString.map h s.
Proof. intros Hfg. induction s as [|a s IH]; simpl; [done|]. by rewrite IH, Hfg. Qed.

Lemma upper_lower (a : ascii) : JsString.upper (JsString.lower a) = JsString.upper a.
Proof. by destruct a as [[] [] [] [] [] [] [] []]. Qed.

Lemma toUpperCase_toLowerCase (s : string) :
  JsString.toUpperCase (JsString.toLowerCase s) = JsString.toUpperCase s.
Proof. apply map_map_char, upper_lower. Qed.

Lemma variants_are_spellings :
  Forall (λ kv, JsString.replaceAll "-" "_" (JsString.toUpperCase kv.1) = kv.2)
         CHAIN_NAME_VARIANTS.
Proof. vm_compute. repeat constructor. Qed.

Lemma spelling_idempotent (s : string) :
  JsString.replaceAll "-" "_" (JsString.toUpperCase
    (JsString.replaceAll "-" "_" (JsString.toUpperCase s)))
  = JsString.replaceAll "-" "_" (JsString.toUpperCase s).
Proof.
  unfold JsString.replaceAll, JsString.toUpperCase.
  induction s as [|a s IH]; simpl; [done|]. rewrite IH. f_equal.
  by destruct a as [[] [] [] [] [] [] [] []].
Qed.

Lemma normalizeChainName_eq (raw : string) :
  normalizeChainName raw = JsString.replaceAll "-" "_" (JsString.toUpperCase raw).
Proof.
  unfold normalizeChainName.
  pose proof variants_are_spellings as Hv. rewrite Forall_forall in Hv.
  destruct (StrMap.get CHAIN_NAME_VARIANTS raw) as [c|] eqn:E1.
  - apply get_Some_In, list_elem_of_In in E1. symmetry. exact (Hv _ E1).
  - destruct (StrMap.get CHAIN_NAME_VARIANTS (JsString.toLowerCase raw)) as [c|] eqn:E2;
      [|done].
    apply get_Some_In, list_elem_of_In in E2. specialize (Hv _ E2). simpl in Hv.
    by rewrite toUpperCase_toLowerCase in Hv.
Qed.

(** X10: the table of variants never changes what [normalizeChainName]
    returns: for every string (of 8-bit characters, with the ASCII case
    mapping) the result is the string in upper case with every [-] replaced
    by [_], whether a lookup hits or not.  So the function is idempotent. *)
Theorem normalizeChainName_spelling (raw : string) :
  normalizeChainName raw = JsString.replaceAll "-" "_" (JsString.toUpperCase raw)
  ∧ normalizeChainName (normalizeChainName raw) = normalizeChainName raw.
Proof.
  split; [apply normalizeChainName_eq|].
  rewrite !normalizeChainName_eq. apply spelling_idempotent.
Qed.

Lemma CHAIN_MAP_entries :
  CHAIN_MAP = (λ c, (ChainConfig.name c, c)) <$> CHAINS.
Proof. reflexivity. Qed.

Lemma CHAIN_MAP_get (k : string) (c : ChainConfig.t) :
  StrMap.get CHAIN_MAP k = Some c ↔ c ∈ CHAINS ∧ ChainConfig.name c = k.
Proof.
  split.
  - intros Hg. apply get_Some_In in Hg. rewrite CHAIN_MAP_entries in Hg.
    apply list_elem_of_In, list_elem_of_fmap in Hg as (c' & [= -> ->] & Hin). done.
  - intros [Hin <-]. revert c Hin. apply Forall_forall. vm_compute. repeat constructor.
Qed.

End ChainNames.

(** * The events of the stream *)

Section RadiusRanges.
Import RadiusMapping.
Local Open Scope R_scope.

Lemma liquidityToRadius_range (l : option R) : 4 <= liquidityToRadius l <= 20.
Proof.
  unfold liquidityToRadius, PHYSICS.DEFAULT_CELL_RADIUS, PHYSICS.MIN_CELL_RADIUS,
    PHYSICS.MAX_CELL_RADIUS. cbn.
  destruct l as [x|]; [|lra]. destruct (falsy x || leb x 0); [lra|].
  pose proof (clamp01_bounds ((log10 (Rmax x 1) - 2) / 5)). nra.
Qed.

Lemma volumeToRadiusMultiplier_range (v : option R) :
  1 <= volumeToRadiusMultiplier v <= 2.
Proof.
  unfold volumeToRadiusMultiplier.
  destruct v as [x|]; [|lra]. destruct (falsy x || leb x 0); [lra|].
  pose proof (clamp01_bounds ((log10 (Rmax x 1) - 3) / 3)). cbv zeta. lra.
Qed.
End RadiusRanges.

Section IndexedLists.
Context {A : Type}.

Lemma elem_of_indexed (l : list A) (i : nat) (x : A) :
  (i, x) ∈ imap (λ i c, (i, c)) l ↔ l !! i = Some x.
Proof.
  rewrite elem_of_lookup_imap. split.
  - by intros (i' & x' & [= -> ->] & Hl).
  - intros Hl. by exists i, x.
Qed.

Lemma indexed_snd (l : list A) : (imap (λ i c, (i, c)) l).*2 = l.
Proof.
  apply list_eq. intros i. rewrite list_lookup_fmap, list_lookup_imap.
  by destruct (l !! i).
Qed.

Lemma filter_fmap {B : Type} (f : B → A) (P : A → bool) (l : list B) :
  f <$> List.filter (λ b, P (f b)) l = List.filter P (f <$> l).
Proof.
  induction l as [|b l IH]; [done|].
  rewrite fmap_cons. cbn [List.filter].
  destruct (P (f b)); [rewrite fmap_cons|]; by rewrite IH.
Qed.
End IndexedLists.

Section HandleEvent.
Import Visualizer.
Local Open Scope R_scope.

Lemma chainCells_length cells k :
  length (chainCells cells k) = memberCount k cells.
Proof.
  unfold chainCells, memberCount.
  pose proof (filter_fmap snd (λ c : Cell.t R, String.eqb (Cell.chain c) k)
                (imap (λ i c, (i, c)) cells)) as Hf.
  rewrite indexed_snd in Hf. rewrite <- Hf. by rewrite length_fmap.
Qed.

Lemma elem_of_chainCells cells k i c :
  (i, c) ∈ chainCells cells k ↔ cells !! i = Some c ∧ Cell.chain c = k.
Proof.
  unfold chainCells. rewrite list_elem_of_In, filter_In, <- list_elem_of_In.
  rewrite elem_of_indexed. simpl. by rewrite String.eqb_eq.
Qed.


Lemma indexed_sorted (cells : list (Cell.t R)) (n : nat) :
  StronglySorted by_index (imap (λ i c, ((n + i)%nat, c)) cells).
Proof.
  revert n. induction cells as [|c cells IH]; intros n; [constructor|].
  rewrite imap_cons. apply StronglySorted_cons. split.
  - apply Forall_forall. intros [j d] Hin.
    apply elem_of_lookup_imap in Hin as (i & d' & [= -> ->] & _).
    unfold by_index. simpl. lia.
  - erewrite imap_ext; [apply (IH (S n))|]. intros i d _. simpl. f_equal. lia.
Qed.

Lemma filter_sorted (P : nat * Cell.t R → bool) (l : list (nat * Cell.t R)) :
  StronglySorted by_index l → StronglySorted by_index (List.filter P l).
Proof.
  induction l as [|a l IH]; intros Hs; [constructor|].
  apply StronglySorted_cons in Hs as [Ha Hs]. simpl.
  destruct (P a); [|by apply IH].
  apply StronglySorted_cons. split; [|by apply IH].
  rewrite Forall_forall in *. intros b Hb. apply Ha.
  apply list_elem_of_In, filter_In in Hb as [Hb _]. by apply list_elem_of_In.
Qed.

Lemma chainCells_sorted cells k : StronglySorted by_index (chainCells cells k).
Proof. apply filter_sorted, (indexed_sorted cells 0). Qed.

(** The reduction keeps the last of the cells that were born first. *)
Lemma oldest_spec (l : list (nat * Cell.t R)) :
  l ≠ [] →
  ∃ l1 r l2, oldest l = Some r ∧ l = l1 ++ r :: l2
    ∧ Forall (λ b, Cell.born r.2 <= Cell.born b.2) l1
    ∧ Forall (λ b, Cell.born r.2 < Cell.born b.2) l2.
Proof.
  destruct l as [|a l]; [done|]. intros _. unfold oldest.
  set (pick := fold_left (λ a b : nat * Cell.t R,
                 if RealOps.ltb (Cell.born a.2) (Cell.born b.2) then a else b)).
  assert (Hpick : ∀ l a,
    (pick l a = a ∧ Forall (λ b, Cell.born a.2 < Cell.born b.2) l)
    ∨ ∃ l1 l2, l = l1 ++ pick l a :: l2
        ∧ Cell.born (pick l a).2 <= Cell.born a.2
        ∧ Forall (λ b, Cell.born (pick l a).2 <= Cell.born b.2) l1
        ∧ Forall (λ b, Cell.born (pick l a).2 < Cell.born b.2) l2).
  { clear. induction l as [|b l IH]; intros a; [by left|].
    unfold pick. simpl. fold pick. unfold RealOps.ltb.
    destruct (Rlt_dec (Cell.born a.2) (Cell.born b.2)) as [Hlt|Hge].
    - destruct (IH a) as [[Hr Hall]|(l1 & l2 & Hl & Hle & H1 & H2)].
      + left. split; [done|]. by constructor.
      + right. exists (b :: l1), l2. split; [by rewrite Hl at 1|].
        split; [done|]. split; [|done]. constructor; [lra|done].
    - right. destruct (IH b) as [[Hr Hall]|(l1 & l2 & Hl & Hle & H1 & H2)].
      + exists [], l. rewrite Hr. split; [done|]. split; [lra|]. by split.
      + exists (b :: l1), l2. split; [by rewrite Hl at 1|].
        split; [lra|]. split; [|done]. by constructor. }
  destruct (Hpick l a) as [[Hr Hall]|(l1 & l2 & Hl & Hle & H1 & H2)].
  - exists [], a, l. rewrite Hr. by repeat split.
  - exists (a :: l1), (pick l a), l2. split; [done|]. split; [by rewrite Hl at 1|].
    split; [|done]. by constructor.
Qed.

Lemma existsb_pairAddress (cells : list (Cell.t R)) (p : string) :
  existsb (λ c, String.eqb (Cell.pairAddress c) p) cells = false
  ↔ p ∉ Cell.pairAddress <$> cells.
Proof.
  rewrite <- not_true_iff_false, existsb_exists, list_elem_of_fmap.
  split; intros Hn.
  - intros (c & -> & Hin). apply Hn. exists c. split; [by apply list_elem_of_In|].
    by apply String.eqb_eq.
  - intros (c & Hin & Heq). apply Hn. exists c. apply String.eqb_eq in Heq.
    split; [done|]. by apply list_elem_of_In.
Qed.

Lemma at_capacity (n : nat) :
  RadiusMapping.leb PHYSICS.MAX_CELLS_PER_CHAIN (INR n) = true ↔ (80 ≤ n)%nat.
Proof.
  unfold RadiusMapping.leb, PHYSICS.MAX_CELLS_PER_CHAIN. cbn.
  replace 80 with (INR 80) by (rewrite INR_IZR_INZ; done).
  destruct (Rle_dec (INR 80) (INR n)) as [Hle|Hgt].
  - split; [|done]. intros _. by apply INR_le.
  - split; [done|]. intros Hn. exfalso. apply Hgt. by apply le_INR.
Qed.

(** X11: a new pair of a known chain whose organ exists and whose address is
    not on screen, when its chain already has 80 cells or more: exactly one
    cell is removed, the new cell is appended, and the cell removed is a
    cell of that chain that was born first; among several born at that same
    time it is the last in the array. *)
Theorem handleEvent_evicts_oldest (random now : nat → R) (cells : list (Cell.t R))
    (organs : StrMap.t (Organ.t R)) (event : StreamEvent.t)
    (chainConfig : ChainConfig.t) (organ : Organ.t R) :
  StreamEvent.type event = StreamEvent.new_pair →
  StrMap.get CHAIN_MAP (StreamEvent.chain event) = Some chainConfig →
  StreamEvent.pairAddress event ∉ Cell.pairAddress <$> cells →
  StrMap.get organs (StreamEvent.chain event) = Some organ →
  (80 ≤ memberCount (StreamEvent.chain event) cells)%nat →
  ∃ i old,
    cells !! i = Some old
    ∧ Cell.chain old = StreamEvent.chain event
    ∧ (∀ j c, cells !! j = Some c → Cell.chain c = StreamEvent.chain event →
         ((j < i)%nat → Cell.born old <= Cell.born c)
         ∧ ((i < j)%nat → Cell.born old < Cell.born c))
    ∧ handleEvent random now cells organs event
      = delete i cells ++ [newCell random now chainConfig organ event].
Proof.
  intros Hty Hcfg Hnew Horg Hfull. unfold handleEvent.
  rewrite Hcfg, Hty, Horg. apply existsb_pairAddress in Hnew. rewrite Hnew.
  unfold evict. rewrite chainCells_length.
  rewrite (proj2 (at_capacity _) Hfull).
  destruct (oldest_spec (chainCells cells (StreamEvent.chain event)))
    as (l1 & [i old] & l2 & -> & Hl & H1 & H2).
  { intros Hnil. rewrite <- chainCells_length, Hnil in Hfull. simpl in Hfull. lia. }
  assert (Hin : (i, old) ∈ chainCells cells (StreamEvent.chain event)).
  { rewrite Hl. apply elem_of_app. right. by left. }
  apply elem_of_chainCells in Hin as [Hi Hch].
  exists i, old. split; [done|]. split; [done|]. split; [|done].
  intros j c Hj Hc.
  assert (Hjc : (j, c) ∈ chainCells cells (StreamEvent.chain event))
    by (by apply elem_of_chainCells).
  pose proof (chainCells_sorted cells (StreamEvent.chain event)) as Hs.
  rewrite Hl in Hs, Hjc.
  apply StronglySorted_app in Hs as (H12 & _ & Hs2).
  apply StronglySorted_cons in Hs2 as [Hi2 _].
  rewrite Forall_forall in H1, H2, Hi2.
  apply elem_of_app in Hjc as [Hjc|Hjc].
  - specialize (H12 (j, c) (i, old) Hjc ltac:(by left)). unfold by_index in H12.
    simpl in H12. split; [intros _; apply (H1 _ Hjc)|lia].
  - apply elem_of_cons in Hjc as [[= -> ->]|Hjc]; [lia|].
    specialize (Hi2 _ Hjc). unfold by_index in Hi2. simpl in Hi2.
    split; [lia|intros _; apply (H2 _ Hjc)].
Qed.


Lemma find_indexed (P : Cell.t R → bool) (cells : list (Cell.t R)) (n : nat) :
  match List.find (λ ic, P ic.2) (imap (λ i c, ((n + i)%nat, c)) cells) with
  | Some (i, c) =>
      ∃ i0, i = (n + i0)%nat ∧ cells !! i0 = Some c ∧ P c = true
            ∧ ∀ j d, (j < i0)%nat → cells !! j = Some d → P d = false
  | None => Forall (λ c, P c = false) cells
  end.
Proof.
  revert n. induction cells as [|c cells IH]; intros n; [by constructor|].
  rewrite imap_cons.
  assert (Heq : imap ((λ i c, ((n + i)%nat, c)) ∘ S) cells
                = imap (λ i c, ((S n + i)%nat, c)) cells).
  { apply imap_ext. intros i d _. simpl. f_equal. lia. }
  rewrite Heq. cbn [List.find snd]. destruct (P c) eqn:HP.
  - exists 0%nat. split; [lia|]. split; [done|]. split; [done|]. intros j d Hj. lia.
  - specialize (IH (S n)).
    destruct (List.find _ _) as [[i d]|].
    + destruct IH as (i0 & -> & Hl & HPd & Hfirst). exists (S i0).
      split; [lia|]. split; [done|]. split; [done|].
      intros [|j] e Hj He; simplify_eq/=; [done|]. apply (Hfirst j); [lia|done].
    + by constructor.
Qed.

Lemma findPair_spec (cells : list (Cell.t R)) (p : string) :
  match findPair cells p with
  | Some (i, c) =>
      cells !! i = Some c ∧ Cell.pairAddress c = p
      ∧ ∀ j d, (j < i)%nat → cells !! j = Some d → Cell.pairAddress d ≠ p
  | None => p ∉ Cell.pairAddress <$> cells
  end.
Proof.
  unfold findPair.
  pose proof (find_indexed (λ c, String.eqb (Cell.pairAddress c) p) cells 0) as Hf.
  simpl in Hf. destruct (List.find _ _) as [[i c]|].
  - destruct Hf as (i0 & -> & Hl & HP & Hfirst). apply String.eqb_eq in HP.
    split; [done|]. split; [done|]. intros j d Hj Hd.
    apply String.eqb_neq. by apply (Hfirst j).
  - apply existsb_pairAddress. apply not_true_iff_false. intros Hex.
    apply existsb_exists in Hex as (c & Hin & HP). rewrite Forall_forall in Hf.
    apply list_elem_of_In in Hin. rewrite (Hf c Hin) in HP. done.
Qed.

Lemma retarget_range (now : nat → R) (event : StreamEvent.t) (c : Cell.t R) :
  4 <= Cell.targetRadius (retarget now event c) <= 20.
Proof.
  unfold retarget. cbv zeta. cbn [Cell.targetRadius].
  pose proof (liquidityToRadius_range (Some (default 0 (StreamEvent.liquidity event)))).
  pose proof (volumeToRadiusMultiplier_range
                (Some (default 0 (StreamEvent.volumeUsd event)))).
  unfold PHYSICS.MAX_CELL_RADIUS. cbn [of_Z Real].
  unfold Rmin. destruct (Rle_dec _ _); nra.
Qed.

(** X12: an update of a pair either changes nothing (the chain is not
    configured, or no cell has that address) or rewrites one cell, the first
    with that address, in place: its target radius is set within [4, 20],
    its [lastUpdate] to the clock and its liquidity to that of the event,
    kept when the event carries none; identifier, position, velocity, radius
    and the rest are as they were. *)
Theorem pair_update_retargets (random now : nat → R) (cells : list (Cell.t R))
    (organs : StrMap.t (Organ.t R)) (event : StreamEvent.t) :
  StreamEvent.type event = StreamEvent.pair_update →
  ((StrMap.get CHAIN_MAP (StreamEvent.chain event) = None
    ∨ StreamEvent.pairAddress event ∉ Cell.pairAddress <$> cells)
   ∧ handleEvent random now cells organs event = cells)
  ∨ ∃ i c c',
      cells !! i = Some c
      ∧ Cell.pairAddress c = StreamEvent.pairAddress event
      ∧ (∀ j d, (j < i)%nat → cells !! j = Some d →
           Cell.pairAddress d ≠ StreamEvent.pairAddress event)
      ∧ handleEvent random now cells organs event = <[i := c']> cells
      ∧ kept_by_update c' = kept_by_update c
      ∧ 4 <= Cell.targetRadius c' <= 20
      ∧ Cell.lastUpdate c' = now 0%nat
      ∧ Cell.liquidity c' = default (Cell.liquidity c) (StreamEvent.liquidity event).
Proof.
  intros Hty. unfold handleEvent. rewrite Hty.
  destruct (StrMap.get CHAIN_MAP (StreamEvent.chain event)) as [cfg|];
    [|left; split; [by left|done]].
  pose proof (findPair_spec cells (StreamEvent.pairAddress event)) as Hf.
  destruct (findPair cells (StreamEvent.pairAddress event)) as [[i c]|].
  - right. destruct Hf as (Hi & Hp & Hfirst).
    exists i, c, (retarget now event c). split; [done|]. split; [done|].
    split; [done|]. split; [done|]. split; [done|].
    split; [apply retarget_range|]. done.
  - left. split; [by right|done].
Qed.

Lemma pair_update_retargets_witness :
  ((StrMap.get CHAIN_MAP (StreamEvent.chain Example.update) = None
    ∨ StreamEvent.pairAddress Example.update ∉ Cell.pairAddress <$> Example.full)
   ∧ handleEvent Ideal.still Ideal.still Example.full Ideal.organs Example.update
     = Example.full)
  ∨ ∃ i c c',
      Example.full !! i = Some c
      ∧ Cell.pairAddress c = StreamEvent.pairAddress Example.update
      ∧ (∀ j d, (j < i)%nat → Example.full !! j = Some d →
           Cell.pairAddress d ≠ StreamEvent.pairAddress Example.update)
      ∧ handleEvent Ideal.still Ideal.still Example.full Ideal.organs Example.update
        = <[i := c']> Example.full
      ∧ kept_by_update c' = kept_by_update c
      ∧ 4 <= Cell.targetRadius c' <= 20
      ∧ Cell.lastUpdate c' = Ideal.still 0%nat
      ∧ Cell.liquidity c' = default (Cell.liquidity c) (StreamEvent.liquidity Example.update).
Proof. apply pair_update_retargets. reflexivity. Defined.

Lemma handleEvent_evicts_oldest_witness :
  ∃ i old,
    Example.full !! i = Some old
    ∧ Cell.chain old = StreamEvent.chain Example.arrival
    ∧ (∀ j c, Example.full !! j = Some c → Cell.chain c = StreamEvent.chain Example.arrival →
         ((j < i)%nat → Cell.born old <= Cell.born c)
         ∧ ((i < j)%nat → Cell.born old < Cell.born c))
    ∧ handleEvent Ideal.still Ideal.still Example.full Example.organs Example.arrival
      = delete i Example.full
        ++ [newCell Ideal.still Ideal.still Example.ethereum
              (Ideal.organAt "ETH_MAINNET" 0 0) Example.arrival].
Proof.
  apply handleEvent_evicts_oldest.
  - reflexivity.
  - reflexivity.
  - apply existsb_pairAddress. reflexivity.
  - reflexivity.
  - apply Nat.leb_le. reflexivity.
Defined.

Lemma cos_sin_scaled (a d : R) :
  0 <= d → R_sqrt.sqrt (cos a * d * (cos a * d) + sin a * d * (sin a * d)) = d.
Proof.
  intros Hd. rewrite sqrt_sum_squares_scaled by done.
  replace (cos a * cos a + sin a * sin a) with 1.
  - rewrite sqrt_1. lra.
  - pose proof (sin2_cos2 a) as Hsc. unfold Rsqr in Hsc. lra.
Qed.

(** X13: when [Math.random()] is in [0, 1) and the organ has a radius of 10
    or more, a new cell is created within 0.6 of the radius of its organ from
    the centre of the organ, which is within its own containment radius; with
    radius 2, a target radius in [4, 20], a velocity in [-1, 1) on each axis
    and a wobble speed in [0.2, 1.3): the division by the radius that the
    liquidity maps to is never by zero. *)
Theorem new_cell_spawns_inside (random now : nat → R) (chainConfig : ChainConfig.t)
    (organ : Organ.t R) (event : StreamEvent.t) :
  (∀ k, 0 <= random k < 1) → 10 <= Organ.radius organ →
  let c := newCell random now chainConfig organ event in
  distanceTo organ c <= 0.6 * Organ.radius organ
  ∧ distanceTo organ c <= containmentRadius organ c
  ∧ Cell.radius c = 2
  ∧ 4 <= Cell.targetRadius c <= 20
  ∧ -1 <= Cell.vx c < 1 ∧ -1 <= Cell.vy c < 1
  ∧ 0.2 <= Cell.wobbleSpeed c < 1.3.
Proof.
  intros Hrand Hrad c.
  pose proof (liquidityToRadius_range (Some (default 0 (StreamEvent.liquidity event))))
    as Hr.
  assert (Hd : distanceTo organ c = random 1%nat * Organ.radius organ * 0.6).
  { unfold distanceTo, c, newCell. cbv zeta. cbn -[R_sqrt.sqrt cos sin PI].
    set (a := random 0%nat * PI * 2). set (d := random 1%nat * Organ.radius organ * 0.6).
    replace (Organ.x organ + cos a * d - Organ.x organ) with (cos a * d) by ring.
    replace (Organ.y organ + sin a * d - Organ.y organ) with (sin a * d) by ring.
    apply cos_sin_scaled. unfold d. pose proof (Hrand 1%nat). nra. }
  pose proof (Hrand 1%nat) as H1. pose proof (Hrand 2%nat) as H2.
  pose proof (Hrand 3%nat) as H3. pose proof (Hrand 5%nat) as H5.
  split; [rewrite Hd; nra|]. split.
  { rewrite Hd. unfold containmentRadius, ORGAN_INNER_FACTOR, CELL_WOBBLE_FACTOR, lit.
    cbn -[Rmax]. etrans; [|apply Rmax_r]. nra. }
  split; [done|]. split; [exact Hr|].
  unfold c, newCell. cbv zeta. cbn -[PI cos sin RadiusMapping.liquidityToRadius].
  split; [lra|]. split; [lra|].
  set (r := RadiusMapping.liquidityToRadius _) in *.
  assert (Hq : 0.2 <= 4 / r <= 1).
  { split.
    - apply (Rmult_le_reg_r r); [lra|]. unfold Rdiv. rewrite Rmult_assoc, Rinv_l by lra. lra.
    - apply (Rmult_le_reg_r r); [lra|]. unfold Rdiv. rewrite Rmult_assoc, Rinv_l by lra. lra. }
  unfold PHYSICS.MIN_CELL_RADIUS. cbn [of_Z Real]. lra.
Qed.

Lemma new_cell_spawns_inside_witness :
  let c := newCell Ideal.still Ideal.still Example.ethereum
             (Ideal.organAt "ETH_MAINNET" 0 0) Example.arrival in
  distanceTo (Ideal.organAt "ETH_MAINNET" 0 0) c
    <= 0.6 * Organ.radius (Ideal.organAt "ETH_MAINNET" 0 0)
  ∧ distanceTo (Ideal.organAt "ETH_MAINNET" 0 0) c
    <= containmentRadius (Ideal.organAt "ETH_MAINNET" 0 0) c
  ∧ Cell.radius c = 2
  ∧ 4 <= Cell.targetRadius c <= 20
  ∧ -1 <= Cell.vx c < 1 ∧ -1 <= Cell.vy c < 1
  ∧ 0.2 <= Cell.wobbleSpeed c < 1.3.
Proof.
  apply new_cell_spawns_inside.
  - intros k. unfold Ideal.still. lra.
  - simpl. lra.
Defined.

End HandleEvent.

(** * The placement of the organs *)

Section InitOrgans.
Import Visualizer.
Local Open Scope R_scope.

Lemma distinct_NoDup (l : list string) : distinct l = true → NoDup l.
Proof.
  induction l as [|s l IH]; simpl; [constructor|].
  intros [Hs Hl]%andb_true_iff. constructor; [|by apply IH].
  intros Hin. apply negb_true_iff, not_true_iff_false in Hs. apply Hs.
  apply existsb_exists. exists s. split; [by apply list_elem_of_In|].
  apply String.eqb_refl.
Qed.

Lemma CHAINS_names_NoDup : NoDup (ChainConfig.name <$> CHAINS).
Proof. apply distinct_NoDup. reflexivity. Qed.

Lemma set_fresh {V : Type} (m : StrMap.t V) k v :
  k ∉ m.*1 → StrMap.set m k v = m ++ [(k, v)].
Proof.
  induction m as [|[k' v'] m IH]; intros Hk; simpl; [done|].
  rewrite fmap_cons, not_elem_of_cons in Hk. destruct Hk as [Hne Hk].
  destruct (String.eqb_spec k' k) as [->|_]; [done|]. by rewrite IH.
Qed.

Lemma at_floor_random {A : Type} (l : list A) (x : R) :
  l ≠ [] → 0 <= x < 1 → is_Some (at_floor l (x * INR (length l))).
Proof.
  intros Hl Hx. unfold at_floor.
  assert (Hlen : 0 < INR (length l)).
  { apply lt_0_INR. destruct l; [done|]. simpl. lia. }
  pose proof (Zfloor_bound (x * INR (length l))) as [Hlo Hhi].
  assert (H0 : (0 ≤ Zfloor (x * INR (length l)))%Z).
  { apply Zfloor_lub. apply Rmult_le_pos; lra. }
  destruct (Z.ltb_spec (Zfloor (x * INR (length l))) 0) as [|_]; [lia|].
  apply lookup_lt_is_Some_2.
  assert (Hlt : IZR (Zfloor (x * INR (length l))) < IZR (Z.of_nat (length l)))
    by (rewrite <- INR_IZR_INZ; nra).
  apply lt_IZR in Hlt. lia.
Qed.

Lemma attempts_sound (random : nat → R) (n : nat) (placed : list Placed)
    (r cx cy : R) (k : nat) (x y : R) (k' : nat) :
  attempts random n placed r cx cy k = Some (x, y, k') →
  (x = cx ∧ y = cy) ∨ overlaps placed r x y = false.
Proof.
  revert k. induction n as [|n IH]; intros k; simpl.
  - intros [= <- <- <-]. by left.
  - destruct (at_floor placed _) as [parent|]; [|done].
    match goal with |- context [if ?b then _ else _] => destruct b eqn:Hov end;
      [apply IH|].
    intros [= <- <- <-]. by right.
Qed.

Lemma attempts_total (random : nat → R) (n : nat) (placed : list Placed)
    (r cx cy : R) (k : nat) :
  placed ≠ [] → (∀ k, 0 <= random k < 1) →
  is_Some (attempts random n placed r cx cy k).
Proof.
  intros Hp Hr. revert k. induction n as [|n IH]; intros k; simpl; [done|].
  destruct (at_floor_random placed (random k) Hp (Hr k)) as [parent ->].
  destruct (overlaps placed r _ _); [apply IH|done].
Qed.

Lemma overlaps_false (placed : list Placed) (x y : R) (p : Placed) :
  overlaps placed 40 x y = false → p ∈ placed → pr p = 40 →
  102 <= R_sqrt.sqrt ((x - px p) * (x - px p) + (y - py p) * (y - py p)).
Proof.
  intros Hov Hin Hpr. unfold overlaps in Hov.
  apply not_true_iff_false in Hov.
  destruct (Rle_dec 102 (R_sqrt.sqrt ((x - px p) * (x - px p) + (y - py p) * (y - py p))))
    as [|Hlt]; [done|].
  exfalso. apply Hov, existsb_exists. exists p. split; [by apply list_elem_of_In|].
  cbv zeta. rewrite Hpr. unfold RealOps.ltb. destruct (Rlt_dec _ _) as [|Hge]; [done|].
  exfalso. apply Hge. lra.
Qed.

Lemma placeAll (random : nat → R) (cx cy : R)
    (chains : list ChainConfig.t) (organs : StrMap.t (Organ.t R)) (k : nat) :
  NoDup (organs.*1 ++ (ChainConfig.name <$> chains)) →
  spaced cx cy organs →
  let result :=
    fold_left (λ st ic,
        match st with
        | Some st => placeChain random cx cy st ic.1 ic.2
        | None => None
        end)
      (imap (λ i c, ((length organs + i)%nat, c)) chains)
      (Some (toPlaced <$> organs, organs, k)) in
  ((∀ k, 0 <= random k < 1) → is_Some result)
  ∧ ∀ st, result = Some st →
      ∃ new k',
        st = (toPlaced <$> (organs ++ new), organs ++ new, k')
        ∧ Forall2 organ_of chains new
        ∧ spaced cx cy (organs ++ new)
        ∧ (organs = [] → ∀ o, new.*2 !! 0%nat = Some o → Organ.x o = cx ∧ Organ.y o = cy).
Proof.
  revert organs k. induction chains as [|c chains IH]; intros organs k Hnd Hsp result.
  - split; [done|]. intros st [= <-]. exists [], k. rewrite app_nil_r.
    split; [done|]. split; [constructor|]. split; [done|]. by intros _ o.
  - unfold result. clear result. rewrite imap_cons. cbn [fold_left fst snd].
    unfold placeChain at 2 4.
    set (spot := if (length organs + 0 =? 0)%nat then Some (cx, cy, k)
                 else attempts random 100 (toPlaced <$> organs)
                        PHYSICS.ORGAN_BASE_RADIUS cx cy k).
    assert (Hnone : ∀ l : list (nat * ChainConfig.t),
              fold_left (λ st ic,
                  match st with
                  | Some st => placeChain random cx cy st ic.1 ic.2
                  | None => None
                  end) l None = None).
    { induction l as [|x l IHl]; [done|]. exact IHl. }
    assert (Hspot : ((∀ k, 0 <= random k < 1) → is_Some spot)
                    ∧ ∀ ox oy k1, spot = Some (ox, oy, k1) →
                        (ox = cx ∧ oy = cy)
                        ∨ (organs ≠ []
                           ∧ overlaps (toPlaced <$> organs) 40 ox oy = false)).
    { unfold spot. destruct organs as [|kv organs].
      - split; [done|]. intros ox oy k1 [= <- <- <-]. by left.
      - replace (length (kv :: organs) + 0 =? 0)%nat with false by done. split.
        + intros Hr. by apply attempts_total.
        + intros ox oy k1 Ha. apply attempts_sound in Ha as [?|?]; [by left|by right]. }
    destruct Hspot as [Htot Hsound].
    destruct spot as [[[ox oy] k1]|].
    2:{ lazy iota beta. rewrite !Hnone. split; [|by intros st].
        intros Hr. by destruct (Htot Hr). }
    specialize (Hsound ox oy k1 eq_refl). clear Htot.
    set (o := Organ.mk (ChainConfig.name c) (ChainConfig.displayName c)
                (ChainConfig.color c) ox oy PHYSICS.ORGAN_BASE_RADIUS
                (random k1 * PI * 2) 0).
    rewrite fmap_cons in Hnd.
    assert (Hfresh : ChainConfig.name c ∉ organs.*1).
    { apply NoDup_app in Hnd as (_ & Hdis & _). intros Hin.
      apply (Hdis _ Hin). by left. }
    rewrite set_fresh by done.
    assert (Hsp' : spaced cx cy (organs ++ [(ChainConfig.name c, o)])).
    { intros a b oa ob Hab Ha Hb. rewrite fmap_app in Ha, Hb.
      destruct (decide (b < length organs.*2)%nat) as [Hlt|Hge].
      - rewrite lookup_app_l in Ha, Hb by lia. by apply (Hsp a b).
      - rewrite lookup_app_r in Hb by lia.
        destruct (b - length organs.*2)%nat eqn:Eb; [|by destruct n].
        simpl in Hb. injection Hb as <-.
        rewrite lookup_app_l in Ha by lia.
        destruct Hsound as [[-> ->]|[_ Hov]]; [by left|]. right.
        apply list_lookup_fmap_Some_1 in Ha as ([ka oa'] & -> & Ha).
        apply (overlaps_false _ _ _ (toPlaced (ka, oa'))) in Hov; [exact Hov| |done].
        apply list_elem_of_fmap. exists (ka, oa'). split; [done|].
        by eapply list_elem_of_lookup_2. }
    destruct (IH (organs ++ [(ChainConfig.name c, o)]) (S k1)) as [Htot Hres].
    { rewrite fmap_app, <- app_assoc. exact Hnd. }
    { exact Hsp'. }
    assert (Heq : imap ((λ i c, ((length organs + i)%nat, c)) ∘ S) chains
                  = imap (λ i d, ((length (organs ++ [(ChainConfig.name c, o)]) + i)%nat, d))
                         chains).
    { apply imap_ext. intros i d _. simpl. rewrite length_app. simpl. f_equal. lia. }
    rewrite Heq.
    replace ((toPlaced <$> organs) ++ [mkPlaced ox oy PHYSICS.ORGAN_BASE_RADIUS])
      with (toPlaced <$> organs ++ [(ChainConfig.name c, o)]) by (by rewrite fmap_app).
    split; [exact Htot|]. intros st Hst.
    destruct (Hres st Hst) as (new & k' & -> & H2 & Hs & _).
    exists ((ChainConfig.name c, o) :: new), k'.
    replace (organs ++ (ChainConfig.name c, o) :: new)
      with ((organs ++ [(ChainConfig.name c, o)]) ++ new) by (by rewrite <- app_assoc).
    split; [done|]. split; [|split; [done|]].
    + constructor; [|done]. by repeat split.
    + intros -> o' [= <-]. by destruct Hsound as [?|[? _]].
Qed.

Lemma initOrgans_sound (random : nat → R) (width height : R)
    (organs : StrMap.t (Organ.t R)) :
  initOrgans random width height = Some organs →
  Forall2 organ_of CHAINS organs
  ∧ (∀ o, organs.*2 !! 0%nat = Some o
          → Organ.x o = width / 2 ∧ Organ.y o = height / 2)
  ∧ spaced (width / 2) (height / 2) organs.
Proof.
  unfold initOrgans. cbv zeta.
  destruct (placeAll random (width / 2) (height / 2) CHAINS [] 0) as [_ Hres].
  { apply CHAINS_names_NoDup. }
  { intros a b oa ob _ Ha. done. }
  destruct (fold_left _ _ _) as [[[placed organs'] k]|] eqn:Hf; [|done].
  intros [= ->]. destruct (Hres _ eq_refl) as (new & k' & [= _ -> _] & H2 & Hs & H0).
  split; [done|]. split; [by apply H0|done].
Qed.

(** X14: when [Math.random()] is in [0, 1), [initOrgans] returns (it never
    reads an element that [placed] does not have) a map with one organ per
    configured chain, in the order of [CHAINS], under the name of the chain,
    with its display name and colour, radius 40 and no cell; the first is at
    the centre of the window, and each of the others is either at that
    centre, when its 100 attempts all overlapped, or at least
    [2 * 40 * 1.15 + 10 = 102] from every organ placed before it. *)
Theorem initOrgans_law (random : nat → R) (width height : R) :
  (∀ k, 0 <= random k < 1) →
  ∃ organs,
    initOrgans random width height = Some organs
    ∧ Forall2 organ_of CHAINS organs
    ∧ (∀ o, organs.*2 !! 0%nat = Some o
            → Organ.x o = width / 2 ∧ Organ.y o = height / 2)
    ∧ spaced (width / 2) (height / 2) organs.
Proof.
  intros Hr.
  destruct (placeAll random (width / 2) (height / 2) CHAINS [] 0) as [Htot _].
  { apply CHAINS_names_NoDup. }
  { intros a b oa ob _ Ha. done. }
  destruct (Htot Hr) as [[[placed organs] k] Hf].
  assert (Hi : initOrgans random width height = Some organs).
  { exact (f_equal (λ r : option (list Placed * StrMap.t (Organ.t R) * nat),
                      match r with Some (_, organs, _) => Some organs | None => None end)
                   Hf). }
  exists organs. split; [done|]. by apply (initOrgans_sound random).
Qed.

Lemma initOrgans_law_witness :
  ∃ organs,
    initOrgans Ideal.still 800 600 = Some organs
    ∧ Forall2 organ_of CHAINS organs
    ∧ (∀ o, organs.*2 !! 0%nat = Some o
            → Organ.x o = 800 / 2 ∧ Organ.y o = 600 / 2)
    ∧ spaced (800 / 2) (600 / 2) organs.
Proof. apply initOrgans_law. intros k. unfold Ideal.still. lra. Defined.

End InitOrgans.

(** * What holds at all times *)

Section Reachable.
Import Visualizer.
Local Open Scope R_scope.

Lemma Forall_through {A B : Type} (f : A → B) (P : B → Prop) (l l' : list A) :
  f <$> l' = f <$> l → Forall (λ a, P (f a)) l → Forall (λ a, P (f a)) l'.
Proof.
  intros Heq Hl. apply (Forall_fmap f P). rewrite Heq. by apply Forall_fmap.
Qed.

Lemma memberCount_chains (k : string) (cells cells' : list (Cell.t R)) :
  Cell.chain <$> cells' = Cell.chain <$> cells →
  memberCount k cells' = memberCount k cells.
Proof.
  intros Heq. unfold memberCount.
  rewrite <- !(length_fmap Cell.chain).
  rewrite !(filter_fmap Cell.chain (λ s, String.eqb s k)). by rewrite Heq.
Qed.

Lemma memberCount_app (k : string) (l1 l2 : list (Cell.t R)) :
  memberCount k (l1 ++ l2) = (memberCount k l1 + memberCount k l2)%nat.
Proof. unfold memberCount. by rewrite List.filter_app, length_app. Qed.

Lemma memberCount_delete (k : string) (cells : list (Cell.t R)) i c :
  cells !! i = Some c →
  memberCount k cells
  = (memberCount k (delete i cells) + if String.eqb (Cell.chain c) k then 1 else 0)%nat.
Proof.
  intros Hi. rewrite <- (take_drop_middle cells i c Hi) at 1.
  rewrite delete_take_drop, !memberCount_app.
  change (c :: drop (S i) cells) with ([c] ++ drop (S i) cells).
  rewrite memberCount_app. unfold memberCount at 2. simpl.
  destruct (String.eqb (Cell.chain c) k); simpl; lia.
Qed.


Lemma consistent_initial : consistent initial.
Proof.
  split; simpl; try by constructor.
  - intros k. unfold memberCount. simpl. lia.
Qed.

Lemma organ_of_chain (organs : StrMap.t (Organ.t R)) (chain : ChainConfig.t) :
  Forall2 organ_of CHAINS organs → chain ∈ CHAINS →
  is_Some (StrMap.get organs (ChainConfig.name chain)).
Proof.
  intros H2 Hin. apply list_elem_of_lookup in Hin as [i Hi].
  destruct (Forall2_lookup_l _ _ _ _ _ H2 Hi) as ([k o] & Ho & Hk & _).
  simpl in Hk. subst k.
  apply list_elem_of_lookup_2 in Ho. clear -Ho.
  induction organs as [|[k' o'] organs IH]; [by apply elem_of_nil in Ho|].
  simpl. destruct (String.eqb_spec k' (ChainConfig.name chain)); [done|].
  apply IH. apply elem_of_cons in Ho as [[= <- <-]|Ho]; done.
Qed.

Lemma consistent_resize (st : state) random width height :
  consistent st → consistent (step st (Resize random width height)).
Proof.
  intros [H1 H2 H3 H4 H5 H6 H7 H8]. simpl.
  destruct (initOrgans random width height) as [organs'|] eqn:Hi; [|by split].
  apply initOrgans_sound in Hi as (Hshape & _ & _).
  assert (Hkeys : organs'.*1 = ChainConfig.name <$> CHAINS).
  { clear -Hshape. induction Hshape as [|c [k o] cs os Hc _ IH]; [done|].
    rewrite !fmap_cons, IH. f_equal. apply Hc. }
  split; simpl; try done.
  - eapply Forall_impl; [exact H3|]. intros c (chain & Hin & Hch & _).
    rewrite Hch. by apply organ_of_chain.
  - unfold StrMap.wf, StrMap.keys. rewrite Hkeys. apply CHAINS_names_NoDup.
  - clear -Hshape. induction Hshape as [|c [k o] cs os Hc _ IH]; constructor; [|done].
    destruct Hc as (_ & _ & _ & _ & Hr & _). simpl in *. lra.
Qed.

Lemma eased_radius (random : nat → R) (cells : list (Cell.t R))
    (organs : StrMap.t (Organ.t R)) (dt : R) (i : nat) (c' : Cell.t R) :
  (stepPhysics random cells organs dt).1 !! i = Some c' →
  ∃ c, cells !! i = Some c
       ∧ Cell.targetRadius c' = Cell.targetRadius c
       ∧ (Cell.radius c' = Cell.radius c
          ∨ Cell.radius c'
            = Cell.radius c + (Cell.targetRadius c - Cell.radius c) * 0.05).
Proof.
  intros Hc'.
  pose proof (stepPhysics_cells_obs Cell.targetRadius random cells organs dt
                ltac:(done) ltac:(done) ltac:(done) ltac:(done) ltac:(done) ltac:(done))
    as Ht.
  assert (Hlen : length (stepPhysics random cells organs dt).1 = length cells).
  { by rewrite <- (length_fmap Cell.targetRadius), Ht, length_fmap. }
  destruct (lookup_lt_is_Some_2 cells i) as [c Hc].
  { rewrite <- Hlen. by eapply lookup_lt_Some. }
  exists c. split; [done|].
  apply (f_equal (λ l, l !! i)) in Ht. rewrite !list_lookup_fmap, Hc, Hc' in Ht.
  split; [by injection Ht|].
  destruct (StrMap.get organs (Cell.chain c)) as [o|] eqn:Ho.
  - destruct (stepPhysics_eases random cells organs dt i c Hc) as (c1 & Hc1 & _ & _ & Hr).
    { by rewrite Ho. }
    right. assert (c1 = c') by congruence. subst c1. rewrite Hr. unfold lit. cbn. lra.
  - destruct (stepPhysics_skips random cells organs dt i c Hc Ho) as (c1 & Hc1 & Hr).
    left. congruence.
Qed.

Lemma consistent_frame (st : state) random time :
  consistent st → consistent (step st (Frame random time)).
Proof.
  intros [H1 H2 H3 H4 H5 H6 H7 H8]. simpl. unfold animate.
  set (dt := if RadiusMapping.falsy (lastTime st) then 0.016
             else (time - lastTime st) / 1000).
  pose proof (λ {A : Type} (f : Cell.t R → A),
    stepPhysics_cells_obs f random (cells st) (organs st) dt) as Hobs.
  pose proof (λ {A : Type} (f : Organ.t R → A),
    stepPhysics_organs_view f random (cells st) (organs st) dt) as Hview.
  pose proof (eased_radius random (cells st) (organs st) dt) as Hease.
  assert (Hsize : Forall (λ kv, 40 <= Organ.radius kv.2)
                    (stepPhysics random (cells st) (organs st) dt).2).
  { unfold stepPhysics. cbv zeta. simpl.
    pose proof (stepOrgans_sizes (nmin dt (lit 0.033)) (cells st) (organs st) H7) as Hs.
    assert (HF : Forall (λ kv : string * (R * R), 40 <= kv.2.1)
                   (StrMap.view (λ o, (Organ.radius o, Organ.cellCount o))
                      (stepOrgans (nmin dt (lit 0.033)) (cells st) (organs st)))).
    { rewrite Hs. apply Forall_fmap, Forall_forall. intros [k o] _. simpl.
      unfold PHYSICS.ORGAN_BASE_RADIUS, PHYSICS.ORGAN_GROWTH_PER_CELL.
      cbn -[R_sqrt.sqrt].
      pose proof (sqrt_pos (count_up (memberCount k (cells st)))). nra. }
    unfold StrMap.view in HF. apply (proj1 (Forall_fmap _ _ _)) in HF.
    eapply Forall_impl; [exact HF|]. by intros [k o]. }
  destruct (stepPhysics random (cells st) (organs st) dt) as [cells' organs'].
  simpl in *. split; simpl.
  - by rewrite Hobs.
  - apply (Forall_through
             (λ c, (Cell.id c, Cell.chain c, Cell.pairAddress c))
             (λ t, t.1.1 = (t.1.2 ++ "-" ++ t.2)%string) (cells st)); [|done].
    by apply Hobs.
  - apply (Forall_through (λ c, (Cell.chain c, Cell.color c))
             (λ t, ∃ chain, chain ∈ CHAINS ∧ t.1 = ChainConfig.name chain
                            ∧ t.2 = ChainConfig.color chain) (cells st)); [|done].
    by apply Hobs.
  - apply (Forall_through Cell.chain (λ k, is_Some (StrMap.get organs' k)) (cells st)).
    + by apply Hobs.
    + eapply Forall_impl; [exact H4|]. intros c Hc. simpl.
      apply (get_is_Some_view (λ _, tt) (organs st)); [|done]. by apply Hview.
  - intros k. rewrite (memberCount_chains k (cells st)); [done|]. by apply Hobs.
  - apply Forall_lookup. intros i c' Hc'.
    destruct (Hease i c' Hc') as (c & Hc & Ht & Hr).
    rewrite Forall_lookup in H6. specialize (H6 i c Hc). rewrite Ht.
    split; [tauto|]. destruct Hr as [->| ->]; [tauto|]. lra.
  - unfold StrMap.wf in *.
    rewrite (view_keys (λ _, tt) (organs st) organs'); [done|]. by apply Hview.
  - done.
Qed.


Lemma evict_spec (cells : list (Cell.t R)) (k : string) :
  (evict cells k = cells ∧ (memberCount k cells < 80)%nat)
  ∨ ∃ i old, cells !! i = Some old ∧ Cell.chain old = k
             ∧ evict cells k = delete i cells.
Proof.
  unfold evict. rewrite chainCells_length.
  destruct (RadiusMapping.leb _ _) eqn:Hfull.
  - apply at_capacity in Hfull. right.
    destruct (oldest_spec (chainCells cells k)) as (l1 & [i old] & l2 & -> & Hl & _).
    { intros Hnil. rewrite <- chainCells_length, Hnil in Hfull. simpl in Hfull. lia. }
    assert (Hin : (i, old) ∈ chainCells cells k).
    { rewrite Hl. apply elem_of_app. right. by left. }
    apply elem_of_chainCells in Hin as [Hi Hch]. by exists i, old.
  - left. split; [done|]. apply not_true_iff_false in Hfull.
    rewrite at_capacity in Hfull. lia.
Qed.

Lemma consistent_message (st : state) random now event :
  consistent st → consistent (step st (Message random now event)).
Proof.
  intros [H1 H2 H3 H4 H5 H6 H7 H8]. simpl. unfold handleEvent.
  destruct (StrMap.get CHAIN_MAP (StreamEvent.chain event)) as [cfg|] eqn:Hcfg;
    [|by split].
  apply CHAIN_MAP_get in Hcfg as [Hin Hname].
  destruct (StreamEvent.type event).
  - destruct (existsb _ (cells st)) eqn:Hdup; [by split|].
    apply existsb_pairAddress in Hdup.
    destruct (StrMap.get (organs st) (StreamEvent.chain event)) as [organ|] eqn:Horg;
      [|by split].
    set (new := newCell random now cfg organ event).
    pose proof (liquidityToRadius_range
                  (Some (default 0 (StreamEvent.liquidity event)))) as Hrad.
    assert (Hsub : ∀ P : Cell.t R → Prop,
              Forall P (cells st) → Forall P (evict (cells st) (StreamEvent.chain event))).
    { intros P HP. destruct (evict_spec (cells st) (StreamEvent.chain event))
        as [[-> _]|(i & old & _ & _ & ->)]; [done|]. by apply Forall_delete. }
    split; simpl.
    + rewrite fmap_app. apply NoDup_app. split; [|split].
      * destruct (evict_spec (cells st) (StreamEvent.chain event))
          as [[-> _]|(i & old & _ & _ & ->)]; [done|].
        rewrite list_fmap_delete. eapply sublist_NoDup; [exact H1|apply sublist_delete].
      * intros p Hp Hnew. apply list_elem_of_singleton in Hnew. subst p.
        simpl in Hp. apply Hdup.
        destruct (evict_spec (cells st) (StreamEvent.chain event))
          as [[Heq _]|(i & old & _ & _ & Heq)]; rewrite Heq in Hp; [done|].
        rewrite list_fmap_delete in Hp. eapply elem_of_sublist; [exact Hp|].
        apply sublist_delete.
      * apply NoDup_singleton.
    + apply Forall_app. split; [by apply Hsub|]. by repeat constructor.
    + apply Forall_app. split; [by apply Hsub|]. repeat constructor.
      exists cfg. by repeat split.
    + apply Forall_app. split; [by apply Hsub|]. repeat constructor.
      simpl. by rewrite Horg.
    + intros k. rewrite memberCount_app.
      destruct (evict_spec (cells st) (StreamEvent.chain event))
        as [[-> Hlt]|(i & old & Hi & Hch & ->)].
      * unfold memberCount at 2. simpl.
        destruct (String.eqb_spec (StreamEvent.chain event) k) as [<-|_]; simpl.
        -- lia.
        -- specialize (H5 k). lia.
      * pose proof (memberCount_delete k (cells st) i old Hi) as Hd. rewrite Hch in Hd.
        specialize (H5 k). unfold memberCount at 2. simpl.
        destruct (String.eqb (StreamEvent.chain event) k); simpl; lia.
    + apply Forall_app. split; [by apply Hsub|]. constructor; [|constructor].
      unfold new, newCell. cbv zeta. cbn [Cell.targetRadius Cell.radius]. lra.
    + done.
    + done.
  - pose proof (findPair_spec (cells st) (StreamEvent.pairAddress event)) as Hf.
    destruct (findPair (cells st) (StreamEvent.pairAddress event)) as [[i c]|];
      [|by split].
    destruct Hf as (Hi & _ & _).
    assert (Hsame : ∀ {A : Type} (f : Cell.t R → A),
              (∀ c, f (retarget now event c) = f c) →
              f <$> <[i := retarget now event c]> (cells st) = f <$> cells st).
    { intros A f Hfc. rewrite list_fmap_insert, Hfc. apply list_insert_id.
      by rewrite list_lookup_fmap, Hi. }
    split; simpl.
    + by rewrite Hsame.
    + apply (Forall_through
               (λ c, (Cell.id c, Cell.chain c, Cell.pairAddress c))
               (λ t, t.1.1 = (t.1.2 ++ "-" ++ t.2)%string) (cells st)); [|done].
      by apply Hsame.
    + apply (Forall_through (λ c, (Cell.chain c, Cell.color c))
               (λ t, ∃ chain, chain ∈ CHAINS ∧ t.1 = ChainConfig.name chain
                              ∧ t.2 = ChainConfig.color chain) (cells st)); [|done].
      by apply Hsame.
    + apply (Forall_through Cell.chain
               (λ k, is_Some (StrMap.get (organs st) k)) (cells st)); [|done].
      by apply Hsame.
    + intros k. rewrite (memberCount_chains k (cells st)); [done|]. by apply Hsame.
    + apply Forall_insert; [done|]. rewrite Forall_lookup in H6.
      specialize (H6 i c Hi). split; [apply retarget_range|]. simpl. tauto.
    + done.
    + done.
Qed.

(** Every state the component goes through is consistent. *)
Lemma run_consistent (inputs : list input) : consistent (run inputs).
Proof.
  unfold run. apply fold_left_invariant; [|apply consistent_initial].
  intros st [random width height|random time|random now event] Hst.
  - by apply consistent_resize.
  - by apply consistent_frame.
  - by apply consistent_message.
Qed.


Lemma hyphen_split (s1 s2 t1 t2 : string) :
  hyphen_free s1 = true → hyphen_free s2 = true →
  (s1 ++ "-" ++ t1)%string = (s2 ++ "-" ++ t2)%string → s1 = s2 ∧ t1 = t2.
Proof.
  revert s2. induction s1 as [|a s1 IH]; intros [|b s2] H1 H2 Heq; simpl in *.
  - by injection Heq.
  - injection Heq as <- _. by rewrite Ascii.eqb_refl in H2.
  - injection Heq as -> _. by rewrite Ascii.eqb_refl in H1.
  - injection Heq as -> Heq.
    apply andb_true_iff in H1 as [_ H1]. apply andb_true_iff in H2 as [_ H2].
    destruct (IH s2 H1 H2 Heq) as [-> ->]. done.
Qed.

Lemma CHAINS_hyphen_free :
  Forall (λ chain, hyphen_free (ChainConfig.name chain) = true) CHAINS.
Proof. repeat constructor. Qed.

(** X15: whatever the browser delivers, in whatever order (resizes, frames,
    messages of the stream), no two cells on screen have the same pair
    address, and no two have the same identifier: the names of the
    configured chains hold no [-], so the identifier
    [`${chain}-${pairAddress}`] determines both of its parts. *)
Theorem cells_stay_unique (inputs : list input) :
  NoDup (Cell.pairAddress <$> cells (run inputs))
  ∧ NoDup (Cell.id <$> cells (run inputs)).
Proof.
  destruct (run_consistent inputs) as [H1 H2 H3 _ _ _ _ _].
  split; [done|].
  apply NoDup_fmap_2_strong; [|by eapply NoDup_fmap_1].
  intros c d Hc Hd Hid.
  rewrite Forall_forall in H2, H3.
  rewrite (H2 c Hc), (H2 d Hd) in Hid.
  destruct (H3 c Hc) as (cc & Hcc & Hchc & _). destruct (H3 d Hd) as (cd & Hcd & Hchd & _).
  pose proof CHAINS_hyphen_free as Hfree. rewrite Forall_forall in Hfree.
  apply hyphen_split in Hid as [_ Hp];
    [|rewrite Hchc; by apply Hfree|rewrite Hchd; by apply Hfree].
  apply list_elem_of_lookup in Hc as [i Hi]. apply list_elem_of_lookup in Hd as [j Hj].
  assert (i = j).
  { apply (NoDup_lookup _ i j (Cell.pairAddress c) H1).
    - by rewrite list_lookup_fmap, Hi.
    - by rewrite list_lookup_fmap, Hj, Hp. }
  congruence.
Qed.

(** X16: whatever the browser delivers, no chain ever has more than
    [MAX_CELLS_PER_CHAIN = 80] cells on screen. *)
Theorem chains_stay_capped (inputs : list input) (k : string) :
  (memberCount k (cells (run inputs)) ≤ 80)%nat.
Proof. apply run_consistent. Qed.

(** X17: whatever the browser delivers, every cell on screen is of a
    configured chain, is drawn in the colour of that chain, and has its
    organ in the map: the first loop of [stepPhysics] skips none of them. *)
Theorem cells_stay_owned (inputs : list input) :
  Forall (λ c, known_chain c
               ∧ is_Some (StrMap.get (organs (run inputs)) (Cell.chain c)))
         (cells (run inputs)).
Proof.
  destruct (run_consistent inputs) as [_ _ H3 H4 _ _ _ _].
  apply Forall_and. by split.
Qed.

Lemma get_elem_of {V : Type} (m : StrMap.t V) k v :
  StrMap.get m k = Some v → (k, v) ∈ m.
Proof. intros Hg. by apply list_elem_of_In, get_Some_In. Qed.

(** X18: whatever the browser delivers, every cell on screen has a radius in
    [2, 20] and a target radius in [4, 20], its organ has a radius of 40 or
    more, and so its containment radius is 9 or more: the [max(0, ...)] of
    the containment radius never takes effect. *)
Theorem radii_stay_bounded (inputs : list input) :
  Forall (λ c,
      2 <= Cell.radius c <= 20
      ∧ 4 <= Cell.targetRadius c <= 20
      ∧ ∀ o, StrMap.get (organs (run inputs)) (Cell.chain c) = Some o →
             40 <= Organ.radius o ∧ 9 <= containmentRadius o c)
    (cells (run inputs)).
Proof.
  destruct (run_consistent inputs) as [_ _ _ _ _ H6 _ H8].
  eapply Forall_impl; [exact H6|]. intros c [Ht Hr].
  split; [done|]. split; [done|]. intros o Ho.
  apply get_elem_of in Ho. rewrite Forall_forall in H8. specialize (H8 _ Ho).
  simpl in H8. split; [done|].
  unfold containmentRadius, ORGAN_INNER_FACTOR, CELL_WOBBLE_FACTOR, lit. cbn -[Rmax].
  etrans; [|apply Rmax_r]. lra.
Qed.

End Reachable.

(** * The pointer *)

Section PointerFacts.
Import Pointer.
Local Open Scope R_scope.

(** X19: the wheel handler leaves the zoom within [0.2, 5] and the point of
    the world under the pointer where it was, over the reals. *)
Theorem wheel_zooms_about_the_pointer (cam : Camera.t) (w h deltaY clientX clientY : R) :
  let cam' := onWheel cam w h deltaY clientX clientY in
  0.2 <= Camera.zoom cam' <= 5
  ∧ toWorld cam' w h clientX clientY = toWorld cam w h clientX clientY.
Proof.
  unfold onWheel, toWorld. cbv zeta. cbn [Camera.x Camera.y Camera.zoom]. split.
  - split; [apply Rmax_l|]. apply Rmax_lub; [lra|apply Rmin_l].
  - f_equal; ring.
Qed.

(** X20: a drag moves the camera by the displacement of the pointer in
    window units, whatever the zoom: the point of the world that was grabbed
    is off the pointer by that displacement times [1 / zoom - 1], which is 0
    at zoom 1 only.  The zoom is not changed. *)
Theorem drag_drifts_with_zoom (cam : Camera.t) (w h downX downY moveX moveY : R) :
  let grabbed := toWorld cam w h downX downY in
  let cam' := onMouseMove (onMouseDown cam downX downY) moveX moveY in
  Camera.zoom cam' = Camera.zoom cam
  ∧ (toWorld cam' w h moveX moveY).1 - grabbed.1
    = (moveX - downX) * (1 / Camera.zoom cam - 1)
  ∧ (toWorld cam' w h moveX moveY).2 - grabbed.2
    = (moveY - downY) * (1 / Camera.zoom cam - 1).
Proof.
  unfold onMouseMove, onMouseDown, toWorld. cbv zeta. simpl.
  split; [done|]. split; unfold Rdiv; ring.
Qed.

Lemma closestCell_spec (cells : list (Cell.t R)) (p : R * R) :
  match closestCell cells p.1 p.2 with
  | Some (i, d) =>
      ∃ c, cells !! i = Some c ∧ d = cellDistance p c ∧ hit p c
           ∧ ∀ j c', cells !! j = Some c' → hit p c' →
               (cellDistance p c <= cellDistance p c')
               ∧ ((j < i)%nat → cellDistance p c < cellDistance p c')
  | None => Forall (λ c, ¬ hit p c) cells
  end.
Proof.
  unfold closestCell.
  set (body := λ (closest : option (nat * R)) (ic : nat * Cell.t R),
         if RealOps.ltb (cellDistance p ic.2) (Cell.radius ic.2 * 1.5)
            && match closest with
               | Some (_, closestDist) => RealOps.ltb (cellDistance p ic.2) closestDist
               | None => true
               end
         then Some (ic.1, cellDistance p ic.2) else closest).
  change (match fold_left body (imap (λ i c, (i, c)) cells) None with
          | Some (i, d) =>
              ∃ c, cells !! i = Some c ∧ d = cellDistance p c ∧ hit p c
                   ∧ ∀ j c', cells !! j = Some c' → hit p c' →
                       (cellDistance p c <= cellDistance p c')
                       ∧ ((j < i)%nat → cellDistance p c < cellDistance p c')
          | None => Forall (λ c, ¬ hit p c) cells
          end).
  (* the loop invariant, over the cells seen so far *)
  set (Inv := λ (seen : list (Cell.t R)) (closest : option (nat * R)),
         match closest with
         | Some (i, d) =>
             ∃ c, seen !! i = Some c ∧ d = cellDistance p c ∧ hit p c
                  ∧ ∀ j c', seen !! j = Some c' → hit p c' →
                      (cellDistance p c <= cellDistance p c')
                      ∧ ((j < i)%nat → cellDistance p c < cellDistance p c')
         | None => Forall (λ c, ¬ hit p c) seen
         end).
  assert (Hloop : ∀ rest seen closest, Inv seen closest →
            Inv (seen ++ rest)
                (fold_left body (imap (λ i c, ((length seen + i)%nat, c)) rest) closest)).
  { induction rest as [|c rest IH]; intros seen closest HI.
    - by rewrite app_nil_r.
    - rewrite imap_cons. cbn [fold_left].
      assert (Heq : imap ((λ i c, ((length seen + i)%nat, c)) ∘ S) rest
                    = imap (λ i e, ((length (seen ++ [c]) + i)%nat, e)) rest).
      { apply imap_ext. intros i d _. simpl. rewrite length_app. simpl. f_equal. lia. }
      rewrite Heq. replace (seen ++ c :: rest) with ((seen ++ [c]) ++ rest)
        by (by rewrite <- app_assoc).
      apply IH. unfold body. cbn [fst snd]. rewrite Nat.add_0_r.
      unfold RealOps.ltb at 1.
      destruct (Rlt_dec (cellDistance p c) (Cell.radius c * 1.5)) as [Hhit|Hmiss];
        cbn [andb].
      + destruct closest as [[i d]|].
        * destruct HI as (c0 & Hc0 & -> & Hh0 & Hmin).
          unfold RealOps.ltb. destruct (Rlt_dec _ _) as [Hlt|Hge].
          -- exists c. split; [by rewrite lookup_app_r, Nat.sub_diag by lia|].
             split; [done|]. split; [done|]. intros j c' Hj Hh'.
             destruct (decide (j < length seen)%nat) as [Hjs|Hjs].
             ++ rewrite lookup_app_l in Hj by done.
                destruct (Hmin j c' Hj Hh') as [Hle _]. split; [lra|]. intros _. lra.
             ++ rewrite lookup_app_r in Hj by lia.
                destruct (j - length seen)%nat eqn:Ej; [|by destruct n].
                injection Hj as <-. split; [lra|lia].
          -- exists c0. split; [by apply lookup_app_l_Some|].
             split; [done|]. split; [done|]. intros j c' Hj Hh'.
             destruct (decide (j < length seen)%nat) as [Hjs|Hjs].
             ++ rewrite lookup_app_l in Hj by done. by apply Hmin.
             ++ rewrite lookup_app_r in Hj by lia.
                destruct (j - length seen)%nat eqn:Ej; [|by destruct n].
                injection Hj as <-. split; [lra|].
                intros Hji. apply lookup_lt_Some in Hc0. lia.
        * exists c. split; [by rewrite lookup_app_r, Nat.sub_diag by lia|].
          split; [done|]. split; [done|]. intros j c' Hj Hh'.
          destruct (decide (j < length seen)%nat) as [Hjs|Hjs].
          -- rewrite lookup_app_l in Hj by done. simpl in HI.
             rewrite Forall_lookup in HI. by destruct (HI j c' Hj).
          -- rewrite lookup_app_r in Hj by lia.
             destruct (j - length seen)%nat eqn:Ej; [|by destruct n].
             injection Hj as <-. split; [lra|lia].
      + destruct closest as [[i d]|].
        * destruct HI as (c0 & Hc0 & -> & Hh0 & Hmin).
          exists c0. split; [by apply lookup_app_l_Some|].
          split; [done|]. split; [done|]. intros j c' Hj Hh'.
          destruct (decide (j < length seen)%nat) as [Hjs|Hjs].
          -- rewrite lookup_app_l in Hj by done. by apply Hmin.
          -- rewrite lookup_app_r in Hj by lia.
             destruct (j - length seen)%nat eqn:Ej; [|by destruct n].
             injection Hj as <-. done.
        * simpl in *. apply Forall_app. split; [done|]. by repeat constructor. }
  apply (Hloop cells [] None). simpl. constructor.
Qed.


(** X21: on releasing the button, nothing is assigned to the selection when
    the pointer moved more than 3 units on an axis since the button went
    down; otherwise the selection becomes the cell whose centre is nearest
    to the point clicked among those hit (the centre is less than 1.5 radii
    away), the first in the array among equally near ones, and [null] when
    no cell is hit. *)
Theorem click_selects_nearest (cam : Camera.t) (cells : list (Cell.t R))
    (w h clientX clientY : R) :
  let p := toWorld cam w h clientX clientY in
  let dx := clientX - Camera.dragStartX cam in
  let dy := clientY - Camera.dragStartY cam in
  match (onMouseUp cam cells w h clientX clientY).2 with
  | None => 3 < Rabs dx ∨ 3 < Rabs dy
  | Some selected =>
      Rabs dx <= 3 ∧ Rabs dy <= 3
      ∧ match selected with
        | Some i =>
            ∃ c, cells !! i = Some c ∧ hit p c
                 ∧ ∀ j c', cells !! j = Some c' → hit p c' →
                     (cellDistance p c <= cellDistance p c')
                     ∧ ((j < i)%nat → cellDistance p c < cellDistance p c')
        | None => Forall (λ c, ¬ hit p c) cells
        end
  end.
Proof.
  intros p dx dy. pose proof (closestCell_spec cells p) as Hc. revert Hc.
  unfold onMouseUp. cbv zeta. cbn [snd]. fold dx dy. unfold p.
  generalize (toWorld cam w h clientX clientY). intros [worldX worldY] Hc.
  cbn [fst snd] in Hc. unfold RealOps.ltb.
  destruct (Rlt_dec 3 (Rabs dx)) as [Hx|Hx]; cbn [orb]; [by left|].
  destruct (Rlt_dec 3 (Rabs dy)) as [Hy|Hy]; [by right|].
  split; [lra|]. split; [lra|].
  destruct (closestCell cells worldX worldY) as [[i d]|]; simpl; [|done].
  destruct Hc as (c & Hi & _ & Hh & Hmin). by exists c.
Qed.

End PointerFacts.

(** * The outline of a blob *)

Section BlobFacts.
Import Renderer.
Local Open Scope R_scope.

Lemma outlineRadius_bounds (radius phase amplitude angle : R) :
  0 <= radius → 0 <= amplitude →
  radius * (1 - amplitude * (25 / 12))
  <= outlineRadius radius phase 4 amplitude angle
  <= radius * (1 + amplitude * (25 / 12)).
Proof.
  intros Hr Ha. unfold outlineRadius. cbn -[sin INR].
  change (INR 1) with 1. change (INR 2) with (1 + 1).
  replace (INR 3) with 3 by (simpl; lra). replace (INR 4) with 4 by (simpl; lra).
  set (s1 := sin _). set (s2 := sin _). set (s3 := sin _). set (s4 := sin _).
  assert (H1 : -1 <= s1 <= 1) by apply SIN_bound.
  assert (H2 : -1 <= s2 <= 1) by apply SIN_bound.
  assert (H3 : -1 <= s3 <= 1) by apply SIN_bound.
  assert (H4 : -1 <= s4 <= 1) by apply SIN_bound.
  assert (Hra : 0 <= radius * amplitude) by nra.
  set (ra := radius * amplitude) in *.
  replace (radius + s1 * radius * amplitude * (1 / 1)
           + s2 * radius * amplitude * (1 / (1 + 1))
           + s3 * radius * amplitude * (1 / 3) + s4 * radius * amplitude * (1 / 4))
    with (radius + ra * (s1 + s2 / 2 + s3 / 3 + s4 / 4)) by (unfold ra; field).
  replace (radius * (1 - amplitude * (25 / 12))) with (radius - ra * (25 / 12))
    by (unfold ra; field).
  replace (radius * (1 + amplitude * (25 / 12))) with (radius + ra * (25 / 12))
    by (unfold ra; field).
  split; nra.
Qed.

Lemma point_distance (x y angle r : R) :
  0 <= r → pointDistance (x + cos angle * r, y + sin angle * r) (x, y) = r.
Proof.
  intros Hr. unfold pointDistance. cbn [fst snd].
  replace (x + cos angle * r - x) with (cos angle * r) by ring.
  replace (y + sin angle * r - y) with (sin angle * r) by ring.
  by apply cos_sin_scaled.
Qed.

(** X22: the points of the outline of a blob of 4 harmonics and amplitude
    [a <= 12/25] are between [radius * (1 - a * 25/12)] and
    [radius * (1 + a * 25/12)] from its centre.  So the outline of a cell
    ([WOBBLE_AMPLITUDE = 0.08]) stays within the [CELL_WOBBLE_FACTOR] of the
    physics, that of an organ (amplitude 0.06) between its
    [ORGAN_INNER_FACTOR] and its [ORGAN_OUTER_FACTOR]; and an outline has 24
    points or more. *)
Theorem blob_outline_bounds (x y radius phase : R) :
  0 <= radius →
  (∀ amplitude, 0 <= amplitude <= 12 / 25 →
     Forall (λ p, radius * (1 - amplitude * (25 / 12)) <= pointDistance p (x, y)
                  <= radius * (1 + amplitude * (25 / 12)))
            (points x y radius phase 4 amplitude))
  ∧ Forall (λ p, pointDistance p (x, y) <= radius * CELL_WOBBLE_FACTOR)
           (points x y radius phase RENDER.WOBBLE_HARMONICS RENDER.WOBBLE_AMPLITUDE)
  ∧ Forall (λ p, radius * ORGAN_INNER_FACTOR <= pointDistance p (x, y)
                 <= radius * ORGAN_OUTER_FACTOR)
           (points x y radius phase 4 0.06)
  ∧ ∀ harmonics amplitude,
      (24 ≤ length (points x y radius phase harmonics amplitude))%nat.
Proof.
  intros Hr.
  assert (Hgen : ∀ amplitude, 0 <= amplitude <= 12 / 25 →
     Forall (λ p, radius * (1 - amplitude * (25 / 12)) <= pointDistance p (x, y)
                  <= radius * (1 + amplitude * (25 / 12)))
            (points x y radius phase 4 amplitude)).
  { intros amplitude Ha. unfold points. cbv zeta. apply Forall_forall. intros p Hp.
    apply list_elem_of_In, in_map_iff in Hp as (i & <- & _).
    pose proof (outlineRadius_bounds radius phase amplitude
                  (INR i / INR (segments radius) * PI * 2) Hr ltac:(lra)) as Hb.
    rewrite point_distance; [done|]. nra. }
  split; [exact Hgen|]. split; [|split].
  - eapply Forall_impl; [apply (Hgen RENDER.WOBBLE_AMPLITUDE)|].
    + unfold RENDER.WOBBLE_AMPLITUDE. lra.
    + intros p [_ Hp]. simpl in Hp. unfold CELL_WOBBLE_FACTOR, lit,
        RENDER.WOBBLE_AMPLITUDE in *. cbn in *. nra.
  - eapply Forall_impl; [apply (Hgen 0.06); lra|].
    intros p Hp. simpl in Hp. unfold ORGAN_INNER_FACTOR, ORGAN_OUTER_FACTOR, lit.
    cbn. nra.
  - intros harmonics amplitude. unfold points. cbv zeta.
    rewrite length_map, length_seq. unfold segments. lia.
Qed.

Lemma blob_outline_bounds_witness :
  (∀ amplitude, 0 <= amplitude <= 12 / 25 →
     Forall (λ p, 7 * (1 - amplitude * (25 / 12)) <= pointDistance p (0, 0)
                  <= 7 * (1 + amplitude * (25 / 12)))
            (points 0 0 7 0 4 amplitude))
  ∧ Forall (λ p, pointDistance p (0, 0) <= 7 * CELL_WOBBLE_FACTOR)
           (points 0 0 7 0 RENDER.WOBBLE_HARMONICS RENDER.WOBBLE_AMPLITUDE)
  ∧ Forall (λ p, 7 * ORGAN_INNER_FACTOR <= pointDistance p (0, 0)
                 <= 7 * ORGAN_OUTER_FACTOR)
           (points 0 0 7 0 4 0.06)
  ∧ ∀ harmonics amplitude,
      (24 ≤ length (points 0 0 7 0 harmonics amplitude))%nat.
Proof. apply blob_outline_bounds. lra. Defined.

End BlobFacts.

(** * Culling and colours *)

Section RenderFacts.
Import Renderer.
Local Open Scope R_scope.

(** X23: at a positive zoom the renderer skips no disc that shows: if a
    point of the window is, in world coordinates, within [r + 100 / zoom] of
    the centre of the disc on both axes, the disc is drawn. *)
Theorem culling_keeps_what_shows (camera : Camera.t) (width height x y r : R)
    (clientX clientY : R) :
  0 < Camera.zoom camera →
  0 <= clientX <= width → 0 <= clientY <= height →
  let p := Pointer.toWorld camera width height clientX clientY in
  Rabs (p.1 - x) <= r + 100 / Camera.zoom camera →
  Rabs (p.2 - y) <= r + 100 / Camera.zoom camera →
  culled camera width height x y r = false.
Proof.
  intros Hz Hx Hy p Hpx Hpy. unfold culled. cbv zeta.
  unfold p, Pointer.toWorld in Hpx, Hpy. cbn [fst snd] in Hpx, Hpy.
  set (z := Camera.zoom camera) in *.
  assert (Hiz : 0 < / z) by (by apply Rinv_0_lt_compat).
  replace (width / (2 * z)) with (width / 2 * / z) by (field; lra).
  replace (height / (2 * z)) with (height / 2 * / z) by (field; lra).
  unfold Rdiv in *. set (iz := / z) in *.
  assert (Habs : ∀ a b : R, Rabs a <= b → - b <= a <= b).
  { intros a b Hab. unfold Rabs in Hab. destruct (Rcase_abs a); lra. }
  apply Habs in Hpx as [Hpx1 Hpx2]. apply Habs in Hpy as [Hpy1 Hpy2].
  assert (- (width * / 2) * iz <= (clientX - width * / 2) * iz <= width * / 2 * iz).
  { split; apply Rmult_le_compat_r; lra. }
  assert (- (height * / 2) * iz <= (clientY - height * / 2) * iz <= height * / 2 * iz).
  { split; apply Rmult_le_compat_r; lra. }
  unfold RealOps.ltb.
  repeat (destruct (Rlt_dec _ _); [exfalso; lra|]). done.
Qed.


Lemma culling_keeps_what_shows_witness :
  culled Pointer.initial 800 600 400 300 7 = false.
Proof.
  apply (culling_keeps_what_shows Pointer.initial 800 600 400 300 7 400 300).
  - simpl. lra.
  - lra.
  - lra.
  - simpl. apply Rabs_le. lra.
  - simpl. apply Rabs_le. lra.
Defined.

Lemma hexDigit_range (a : ascii) (d : N) : hexDigit a = Some d → (d < 16)%N.
Proof. destruct a as [[] [] [] [] [] [] [] []]; vm_compute; by intros [= <-]. Qed.

Lemma hexDigit_upper (a : ascii) : hexDigit (JsString.upper a) = hexDigit a.
Proof. by destruct a as [[] [] [] [] [] [] [] []]. Qed.

Lemma hexDigit_lower (a : ascii) : hexDigit (JsString.lower a) = hexDigit a.
Proof. by destruct a as [[] [] [] [] [] [] [] []]. Qed.

Lemma hexPair_range (a b : ascii) (v : N) : hexPair a b = Some v → (v < 256)%N.
Proof.
  unfold hexPair. destruct (hexDigit a) as [h|] eqn:Ha; [|done].
  destruct (hexDigit b) as [l|] eqn:Hb; [|done]. intros [= <-].
  apply hexDigit_range in Ha, Hb. lia.
Qed.

Lemma hexGroups_map (f : ascii → ascii) (hex : string) :
  (∀ a, hexDigit (f a) = hexDigit a) →
  (∀ a, Ascii.eqb (f a) "#" = Ascii.eqb a "#") →
  hexGroups (JsString.map f hex) = hexGroups hex.
Proof.
  intros Hd Hh.
  assert (Hstrip : ∀ s : string,
            match JsString.map f s with String "#" rest => rest | _ => JsString.map f s end
            = JsString.map f (match s with String "#" rest => rest | _ => s end)).
  { intros [|a s]; [done|]. cbn [JsString.map]. specialize (Hh a).
    destruct (Ascii.eqb a "#") eqn:Ha.
    - apply Ascii.eqb_eq in Hh, Ha. by rewrite Hh, Ha.
    - apply Ascii.eqb_neq in Hh, Ha.
      assert (Hm : ∀ (b : ascii) (t : string), b ≠ "#"%char →
                match String b t with String "#" rest => rest | _ => String b t end
                = String b t).
      { intros b t Hb. destruct b as [[] [] [] [] [] [] [] []]; try done. }
      by rewrite !Hm. }
  unfold hexGroups. cbv zeta. rewrite Hstrip.
  destruct (match hex with String "#" rest => rest | _ => hex end)
    as [|r1 [|r2 [|g1 [|g2 [|b1 [|b2 [|? ?]]]]]]]; try done.
  cbn [JsString.map]. unfold hexPair. by rewrite !Hd.
Qed.

(** X24: [hexToRgb] returns components below 256, reads upper and lower
    case alike, returns the grey (100, 100, 100) for what does not match, and
    matches the colour of every configured chain. *)
Theorem hexToRgb_law (hex : string) :
  ((hexToRgb hex).1.1 < 256 ∧ (hexToRgb hex).1.2 < 256 ∧ (hexToRgb hex).2 < 256)%N
  ∧ hexToRgb (JsString.toUpperCase hex) = hexToRgb hex
  ∧ hexToRgb (JsString.toLowerCase hex) = hexToRgb hex
  ∧ (hexGroups hex = None → hexToRgb hex = (100, 100, 100)%N)
  ∧ Forall (λ chain, is_Some (hexGroups (ChainConfig.color chain))) CHAINS.
Proof.
  split; [|split; [|split; [|split]]].
  - unfold hexToRgb, hexGroups. cbv zeta.
    destruct (match hex with String "#" rest => rest | _ => hex end)
      as [|r1 [|r2 [|g1 [|g2 [|b1 [|b2 [|? ?]]]]]]]; try (simpl; lia).
    destruct (hexPair r1 r2) as [r|] eqn:Hr; [|simpl; lia].
    destruct (hexPair g1 g2) as [g|] eqn:Hg; [|simpl; lia].
    destruct (hexPair b1 b2) as [b|] eqn:Hb; [|simpl; lia].
    apply hexPair_range in Hr, Hg, Hb. simpl. lia.
  - unfold hexToRgb, JsString.toUpperCase. rewrite hexGroups_map; [done| |].
    + apply hexDigit_upper.
    + by intros [[] [] [] [] [] [] [] []].
  - unfold hexToRgb, JsString.toLowerCase. rewrite hexGroups_map; [done| |].
    + apply hexDigit_lower.
    + by intros [[] [] [] [] [] [] [] []].
  - unfold hexToRgb. by intros ->.
  - repeat constructor; by eexists.
Qed.

End RenderFacts.

